(** * tick-knock: the reactive component index, embedded in Rocq

    A shallow embedding of the entity-component-system library
    (lib/utils/Signal.js, lib/ecs/ComponentId, lib/ecs/LinkedComponentList.js,
    lib/ecs/Entity.js, lib/ecs/Query, lib/ecs/Engine, lib/ecs/Subscription,
    ecs/System.ts) together with the properties its specification states
    about it and further properties of the code.

    Conventions of the embedding:
    - a JavaScript object with identity (a class, a component instance, a
      signal handler function, an entity) is a value carrying a reference
      number; [===] on objects is equality of these values;
    - mutable fields shared between objects (the [next] property of linked
      components, the [_head] of a [LinkedComponentList], the component id
      registry) live in an explicit [Heap];
    - a method that can throw, or that contains a loop whose termination
      depends on the heap, runs in the monad [M] and takes [fuel]. *)

From stdpp Require Import gmap strings list fin_maps sorting.
From Stdlib Require Import ZArith Lia.

Open Scope Z_scope.
Open Scope nat_scope.

(** ** lib/utils/Signal.js *)

Module Signal.

(** [SignalHandler]: the handler function (by identity) and its priority.
    Priorities are JavaScript numbers; the embedding covers the integers. *)
Record SignalHandler := mkHandler { handler : nat; priority : Z }.

Record Signal := mkSignal { handlers : list SignalHandler }.

Definition empty : Signal := mkSignal [].

(** [SignalHandler.prototype.equals] *)
Definition equals (it : SignalHandler) (h : nat) : bool := Nat.eqb (handler it) h.

Definition hasHandlers (s : Signal) : bool := Nat.ltb 0 (length (handlers s)).

Definition handlersAmount (s : Signal) : nat := length (handlers s).

(** [Array.prototype.sort] with the comparator [(a, b) => a.priority - b.priority].
    ECMAScript requires the sort to be stable, which fixes its result: every
    element is placed in front of the first element that compares strictly
    greater, scanning the array left to right. *)
Definition compare_priority (a b : SignalHandler) : Z := (priority a - priority b)%Z.

Fixpoint insert_by_priority (x : SignalHandler) (l : list SignalHandler) : list SignalHandler :=
  match l with
  | [] => [x]
  | y :: r => if (compare_priority x y <? 0)%Z then x :: y :: r
              else y :: insert_by_priority x r
  end.

Definition sort (l : list SignalHandler) : list SignalHandler :=
  fold_left (fun acc x => insert_by_priority x acc) l [].

(** [existingHandler.priority = priority] on the first handler found by [find]. *)
Fixpoint set_priority (h : nat) (p : Z) (l : list SignalHandler) : list SignalHandler :=
  match l with
  | [] => []
  | it :: r => if equals it h then mkHandler (handler it) p :: r
               else it :: set_priority h p r
  end.

Definition connect (s : Signal) (h : nat) (p : Z) : Signal :=
  match List.find (fun it => equals it h) (handlers s) with
  | Some existingHandler =>
      let needResort := negb (priority existingHandler =? p)%Z in
      let hs := set_priority h p (handlers s) in
      mkSignal (if needResort then sort hs else hs)
  | None =>
      let lastHandler := last (handlers s) in
      let hs := handlers s ++ [mkHandler h p] in
      let needResort :=
        match lastHandler with
        | Some l => (p <? priority l)%Z
        | None => false
        end in
      mkSignal (if needResort then sort hs else hs)
  end.

(** [findIndex] followed by [splice(index, 1)]: the first match is dropped. *)
Fixpoint remove_first (h : nat) (l : list SignalHandler) : list SignalHandler :=
  match l with
  | [] => []
  | it :: r => if equals it h then r else it :: remove_first h r
  end.

Definition disconnect (s : Signal) (h : nat) : Signal :=
  mkSignal (remove_first h (handlers s)).

Definition disconnectAll (s : Signal) : Signal := mkSignal [].

(** [emit]: the handlers invoked, in invocation order, each with the
    arguments of the emission. *)
Definition emit {A : Type} (s : Signal) (args : A) : list (nat * A) :=
  map (fun it => (handler it, args)) (handlers s).

(** A history of calls on one signal, starting from [new Signal()]. *)
Inductive Call := Connect (h : nat) (p : Z) | Disconnect (h : nat).

Definition call (s : Signal) (c : Call) : Signal :=
  match c with
  | Connect h p => connect s h p
  | Disconnect h => disconnect s h
  end.

Definition run (cs : list Call) : Signal := fold_left call cs empty.

(** The handlers that are connected after a history, in the order in which
    they were connected: a handler that is connected again keeps its place
    and takes the new priority. *)
Definition connected_step (l : list SignalHandler) (c : Call) : list SignalHandler :=
  match c with
  | Connect h p =>
      if existsb (fun it => equals it h) l then set_priority h p l
      else l ++ [mkHandler h p]
  | Disconnect h => remove_first h l
  end.

Definition connected (cs : list Call) : list SignalHandler :=
  fold_left connected_step cs [].

(** What the specification says [emit] does: the connected handlers by
    ascending priority, ties in connection order. *)
Definition emit_order_spec (cs : list Call) : list nat :=
  map handler (sort (connected cs)).

(** A history never changes the priority of a connected handler. *)
Fixpoint keeps_priorities_from (l : list SignalHandler) (cs : list Call) : Prop :=
  match cs with
  | [] => True
  | c :: r =>
      match c with
      | Connect h p =>
          match List.find (fun it => equals it h) l with
          | Some it => priority it = p
          | None => True
          end
      | Disconnect _ => True
      end /\ keeps_priorities_from (connected_step l c) r
  end.

Definition keeps_priorities (cs : list Call) : Prop := keeps_priorities_from [] cs.

End Signal.

(** ** Classes, component instances, tags *)

(** A class (constructor function): its identity and its [name]. Two
    different classes can have the same name. *)
Record Class := mkClass { class_ident : nat; class_name : string }.

#[global] Instance Class_eq_dec : EqDecision Class.
Proof. solve_decision. Defined.

#[global] Instance Class_countable : Countable Class.
Proof.
  refine (inj_countable' (fun c => (class_ident c, class_name c))
                         (fun p => mkClass p.1 p.2) _).
  by intros [].
Defined.

(** A component instance: its identity, the constructor of its prototype
    ([Object.getPrototypeOf(component).constructor]) and the constructors
    further up its prototype chain. *)
Record Component := mkComponent {
  comp_ref : nat;
  comp_class : Class;
  comp_supers : list Class
}.

#[global] Instance Component_eq_dec : EqDecision Component.
Proof. solve_decision. Defined.

#[global] Instance Component_countable : Countable Component.
Proof.
  refine (inj_countable' (fun c => (comp_ref c, comp_class c, comp_supers c))
                         (fun p => mkComponent p.1.1 p.1.2 p.2) _).
  by intros [].
Defined.

(** [component instanceof K] *)
Definition instanceOf (c : Component) (K : Class) : bool :=
  bool_decide (K ∈ comp_class c :: comp_supers c).

(** lib/ecs/Tag: a tag is a string or a number. *)
Inductive Tag := TagStr (s : string) | TagNum (z : Z).

#[global] Instance Tag_eq_dec : EqDecision Tag.
Proof. solve_decision. Defined.

#[global] Instance Tag_countable : Countable Tag.
Proof.
  refine (inj_countable' (fun t => match t with TagStr s => inl s | TagNum z => inr z end)
                         (fun x => match x with inl s => TagStr s | inr z => TagNum z end) _).
  by intros [].
Defined.

(** The argument [componentOrTag] (an instance or a tag) and the argument
    [componentClassOrTag] (a class or a tag); [isTag] is the case analysis. *)
Inductive Item := ITag (t : Tag) | IComp (c : Component).
Inductive Key := KTag (t : Tag) | KClass (K : Class).

#[global] Instance Item_eq_dec : EqDecision Item.
Proof. solve_decision. Defined.

(** ** The shared store *)

(** The fields of a [QueryBuilder]: the ids and tags collected by
    [contains]. A builder is an object of the store, known by its
    reference: the predicate of the query that [build] returns closes over
    the builder and reads these sets each time it is called. *)
Record QueryBuilder := mkQueryBuilder {
  builder_components : gset nat;
  builder_tags : gset Tag
}.

Record Heap := mkHeap {
  componentIds : gmap string nat;          (* ComponentId: [componentIds] *)
  componentClassId : nat;                  (* ComponentId: [componentClassId] *)
  NumberComponents : Z;                    (* [Entity.NumberComponents] *)
  next_prop : gmap Component (option Component);
                                           (* own property [next] of an instance *)
  list_head : gmap nat Component;          (* [_head] of a LinkedComponentList *)
  list_count : nat;                        (* lists allocated so far *)
  builders : gmap nat QueryBuilder;        (* the QueryBuilder objects *)
  builder_count : nat                      (* builders allocated so far *)
}.

Definition set_componentIds (m : gmap string nat) (n : nat) (h : Heap) : Heap :=
  mkHeap m n (NumberComponents h) (next_prop h) (list_head h) (list_count h)
         (builders h) (builder_count h).
Definition set_NumberComponents (z : Z) (h : Heap) : Heap :=
  mkHeap (componentIds h) (componentClassId h) z (next_prop h) (list_head h) (list_count h)
         (builders h) (builder_count h).
Definition set_next (c : Component) (n : option Component) (h : Heap) : Heap :=
  mkHeap (componentIds h) (componentClassId h) (NumberComponents h)
         (<[c := n]> (next_prop h)) (list_head h) (list_count h)
         (builders h) (builder_count h).
Definition set_head (L : nat) (c : option Component) (h : Heap) : Heap :=
  mkHeap (componentIds h) (componentClassId h) (NumberComponents h) (next_prop h)
         (match c with Some x => <[L := x]> (list_head h) | None => delete L (list_head h) end)
         (list_count h) (builders h) (builder_count h).
Definition alloc_list (h : Heap) : nat * Heap :=
  (list_count h,
   mkHeap (componentIds h) (componentClassId h) (NumberComponents h) (next_prop h)
          (delete (list_count h) (list_head h)) (S (list_count h))
          (builders h) (builder_count h)).

(** The builder behind a reference (a reference comes from
    [alloc_builder], so there is one). *)
Definition builder_at (r : nat) (h : Heap) : QueryBuilder :=
  default (mkQueryBuilder ∅ ∅) (builders h !! r).
Definition set_builder (r : nat) (b : QueryBuilder) (h : Heap) : Heap :=
  mkHeap (componentIds h) (componentClassId h) (NumberComponents h) (next_prop h)
         (list_head h) (list_count h) (<[r := b]> (builders h)) (builder_count h).
Definition alloc_builder (h : Heap) : nat * Heap :=
  (builder_count h,
   mkHeap (componentIds h) (componentClassId h) (NumberComponents h) (next_prop h)
          (list_head h) (list_count h)
          (<[builder_count h := mkQueryBuilder ∅ ∅]> (builders h)) (S (builder_count h))).

Definition empty_heap : Heap := mkHeap ∅ 1 0 ∅ ∅ 0 ∅ 0.

(** [c.next] *)
Definition next_of (h : Heap) (c : Component) : option Component :=
  default None (next_prop h !! c).

(** lib/ecs/LinkedComponent: [component.hasOwnProperty('next')] *)
Definition isLinkedComponent (h : Heap) (c : Component) : bool :=
  bool_decide (is_Some (next_prop h !! c)).

(** ** Results of calls *)

Inductive Err := ResolveMismatch | DuplicateAppend | TypeError.

(** A call returns, throws, or does not finish within the fuel; the store is
    kept when it throws, as the mutations done before are. *)
Inductive Res (S A : Type) :=
  | Ok (a : A) (s : S)
  | Throw (e : Err) (s : S)
  | OutOfFuel.
Arguments Ok {S A} a s.
Arguments Throw {S A} e s.
Arguments OutOfFuel {S A}.

Definition finished {S A} (r : Res S A) : option S :=
  match r with Ok _ s => Some s | Throw _ s => Some s | OutOfFuel => None end.

(** ** lib/ecs/ComponentId *)

Module ComponentId.

Definition getComponentId (K : Class) (createIfNotExists : bool) (h : Heap)
  : option nat * Heap :=
  let className := class_name K in
  match componentIds h !! className with
  | Some i => (Some i, h)
  | None =>
      if createIfNotExists then
        (Some (componentClassId h),
         set_componentIds (<[className := componentClassId h]> (componentIds h))
                          (S (componentClassId h)) h)
      else (None, h)
  end.

Definition getComponentClass (c : Component) (resolveClass : option Class)
  : Err + Class :=
  let componentClass := comp_class c in
  match resolveClass with
  | Some K =>
      if instanceOf c K || bool_decide (componentClass = K) then inr K
      else inl ResolveMismatch
  | None => inr componentClass
  end.

End ComponentId.

(** ** lib/ecs/LinkedComponentList.js *)

Module LinkedComponentList.

Definition head (L : nat) (h : Heap) : option Component := list_head h !! L.

Definition isEmpty (L : nat) (h : Heap) : bool :=
  match head L h with None => true | Some _ => false end.

(** The loop of [add]: returns the last node visited. *)
Fixpoint add_loop (fuel : nat) (c : Component) (prev current : option Component)
  (h : Heap) : Res Heap (option Component) :=
  match current with
  | None => Ok prev h
  | Some cur =>
      if decide (cur = c) then Throw DuplicateAppend h
      else match fuel with
           | 0 => OutOfFuel
           | S f => add_loop f c (Some cur) (next_of h cur) h
           end
  end.

Definition add (fuel : nat) (L : nat) (c : Component) (h : Heap) : Res Heap unit :=
  match add_loop fuel c None (head L h) h with
  | Ok prev h =>
      match head L h with
      | None => Ok tt (set_head L (Some c) h)
      | Some _ =>
          match prev with
          | Some p => Ok tt (set_next p (Some c) h)
          | None => Throw TypeError h
          end
      end
  | Throw e h => Throw e h
  | OutOfFuel => OutOfFuel
  end.

(** [find]: the pair [prev, current]. *)
Fixpoint find (fuel : nat) (c : Component) (prev current : option Component)
  (h : Heap) : option (option Component * option Component) :=
  match current with
  | None => Some (None, None)
  | Some cur =>
      if decide (cur = c) then Some (prev, Some cur)
      else match fuel with
           | 0 => None
           | S f => find f c (Some cur) (next_of h cur) h
           end
  end.

Definition remove (fuel : nat) (L : nat) (c : Component) (h : Heap) : Res Heap bool :=
  match find fuel c None (head L h) h with
  | None => OutOfFuel
  | Some (_, None) => Ok false h
  | Some (None, Some current) => Ok true (set_head L (next_of h current) h)
  | Some (Some prev, Some current) => Ok true (set_next prev (next_of h current) h)
  end.

(** [nodes]: the instances met from the head on, following [next]. *)
Fixpoint nodes_from (fuel : nat) (node : option Component) (h : Heap)
  : option (list Component) :=
  match node with
  | None => Some []
  | Some n =>
      match fuel with
      | 0 => None
      | S f => cons n <$> nodes_from f (next_of h n) h
      end
  end.

Definition nodes (fuel : nat) (L : nat) (h : Heap) : option (list Component) :=
  nodes_from fuel (head L h) h.

Definition clear (L : nat) (h : Heap) : Heap := set_head L None h.

End LinkedComponentList.

(** ** lib/ecs/Entity.js *)

Record Entity := mkEntity {
  entity_id : nat;                      (* [id] *)
  _components : gmap nat Component;
  _linkedComponents : gmap nat nat;     (* component id -> LinkedComponentList *)
  _tags : gset Tag;
  onComponentAdded : Signal.Signal;
  onComponentRemoved : Signal.Signal;
  onInvalidationRequested : Signal.Signal
}.

Definition set_components (m : gmap nat Component) (e : Entity) : Entity :=
  mkEntity (entity_id e) m (_linkedComponents e) (_tags e)
           (onComponentAdded e) (onComponentRemoved e) (onInvalidationRequested e).
Definition set_linkedComponents (m : gmap nat nat) (e : Entity) : Entity :=
  mkEntity (entity_id e) (_components e) m (_tags e)
           (onComponentAdded e) (onComponentRemoved e) (onInvalidationRequested e).
Definition set_tags (t : gset Tag) (e : Entity) : Entity :=
  mkEntity (entity_id e) (_components e) (_linkedComponents e) t
           (onComponentAdded e) (onComponentRemoved e) (onInvalidationRequested e).

(** [new Entity()] with the given id. *)
Definition new_entity (i : nat) : Entity :=
  mkEntity i ∅ ∅ ∅ Signal.empty Signal.empty Signal.empty.

(** What an entity signal carries besides the entity itself. *)
Inductive Event :=
  | EvAdded (i : Item)
  | EvRemoved (i : Item)
  | EvInvalidationRequested.

(** The state a method of an entity runs in: the shared store, the entity
    [this], and whatever the connected handlers keep ([X]). *)
Record St (X : Type) := mkSt { heap : Heap; this : Entity; ext : X }.
Arguments mkSt {X} heap this ext.
Arguments heap {X} s.
Arguments this {X} s.
Arguments ext {X} s.

Definition M (X A : Type) : Type := St X -> Res (St X) A.

Definition ret {X A} (a : A) : M X A := fun s => Ok a s.

Definition bind {X A B} (m : M X A) (k : A -> M X B) : M X B :=
  fun s =>
    match m s with
    | Ok a s' => k a s'
    | Throw e s' => Throw e s'
    | OutOfFuel => OutOfFuel
    end.

Notation "'let*' x ':=' m 'in' k" := (bind m (fun x => k))
  (at level 10, x pattern, m at level 100, k at level 200).

Definition throw {X A} (e : Err) : M X A := fun s => Throw e s.
Definition out_of_fuel {X A} : M X A := fun _ => OutOfFuel.
Definition getThis {X} : M X Entity := fun s => Ok (this s) s.
Definition getHeap {X} : M X Heap := fun s => Ok (heap s) s.
Definition setThis {X} (e : Entity) : M X unit :=
  fun s => Ok tt (mkSt (heap s) e (ext s)).
Definition setHeap {X} (h : Heap) : M X unit :=
  fun s => Ok tt (mkSt h (this s) (ext s)).

(** Calls into the store. *)
Definition onHeap {X A} (f : Heap -> A * Heap) : M X A :=
  fun s => let (a, h) := f (heap s) in Ok a (mkSt h (this s) (ext s)).
Definition onHeapRes {X A} (f : Heap -> Res Heap A) : M X A :=
  fun s =>
    match f (heap s) with
    | Ok a h => Ok a (mkSt h (this s) (ext s))
    | Throw e h => Throw e (mkSt h (this s) (ext s))
    | OutOfFuel => OutOfFuel
    end.
Definition orThrow {X A} (r : Err + A) : M X A :=
  match r with inl e => throw e | inr a => ret a end.

Module Entity.

(** *** Observers *)

Definition hasTag (e : Entity) (t : Tag) : bool := bool_decide (t ∈ _tags e).

Definition hasComponent (h : Heap) (e : Entity) (K : Class) : bool :=
  match fst (ComponentId.getComponentId K false h) with
  | None => false
  | Some i => bool_decide (is_Some (_components e !! i))
  end.

Definition has (h : Heap) (e : Entity) (k : Key) : bool :=
  match k with
  | KTag t => hasTag e t
  | KClass K => hasComponent h e K
  end.

Definition hasAny (h : Heap) (e : Entity) (ks : list Key) : bool := existsb (has h e) ks.
Definition hasAll (h : Heap) (e : Entity) (ks : list Key) : bool := forallb (has h e) ks.

Definition get (h : Heap) (e : Entity) (K : Class) : option Component :=
  match fst (ComponentId.getComponentId K false h) with
  | None => None
  | Some i => _components e !! i
  end.

(** *** [clear] and [copyFrom] *)

Definition clear (e : Entity) : Entity :=
  set_tags ∅ (set_linkedComponents ∅ (set_components ∅ e)).

Definition copyFrom (e entity : Entity) : Entity :=
  set_tags (_tags entity)
    (set_linkedComponents (_linkedComponents entity)
       (set_components (_components entity) e)).

Section Methods.

Context {X : Type}.

(** The body of the handler function with a given identity, run with the
    entity that emits as [this]. *)
Variable handle : nat -> Event -> M X unit.

Fixpoint invoke (calls : list (nat * Event)) : M X unit :=
  match calls with
  | [] => ret tt
  | (f, ev) :: r => let* _ := handle f ev in invoke r
  end.

Definition dispatchOnComponentAdded (component : Item) : M X unit :=
  let* e := getThis in
  if Signal.hasHandlers (onComponentAdded e)
  then invoke (Signal.emit (onComponentAdded e) (EvAdded component))
  else ret tt.

Definition dispatchOnComponentRemoved (value : Item) : M X unit :=
  let* e := getThis in
  if Signal.hasHandlers (onComponentRemoved e)
  then invoke (Signal.emit (onComponentRemoved e) (EvRemoved value))
  else ret tt.

Definition invalidate : M X unit :=
  let* e := getThis in
  invoke (Signal.emit (onInvalidationRequested e) EvInvalidationRequested).

Definition bumpNumberComponents (d : Z) : M X unit :=
  let* h := getHeap in
  setHeap (set_NumberComponents (NumberComponents h + d)%Z h).

Definition setComponent (i : nat) (c : option Component) : M X unit :=
  let* e := getThis in
  setThis (set_components
             (match c with
              | Some x => <[i := x]> (_components e)
              | None => delete i (_components e)
              end) e).

(** [getLinkedComponentList]; the id is [None] when the class passed has no
    id, and then there is no list. *)
Definition getLinkedComponentList (cid : option nat) (createIfNotExists : bool)
  : M X (option nat) :=
  match cid with
  | None => ret None
  | Some i =>
      let* e := getThis in
      match _linkedComponents e !! i with
      | Some L => ret (Some L)
      | None =>
          if createIfNotExists then
            let* L := onHeap alloc_list in
            let* e := getThis in
            let* _ := setThis (set_linkedComponents (<[i := L]> (_linkedComponents e)) e) in
            ret (Some L)
          else ret None
      end
  end.

Definition addTag (tag : Tag) : M X unit :=
  let* e := getThis in
  if hasTag e tag then ret tt
  else
    let* _ := setThis (set_tags ({[tag]} ∪ _tags e) e) in
    let* _ := dispatchOnComponentAdded (ITag tag) in
    bumpNumberComponents 1.

Definition removeTag (tag : Tag) : M X unit :=
  let* e := getThis in
  if hasTag e tag then
    let* _ := setThis (set_tags (_tags e ∖ {[tag]}) e) in
    dispatchOnComponentRemoved (ITag tag)
  else ret tt.

Definition appendComponent (fuel : nat) (component : Component)
  (resolveClass : option Class) : M X unit :=
  let* componentClass := orThrow (ComponentId.getComponentClass component resolveClass) in
  let* componentId := onHeap (ComponentId.getComponentId componentClass true) in
  let* componentList := getLinkedComponentList componentId true in
  match componentId, componentList with
  | Some i, Some L =>
      let* _ := onHeapRes (LinkedComponentList.add fuel L component) in
      let* e := getThis in
      let* h := getHeap in
      let* _ := match _components e !! i with
                | None => setComponent i (LinkedComponentList.head L h)
                | Some _ => ret tt
                end in
      dispatchOnComponentAdded (IComp component)
  | _, _ => throw TypeError
  end.

Definition append := appendComponent.

(** [remove], [withdrawComponent] and [withdraw] call each other and
    [removeComponent]; they are written over the [removeComponent] they
    reach. *)
Definition remove_with (removeComponent : Class -> M X (option Component))
  (componentClassOrTag : Key) : M X (option Component) :=
  let* _ := bumpNumberComponents (-1) in
  match componentClassOrTag with
  | KTag t => let* _ := removeTag t in ret None
  | KClass K => removeComponent K
  end.

Definition withdrawComponent_with (removeComponent : Class -> M X (option Component))
  (fuel : nat) (component : Component) (resolveClass : option Class)
  : M X (option Component) :=
  let* componentClass := orThrow (ComponentId.getComponentClass component resolveClass) in
  let* h := getHeap in
  if negb (isLinkedComponent h component)
  then remove_with removeComponent (KClass componentClass)
  else
    let* cid := onHeap (ComponentId.getComponentId componentClass false) in
    let* componentList := getLinkedComponentList cid false in
    let* e := getThis in
    let* h := getHeap in
    match componentList with
    | None => ret None
    | Some L =>
        if negb (hasComponent h e componentClass) then ret None
        else
          let* found := onHeapRes (LinkedComponentList.remove fuel L component) in
          let result := if found then Some component else None in
          let* componentId := onHeap (ComponentId.getComponentId componentClass true) in
          match componentId with
          | None => throw TypeError
          | Some i =>
              let* h := getHeap in
              let* _ :=
                if LinkedComponentList.isEmpty L h then
                  let* _ := setComponent i None in
                  let* e := getThis in
                  setThis (set_linkedComponents (delete i (_linkedComponents e)) e)
                else setComponent i (LinkedComponentList.head L h) in
              let* _ := match result with
                        | Some r => dispatchOnComponentRemoved (IComp r)
                        | None => ret tt
                        end in
              ret result
          end
    end.

Definition withdraw_with (removeComponent : Class -> M X (option Component))
  (fuel : nat) (componentClass : Class) : M X (option Component) :=
  let* e := getThis in
  let* h := getHeap in
  match get h e componentClass with
  | Some component =>
      withdrawComponent_with removeComponent fuel component (Some componentClass)
  | None => ret None
  end.

(** [while (!list.isEmpty) { body }] *)
Fixpoint while_not_empty {A} (fuel : nat) (L : nat) (body : M X A) : M X unit :=
  fun s =>
    if LinkedComponentList.isEmpty L (heap s) then Ok tt s
    else match fuel with
         | 0 => OutOfFuel
         | S f => bind body (fun _ => while_not_empty f L body) s
         end.

Fixpoint removeComponent (fuel : nat) (componentClass : Class) {struct fuel}
  : M X (option Component) :=
  let* e := getThis in
  let* h := getHeap in
  match fst (ComponentId.getComponentId componentClass false h) with
  | None => ret None
  | Some i =>
      match _components e !! i with
      | None => ret None
      | Some value =>
          if isLinkedComponent h value then
            let* list := getLinkedComponentList (Some i) true in
            match list, fuel with
            | None, _ => throw TypeError
            | Some L, 0 =>
                let* h := getHeap in
                if LinkedComponentList.isEmpty L h then ret (Some value) else out_of_fuel
            | Some L, S f =>
                let* _ := while_not_empty f L
                            (withdraw_with (removeComponent f) f componentClass) in
                ret (Some value)
            end
          else
            let* _ := setComponent i None in
            let* _ := dispatchOnComponentRemoved (IComp value) in
            ret (Some value)
      end
  end.

Definition remove (fuel : nat) : Key -> M X (option Component) :=
  remove_with (removeComponent fuel).

Definition withdrawComponent (fuel : nat) : Component -> option Class -> M X (option Component) :=
  withdrawComponent_with (removeComponent fuel) fuel.

Definition withdraw (fuel : nat) : Class -> M X (option Component) :=
  withdraw_with (removeComponent fuel) fuel.

Definition pick (fuel : nat) (component : Component) (resolveClass : option Class)
  : M X (option Component) :=
  withdrawComponent fuel component resolveClass.

Definition addComponent (fuel : nat) (component : Component)
  (resolveClass : option Class) : M X unit :=
  let* componentClass := orThrow (ComponentId.getComponentClass component resolveClass) in
  let* id := onHeap (ComponentId.getComponentId componentClass true) in
  let* h := getHeap in
  let linkedComponent := isLinkedComponent h component in
  let* e := getThis in
  match id with
  | None => throw TypeError
  | Some i =>
      let* proceed :=
        match _components e !! i with
        | Some stored =>
            if negb linkedComponent && bool_decide (component = stored)
            then ret false
            else let* _ := remove fuel (KClass componentClass) in ret true
        | None => ret true
        end in
      if (proceed : bool) then
        let* _ :=
          if linkedComponent then append fuel component resolveClass
          else
            let* _ := setComponent i (Some component) in
            dispatchOnComponentAdded (IComp component) in
        bumpNumberComponents 1
      else ret tt
  end.

(** [add(componentOrTag, data, resolveClass)] with an instance or a tag and
    the default (empty) [data]; a class passed to [add] is instantiated
    first and then takes the same path. *)
Definition add (fuel : nat) (componentOrTag : Item) (resolveClass : option Class)
  : M X unit :=
  match componentOrTag with
  | ITag t => addTag t
  | IComp c => addComponent fuel c resolveClass
  end.

(** [lengthOf], through [iterate] and [LinkedComponentList.nodes]. *)
Definition lengthOf (fuel : nat) (componentClass : Class) : M X nat :=
  let* e := getThis in
  let* h := getHeap in
  if negb (hasComponent h e componentClass) then ret 0
  else
    let* list := getLinkedComponentList (fst (ComponentId.getComponentId componentClass false h)) true in
    match list with
    | None => ret 0
    | Some L =>
        let* h := getHeap in
        match LinkedComponentList.nodes fuel L h with
        | Some ns => ret (length ns)
        | None => out_of_fuel
        end
    end.

End Methods.

(** *** Walking the instances *)

(** The loop of [find]: the first instance from [linkedComponent] on, along
    [next], that the predicate accepts. *)
Fixpoint find_loop (fuel : nat) (predicate : Component -> bool)
  (linkedComponent : option Component) (h : Heap) : option (option Component) :=
  match linkedComponent with
  | None => Some None
  | Some c =>
      if predicate c then Some (Some c)
      else match fuel with
           | 0 => None
           | S f => find_loop f predicate (next_of h c) h
           end
  end.

Definition find {X} (fuel : nat) (componentClass : Class) (predicate : Component -> bool)
  : M X (option Component) :=
  let* e := getThis in
  let* h := getHeap in
  match fst (ComponentId.getComponentId componentClass false h) with
  | None => ret None
  | Some componentIdToFind =>
      match _components e !! componentIdToFind with
      | None => ret None
      | Some component =>
          if isLinkedComponent h component then
            match find_loop fuel predicate (Some component) h with
            | Some r => ret r
            | None => out_of_fuel
            end
          else ret (if predicate component then Some component else None)
      end
  end.

Definition contains {X} (fuel : nat) (component : Component) (resolveClass : option Class)
  : M X bool :=
  let* componentClass := orThrow (ComponentId.getComponentClass component resolveClass) in
  let* h := getHeap in
  if isLinkedComponent h component then
    let* r := find fuel componentClass (fun value => bool_decide (value = component)) in
    ret (bool_decide (r <> None))
  else
    let* e := getThis in
    ret (bool_decide (get h e componentClass = Some component)).

(** [getAll]: the instances the generator yields, in order. *)
Definition getAll {X} (fuel : nat) (componentClass : Class) : M X (list Component) :=
  let* e := getThis in
  let* h := getHeap in
  if negb (hasComponent h e componentClass) then ret []
  else
    let* list :=
      getLinkedComponentList (fst (ComponentId.getComponentId componentClass false h)) false in
    match list with
    | None => ret []
    | Some L =>
        let* h := getHeap in
        match LinkedComponentList.nodes fuel L h with
        | Some ns => ret ns
        | None => out_of_fuel
        end
    end.

End Entity.

(** *** [EntitySnapshot] and [Entity.takeSnapshot] *)

(** [_current] refers to the live entity; [_previous] is an entity owned by
    the snapshot. *)
Record EntitySnapshot := mkSnapshot {
  _current : option nat;
  _previous : Entity
}.

Definition new_snapshot (i : nat) : EntitySnapshot := mkSnapshot None (new_entity i).

Definition takeSnapshot (e : Entity) (result : EntitySnapshot)
  (changedComponentOrTag : option Item) (resolveClass : option Class) (h : Heap)
  : EntitySnapshot * Heap :=
  let result :=
    if bool_decide (_current result = Some (entity_id e)) then result
    else mkSnapshot (Some (entity_id e)) (Entity.copyFrom (_previous result) e) in
  let previousState := _previous result in
  match changedComponentOrTag with
  | None => (result, h)
  | Some (ITag t) =>
      let previousTags := _tags previousState in
      (mkSnapshot (_current result)
         (set_tags (if Entity.has h e (KTag t) then previousTags ∖ {[t]}
                    else {[t]} ∪ previousTags) previousState), h)
  | Some (IComp c) =>
      let componentClass :=
        match resolveClass with Some K => K | None => comp_class c end in
      let (componentId, h) := ComponentId.getComponentId componentClass true h in
      match componentId with
      | None => (result, h)
      | Some i =>
          let previousComponents := _components previousState in
          (mkSnapshot (_current result)
             (set_components (if Entity.has h e (KClass componentClass)
                              then delete i previousComponents
                              else <[i := c]> previousComponents) previousState), h)
      end
  end.

(** ** lib/ecs/Query *)

Inductive QuerySignal := OnEntityAdded | OnEntityRemoved.

(** One invocation of a subscriber of a query: the handler, the signal and
    the snapshot as it is when the handler runs. *)
Definition Emission : Type := nat * (QuerySignal * EntitySnapshot).

(** A query. Its predicate is a function of the store and the entity: the
    queries of this development have predicates that read and change
    nothing (pure predicates). *)
Record Query := mkQuery {
  _predicate : Heap -> Entity -> bool;
  onEntityAdded : Signal.Signal;
  onEntityRemoved : Signal.Signal;
  _helper : Entity;
  _snapshot : EntitySnapshot;
  _entities : list nat                  (* the entities, by reference *)
}.

Definition set_helper (e : Entity) (q : Query) : Query :=
  mkQuery (_predicate q) (onEntityAdded q) (onEntityRemoved q) e (_snapshot q) (_entities q).
Definition set_snapshot (s : EntitySnapshot) (q : Query) : Query :=
  mkQuery (_predicate q) (onEntityAdded q) (onEntityRemoved q) (_helper q) s (_entities q).
Definition set_entities (l : list nat) (q : Query) : Query :=
  mkQuery (_predicate q) (onEntityAdded q) (onEntityRemoved q) (_helper q) (_snapshot q) l.

Module Query.

(** The helper entity and the snapshot's entity have no listeners. *)
Definition no_handlers : nat -> Event -> M unit unit := fun _ _ => ret tt.

(** [indexOf(entity) !== -1] *)
Definition has (q : Query) (entity : Entity) : bool :=
  bool_decide (entity_id entity ∈ _entities q).

(** [splice(indexOf(entity), 1)] *)
Fixpoint splice_out (i : nat) (l : list nat) : list nat :=
  match l with
  | [] => []
  | x :: r => if Nat.eqb x i then r else x :: splice_out i r
  end.

Definition push (i : nat) (l : list nat) : list nat := l ++ [i].

Definition clear (q : Query) : Query := set_entities [] q.

Definition isLinked (h : Heap) (i : Item) : bool :=
  match i with
  | ITag _ => false
  | IComp c => isLinkedComponent h c
  end.

Definition updateHelper (fuel : nat) (entity : Entity) (component : Item)
  (resolveClass : option Class) (q : Query) (h : Heap) : Res (Heap * Query) unit :=
  let helper := Entity.copyFrom (Entity.clear (_helper q)) entity in
  let body : M unit unit :=
    let* h := getHeap in
    if negb (isLinked h component) then Entity.add no_handlers fuel component None
    else
      match component with
      | ITag _ => ret tt
      | IComp c =>
          let* K := orThrow (ComponentId.getComponentClass c resolveClass) in
          let* e := getThis in
          let* h := getHeap in
          if negb (Entity.has h e (KClass K))
          then Entity.append no_handlers fuel c None
          else ret tt
      end in
  match body (mkSt h helper tt) with
  | Ok _ s => Ok tt (heap s, set_helper (this s) q)
  | Throw e s => Throw e (heap s, set_helper (this s) q)
  | OutOfFuel => OutOfFuel
  end.

(** [entity.takeSnapshot(this._snapshot, ...)] followed by [emit(this._snapshot)],
    done only when the signal has handlers. *)
Definition notify (sig : QuerySignal) (hasHandlers : bool) (entity : Entity)
  (changed : option Item) (resolveClass : option Class) (q : Query) (h : Heap)
  : list Emission * (Heap * Query) :=
  if hasHandlers then
    let (snap, h) := takeSnapshot entity (_snapshot q) changed resolveClass h in
    let q := set_snapshot snap q in
    (Signal.emit (match sig with
                  | OnEntityAdded => onEntityAdded q
                  | OnEntityRemoved => onEntityRemoved q
                  end) (sig, snap), (h, q))
  else ([], (h, q)).

Definition entityAdded (entity : Entity) (q : Query) (h : Heap)
  : list Emission * (Heap * Query) :=
  if negb (has q entity) && _predicate q h entity then
    let q := set_entities (push (entity_id entity) (_entities q)) q in
    notify OnEntityAdded (Signal.hasHandlers (onEntityAdded q)) entity None None q h
  else ([], (h, q)).

Definition entityRemoved (entity : Entity) (q : Query) (h : Heap)
  : list Emission * (Heap * Query) :=
  if has q entity then
    let q := set_entities (splice_out (entity_id entity) (_entities q)) q in
    notify OnEntityRemoved (Signal.hasHandlers (onEntityRemoved q)) entity None None q h
  else ([], (h, q)).

Definition entityComponentAdded (fuel : nat) (entity : Entity) (componentOrTag : Item)
  (componentClass : option Class) (q : Query) (h : Heap)
  : Res (Heap * Query) (list Emission) :=
  let hasAddedHandlers := Signal.hasHandlers (onEntityAdded q) in
  let hasRemovedHandlers := Signal.hasHandlers (onEntityRemoved q) in
  match updateHelper fuel entity componentOrTag componentClass q h with
  | Ok _ (h, q) =>
      let index := has q entity in
      let isMatch := _predicate q h (_helper q) in
      if negb index && isMatch then
        let q := set_entities (push (entity_id entity) (_entities q)) q in
        let (out, s) := notify OnEntityAdded hasAddedHandlers entity
                          (Some componentOrTag) componentClass q h in
        Ok out s
      else if index && negb isMatch then
        let q := set_entities (splice_out (entity_id entity) (_entities q)) q in
        let (out, s) := notify OnEntityRemoved hasRemovedHandlers entity
                          (Some componentOrTag) componentClass q h in
        Ok out s
      else Ok [] (h, q)
  | Throw e s => Throw e s
  | OutOfFuel => OutOfFuel
  end.

Definition entityComponentRemoved (fuel : nat) (entity : Entity) (component : Item)
  (componentClass : option Class) (q : Query) (h : Heap)
  : Res (Heap * Query) (list Emission) :=
  let hasAddedHandlers := Signal.hasHandlers (onEntityAdded q) in
  let hasRemovedHandlers := Signal.hasHandlers (onEntityRemoved q) in
  match updateHelper fuel entity component componentClass q h with
  | Ok _ (h, q) =>
      let index := has q entity in
      if index && _predicate q h (_helper q) && negb (_predicate q h entity) then
        let q := set_entities (splice_out (entity_id entity) (_entities q)) q in
        let (out, s) := notify OnEntityRemoved hasRemovedHandlers entity
                          (Some component) componentClass q h in
        Ok out s
      else if negb index && _predicate q h entity && negb (_predicate q h (_helper q)) then
        let q := set_entities (push (entity_id entity) (_entities q)) q in
        let (out, s) := notify OnEntityAdded hasAddedHandlers entity
                          (Some component) componentClass q h in
        Ok out s
      else Ok [] (h, q)
  | Throw e s => Throw e s
  | OutOfFuel => OutOfFuel
  end.

Definition validateEntity (entity : Entity) (q : Query) (h : Heap)
  : list Emission * (Heap * Query) :=
  let index := has q entity in
  let isMatch := _predicate q h entity in
  if index && negb isMatch then entityRemoved entity q h
  else entityAdded entity q h.

(** [matchEntities] *)
Fixpoint matchEntities (entities : list Entity) (q : Query) (h : Heap)
  : list Emission * (Heap * Query) :=
  match entities with
  | [] => ([], (h, q))
  | e :: r =>
      let '(out, (h, q)) := entityAdded e q h in
      let '(out', s) := matchEntities r q h in
      (out ++ out', s)
  end.

(** The function [hasAll] of the query module: the entity has a component
    under each of the ids and has each of the tags. *)
Definition hasAll (entity : Entity) (components : gset nat) (tags : gset Tag) : bool :=
  forallb (fun componentId => bool_decide (is_Some (_components entity !! componentId)))
          (elements components) &&
  forallb (fun tag => bool_decide (tag ∈ _tags entity)) (elements tags).

(** The patterns [all], [any] and [not], and [makeQuery]. *)
Definition all (componentClassOrTag : list Key) : Heap -> Entity -> bool :=
  fun h entity => Entity.hasAll h entity componentClassOrTag.

Definition any (componentClassOrTag : list Key) : Heap -> Entity -> bool :=
  fun h entity => Entity.hasAny h entity componentClassOrTag.

Definition not (componentClassOrTag : list Key) : Heap -> Entity -> bool :=
  fun h entity => negb (Entity.hasAny h entity componentClassOrTag).

Definition makeQuery (patterns : list (Heap -> Entity -> bool)) : Query :=
  mkQuery (fun h entity => forallb (fun p => p h entity) patterns)
          Signal.empty Signal.empty (new_entity 0) (new_snapshot 0) [].

End Query.

(** [QueryBuilder]: a builder is known by its reference [this] into the
    store. *)
Module QueryBuilder.

(** [new QueryBuilder()]: both sets empty. *)
Definition new (h : Heap) : nat * Heap := alloc_builder h.

(** One step of the loop of [contains]. *)
Definition contains_one (this : nat) (h : Heap) (componentOrTag : Key) : Heap :=
  match componentOrTag with
  | KTag t =>
      let b := builder_at this h in
      set_builder this (mkQueryBuilder (builder_components b) ({[t]} ∪ builder_tags b)) h
  | KClass K =>
      match ComponentId.getComponentId K true h with
      | (Some componentId, h) =>
          let b := builder_at this h in
          set_builder this
            (mkQueryBuilder ({[componentId]} ∪ builder_components b) (builder_tags b)) h
      | (None, h) => h
      end
  end.

(** [contains(...componentsOrTags)]; it returns [this]. *)
Definition contains (componentsOrTags : list Key) (this : nat) (h : Heap) : nat * Heap :=
  (this, fold_left (contains_one this) componentsOrTags h).

(** [build()]: the predicate reads the sets of the builder as they are in
    the store when it is called. *)
Definition build (this : nat) : Query :=
  mkQuery (fun h entity =>
             Query.hasAll entity (builder_components (builder_at this h))
                          (builder_tags (builder_at this h)))
          Signal.empty Signal.empty (new_entity 0) (new_snapshot 0) [].

End QueryBuilder.

(** ** lib/ecs/Engine: the router *)

(** The queries of the engine and, as a trace, the invocations of the
    queries' subscribers so far. *)
Record Engine := mkEngine {
  _queries : list Query;
  delivered : list Emission
}.

Module Engine.

(** The engine's callbacks [onComponentAdded], [onComponentRemoved] and
    [onInvalidationRequested], each connected to the entity signal of the
    same name. *)
Definition callback : nat := 0.

(** [this._queries.forEach(f)] *)
Fixpoint forEachQuery (f : Query -> Heap -> Res (Heap * Query) (list Emission))
  (qs : list Query) (h : Heap) (log : list Emission)
  : Res (Heap * Engine) unit :=
  match qs with
  | [] => Ok tt (h, mkEngine [] log)
  | q :: r =>
      match f q h with
      | Ok out (h, q) =>
          match forEachQuery f r h (log ++ out) with
          | Ok _ (h, g) => Ok tt (h, mkEngine (q :: _queries g) (delivered g))
          | Throw e (h, g) => Throw e (h, mkEngine (q :: _queries g) (delivered g))
          | OutOfFuel => OutOfFuel
          end
      | Throw e (h, q) => Throw e (h, mkEngine (q :: r) log)
      | OutOfFuel => OutOfFuel
      end
  end.

Definition route (f : Entity -> Query -> Heap -> Res (Heap * Query) (list Emission))
  : M Engine unit :=
  fun s =>
    match forEachQuery (f (this s)) (_queries (ext s)) (heap s) (delivered (ext s)) with
    | Ok _ (h, g) => Ok tt (mkSt h (this s) g)
    | Throw e (h, g) => Throw e (mkSt h (this s) g)
    | OutOfFuel => OutOfFuel
    end.

(** What the handlers connected to an entity do: the engine's callbacks fan
    out to the queries; any other listener leaves the entity, the store and
    the queries alone. *)
Definition handle (fuel : nat) (f : nat) (ev : Event) : M Engine unit :=
  if Nat.eqb f callback then
    match ev with
    | EvAdded component =>
        route (fun entity => Query.entityComponentAdded fuel entity component None)
    | EvRemoved component =>
        route (fun entity => Query.entityComponentRemoved fuel entity component None)
    | EvInvalidationRequested =>
        route (fun entity q h => let (out, s) := Query.validateEntity entity q h in Ok out s)
    end
  else ret tt.

(** The entity is connected ([connectEntity]): the engine's callbacks are
    among the handlers of its signals. *)
Definition connected (e : Entity) : Prop :=
  callback ∈ map Signal.handler (Signal.handlers (onComponentAdded e)) /\
  callback ∈ map Signal.handler (Signal.handlers (onComponentRemoved e)).

(** The structural operations on a connected entity. *)
Inductive Op :=
  | OpAdd (componentOrTag : Item) (resolveClass : option Class)
  | OpAppend (component : Component) (resolveClass : option Class)
  | OpRemove (componentClassOrTag : Key)
  | OpWithdraw (componentClass : Class).

Definition perform (fuel : nat) (op : Op) : M Engine unit :=
  match op with
  | OpAdd i rc => Entity.add (handle fuel) fuel i rc
  | OpAppend c rc => Entity.append (handle fuel) fuel c rc
  | OpRemove k => let* _ := Entity.remove (handle fuel) fuel k in ret tt
  | OpWithdraw K => let* _ := Entity.withdraw (handle fuel) fuel K in ret tt
  end.

(** A sequence of operations; an operation that throws leaves the state it
    reached, and the caller goes on. *)
Fixpoint perform_all (fuel : nat) (ops : list Op) (s : St Engine) : option (St Engine) :=
  match ops with
  | [] => Some s
  | op :: r =>
      match finished (perform fuel op s) with
      | Some s' => perform_all fuel r s'
      | None => None
      end
  end.

End Engine.

(** ** lib/ecs/Engine: systems *)

(** [Array.prototype.findIndex]. *)
Fixpoint findIndex {A} (f : A -> bool) (l : list A) : option nat :=
  match l with
  | [] => None
  | x :: r => if f x then Some 0 else S <$> findIndex f r
  end.

(** A call that the engine makes into a system: the subscribers of the
    system's signals and the hooks of its class are the user's; the calls
    are recorded in the order in which they are made. *)
Inductive SystemCall :=
  | SignalOnAddedToEngine (system : nat)
  | OnAddedToEngine (system : nat)
  | OnRemovedFromEngine (system : nat)
  | SignalOnRemovedFromEngine (system : nat).

(** The array [_systems] of the engine, holding system objects (by
    identity), with the fields [_priority] and [_engine] of the system
    objects and the calls made so far. *)
Record Systems := mkSystems {
  _systems : list nat;
  _priority : gmap nat Z;      (* 0 in a system whose priority was never set *)
  _engine : gset nat;          (* the systems whose [_engine] is this engine *)
  system_calls : list SystemCall
}.

Module System.

Definition priority (st : Systems) (system : nat) : Z :=
  default 0%Z (_priority st !! system).

Definition setPriority (system : nat) (priority : Z) (st : Systems) : Systems :=
  mkSystems (_systems st) (<[system := priority]> (_priority st)) (_engine st)
            (system_calls st).

Definition setEngine (system : nat) (engine : bool) (st : Systems) : Systems :=
  let st :=
    if negb engine
    then mkSystems (_systems st) (_priority st) (_engine st)
                   (system_calls st ++ [SignalOnRemovedFromEngine system])
    else st in
  let st :=
    mkSystems (_systems st) (_priority st)
              (if engine then {[system]} ∪ _engine st else _engine st ∖ {[system]})
              (system_calls st) in
  if engine
  then mkSystems (_systems st) (_priority st) (_engine st)
                 (system_calls st ++ [SignalOnAddedToEngine system])
  else st.

Definition onAddedToEngine (system : nat) (st : Systems) : Systems :=
  mkSystems (_systems st) (_priority st) (_engine st)
            (system_calls st ++ [OnAddedToEngine system]).

Definition onRemovedFromEngine (system : nat) (st : Systems) : Systems :=
  mkSystems (_systems st) (_priority st) (_engine st)
            (system_calls st ++ [OnRemovedFromEngine system]).

End System.

Module EngineSystems.

Definition set_systems (l : list nat) (st : Systems) : Systems :=
  mkSystems l (_priority st) (_engine st) (system_calls st).

Definition addSystem (system : nat) (priority : Z) (st : Systems) : Systems :=
  let st := System.setPriority system priority st in
  let st :=
    match _systems st with
    | [] => set_systems [system] st
    | _ =>
        match findIndex (fun value => (priority <? System.priority st value)%Z)
                        (_systems st) with
        | None => set_systems (_systems st ++ [system]) st
        | Some index =>
            set_systems (take index (_systems st) ++ system :: drop index (_systems st)) st
        end
    end in
  let st := System.setEngine system true st in
  System.onAddedToEngine system st.

Definition removeSystem (system : nat) (st : Systems) : Systems :=
  match findIndex (fun value => bool_decide (value = system)) (_systems st) with
  | None => st
  | Some index =>
      let st := set_systems (delete index (_systems st)) st in
      let st := System.onRemovedFromEngine system st in
      System.setEngine system false st
  end.

End EngineSystems.

(** ** lib/ecs/Subscription and the subscriptions of the engine *)

#[global] Instance Key_eq_dec : EqDecision Key.
Proof. solve_decision. Defined.

(** A subscription: the message type (a class, or a value: here a string or
    a number) and the handler function (by identity). *)
Record Subscription := mkSubscription {
  messageType : Key;
  sub_handler : nat
}.

#[global] Instance Subscription_eq_dec : EqDecision Subscription.
Proof. solve_decision. Defined.

Module Subscription.

Definition equals (s : Subscription) (mt : Key) (handler : option nat) : bool :=
  bool_decide (messageType s = mt) &&
  match handler with
  | None => true
  | Some f => bool_decide (sub_handler s = f)
  end.

End Subscription.

Module EngineSubscriptions.

Definition addSubscription (mt : Key) (handler : nat) (subscriptions : list Subscription)
  : Subscription * list Subscription :=
  match List.find (fun subscription => Subscription.equals subscription mt (Some handler))
                  subscriptions with
  | Some subscription => (subscription, subscriptions)
  | None =>
      let subscription := mkSubscription mt handler in
      (subscription, subscriptions ++ [subscription])
  end.

(** The loop [while (--i >= 0)] of [removeSubscription], with [i] the number
    of indices still to visit; every index visited is inside the array. *)
Fixpoint removeSubscription_loop (i : nat) (mt : Key) (handler : option nat)
  (subscriptions : list Subscription) : list Subscription :=
  match i with
  | 0 => subscriptions
  | S i =>
      match subscriptions !! i with
      | Some subscription =>
          if Subscription.equals subscription mt handler then
            let subscriptions := delete i subscriptions in
            match handler with
            | Some _ => subscriptions
            | None => removeSubscription_loop i mt handler subscriptions
            end
          else removeSubscription_loop i mt handler subscriptions
      | None => removeSubscription_loop i mt handler subscriptions
      end
  end.

Definition removeSubscription (mt : Key) (handler : option nat)
  (subscriptions : list Subscription) : list Subscription :=
  removeSubscription_loop (length subscriptions) mt handler subscriptions.

End EngineSubscriptions.

(** The patterns [all(...)], [any(...)] and [not(...)] that [makeQuery]
    takes. *)
Inductive Pattern :=
  | PAll (componentClassOrTag : list Key)
  | PAny (componentClassOrTag : list Key)
  | PNot (componentClassOrTag : list Key).

Definition pattern (p : Pattern) : Heap -> Entity -> bool :=
  match p with
  | PAll ks => Query.all ks
  | PAny ks => Query.any ks
  | PNot ks => Query.not ks
  end.

(** ** Vocabulary of the statements *)

(** Ascending priority. *)
Definition by_priority (a b : Signal.SignalHandler) : Prop :=
  (Signal.priority a <= Signal.priority b)%Z.

(** The handler functions of an array of handlers. *)
Definition ids (l : list Signal.SignalHandler) : list nat := map Signal.handler l.

(** A listener that only records that it was invoked, and with what. *)
Abbreviation Trace := (list (nat * Event)) (only parsing).

Definition record : nat -> Event -> M Trace unit :=
  fun f ev s => Ok tt (mkSt (heap s) (this s) (ext s ++ [(f, ev)])).

(** [chain h start l]: following [next] from [start] visits exactly the
    instances [l] and then reaches [undefined]. *)
Inductive chain (h : Heap) : option Component -> list Component -> Prop :=
  | chain_end : chain h None []
  | chain_step c l : chain h (next_of h c) l -> chain h (Some c) (c :: l).

(** The entity holds the linked instances [l] of class [K]: the class has id
    [i], the list [L] of that id has the instances [l] in order, the slot of
    the id is the head, and each instance is a linked component that is an
    instance of [K]. *)
Record holds_list (h : Heap) (e : Entity) (K : Class) (i L : nat)
  (l : list Component) : Prop := {
  hl_id : componentIds h !! class_name K = Some i;
  hl_list : _linkedComponents e !! i = Some L;
  hl_slot : _components e !! i = head l;
  hl_chain : chain h (list_head h !! L) l;
  hl_linked : Forall (fun c => isLinkedComponent h c = true) l;
  hl_class : Forall (fun c => instanceOf c K = true) l
}.

(** The instances in the entity's list for class [K] (none when the class
    has no id or the entity has no list for it). *)
Definition listed (h : Heap) (e : Entity) (K : Class) (l : list Component) : Prop :=
  match componentIds h !! class_name K with
  | None => l = []
  | Some i =>
      match _linkedComponents e !! i with
      | None => l = []
      | Some L => chain h (list_head h !! L) l
      end
  end.

(** The store after a series of [getComponentId] calls. *)
Definition after_calls (calls : list (Class * bool)) (h : Heap) : Heap :=
  fold_left (fun h call => snd (ComponentId.getComponentId call.1 call.2 h)) calls h.

(** The entity after its head instance of the list at [i] is withdrawn,
    the instances [l] remaining. *)
Definition withdrawn (e : Entity) (i : nat) (l : list Component) : Entity :=
  match l with
  | [] => set_linkedComponents (delete i (_linkedComponents e))
            (set_components (delete i (_components e)) e)
  | c' :: _ => set_components (<[i := c']> (_components e)) e
  end.

(** The invocations of the listeners of [onComponentRemoved] when the
    instances [l] are removed one after the other. *)
Definition removed_events (e : Entity) (l : list Component) : Trace :=
  flat_map (fun c => Signal.emit (onComponentRemoved e) (EvRemoved (IComp c))) l.

(** *** Queries over presence *)

(** Every stored instance sits in the slot of the id of its own class, and
    no id is given to two names. *)
Record typed (h : Heap) (e : Entity) : Prop := {
  ty_slot : forall i c, _components e !! i = Some c ->
              componentIds h !! class_name (comp_class c) = Some i;
  ty_inj : forall n m i, componentIds h !! n = Some i ->
              componentIds h !! m = Some i -> n = m
}.

(** The names of the component types that have a slot. *)
Definition names (m : gmap nat Component) : gset string :=
  map_to_set (fun _ c => class_name (comp_class c)) m.

(** The presence of an entity: the component types and the tags it has. *)
Definition presence (e : Entity) : gset string * gset Tag :=
  (names (_components e), _tags e).

(** [P] is the presence predicate of [q]: on an entity whose instances are
    stored under their own classes the predicate of [q] is [P] of the
    presence. *)
Definition pred_of (q : Query) (P : gset string -> gset Tag -> bool) : Prop :=
  forall h e, typed h e -> _predicate q h e = P (names (_components e)) (_tags e).

(** A predicate that looks only at which component types and which tags
    the entity has (as [has], [hasAll] and [hasAny] do). *)
Definition presence_based (q : Query) : Prop := exists P, pred_of q P.

(** Ids that are assigned stay assigned. *)
Definition ids_kept (h h' : Heap) : Prop :=
  forall n j, componentIds h !! n = Some j -> componentIds h' !! n = Some j.

(** The store is kept for the queries: ids that are assigned stay assigned,
    and the query builders are as they were. *)
Definition store_kept (h h' : Heap) : Prop :=
  ids_kept h h' /\ builders h' = builders h.

(** [P] is the presence predicate of [q] from the registry of [h0] on: in
    every store that keeps the ids assigned in [h0] and the query builders
    as they are in [h0], on an entity whose instances are stored under
    their own classes, the predicate of [q] is [P] of the presence. The
    predicate of a query builder's query, which reads the ids the builder
    has collected, is of this kind from the store in which the query was
    built, for as long as [contains] is not called on the builder again. *)
Definition pred_from (h0 : Heap) (q : Query) (P : gset string -> gset Tag -> bool) : Prop :=
  forall h e, store_kept h0 h -> typed h e ->
              _predicate q h e = P (names (_components e)) (_tags e).

Definition presence_from (h0 : Heap) (q : Query) : Prop := exists P, pred_from h0 q P.

(** Well-formed store and entity: what holds of an entity that was built by
    [add], [append], [remove] and [withdraw] without resolving classes. *)
Record wf_store (h : Heap) (e : Entity) : Prop := {
  wf_slot : forall i c, _components e !! i = Some c ->
              componentIds h !! class_name (comp_class c) = Some i;
  wf_link : forall i c, _components e !! i = Some c -> isLinkedComponent h c = true ->
              exists L, _linkedComponents e !! i = Some L /\ list_head h !! L = Some c;
  wf_list : forall i L, _linkedComponents e !! i = Some L ->
              L < list_count h /\ i < componentClassId h;
  wf_inj : forall i j L, _linkedComponents e !! i = Some L ->
              _linkedComponents e !! j = Some L -> i = j;
  wf_head : forall i L c, _linkedComponents e !! i = Some L ->
              list_head h !! L = Some c ->
              componentIds h !! class_name (comp_class c) = Some i /\
              isLinkedComponent h c = true;
  wf_next : forall a b, next_of h a = Some b ->
              class_name (comp_class a) = class_name (comp_class b) /\
              isLinkedComponent h b = true;
  wf_ids : forall n i, componentIds h !! n = Some i -> i < componentClassId h;
  wf_ids_inj : forall n m i, componentIds h !! n = Some i ->
              componentIds h !! m = Some i -> n = m
}.

(** A query of the engine is in step with the entity. *)
Definition in_step (h : Heap) (e : Entity) (q : Query) : Prop :=
  Query.has q e = _predicate q h e.

(** The operations the invariant is stated for: no resolving class is
    passed, and what is appended is a linked component. *)
Definition plain_op (h : Heap) (op : Engine.Op) : Prop :=
  match op with
  | Engine.OpAdd _ rc => rc = None
  | Engine.OpAppend c rc => rc = None /\ isLinkedComponent h c = true
  | Engine.OpRemove _ => True
  | Engine.OpWithdraw _ => True
  end.

(** [h1] is [h] after the queries have run: the ids, the [next] properties
    and the lists that existed are as before; lists may have been allocated. *)
Record heap_ext (h h1 : Heap) : Prop := {
  ext_ids : componentIds h1 = componentIds h;
  ext_next_id : componentClassId h1 = componentClassId h;
  ext_next : next_prop h1 = next_prop h;
  ext_heads : forall L, L < list_count h -> list_head h1 !! L = list_head h !! L;
  ext_count : list_count h <= list_count h1;
  ext_builders : builders h1 = builders h
}.

(** The presence the shadow entity shows for an entity and a changed item:
    the entity's own, with the item present. *)
Definition shadow_view (e : Entity) (item : Item) : gset string * gset Tag :=
  match item with
  | ITag t => (names (_components e), {[t]} ∪ _tags e)
  | IComp c => ({[class_name (comp_class c)]} ∪ names (_components e), _tags e)
  end.

(** The changed item of an event fits the entity the event is fired on. *)
Definition event_item (h : Heap) (e : Entity) (item : Item) : Prop :=
  match item with
  | ITag _ => True
  | IComp c =>
      exists i, componentIds h !! class_name (comp_class c) = Some i /\
        if isLinkedComponent h c
        then is_Some (_components e !! i) \/ _linkedComponents e !! i = None
        else _components e !! i = None \/ _components e !! i = Some c
  end.

(** The queries of an engine: presence predicates, entities listed once. *)
Definition presence_query (q : Query) : Prop :=
  presence_based q /\ NoDup (_entities q).

(** The same, for predicates over presence from the registry of [h0] on. *)
Definition engine_query (h0 : Heap) (q : Query) : Prop :=
  presence_from h0 q /\ NoDup (_entities q).

(** The same query, later: the predicate and the signals are the same. *)
Definition same_query (q q' : Query) : Prop :=
  _predicate q' = _predicate q /\
  onEntityAdded q' = onEntityAdded q /\ onEntityRemoved q' = onEntityRemoved q.

(** [P] applied to a presence. *)
Definition on_presence (P : gset string -> gset Tag -> bool)
  (v : gset string * gset Tag) : bool :=
  P v.1 v.2.

(** The registered class of a changed item: the snapshot assigns no id. *)
Definition item_known (h : Heap) (item : Item) : Prop :=
  match item with
  | ITag _ => True
  | IComp c => is_Some (componentIds h !! class_name (comp_class c))
  end.

(** Which instances are linked components is as in [h0]. *)
Definition linked_as (h0 h : Heap) : Prop :=
  forall c, isLinkedComponent h c = isLinkedComponent h0 c.

(** An instance that can stand in the list of id [i]. *)
Definition node_ok (h : Heap) (i : nat) (d : Component) : Prop :=
  isLinkedComponent h d = true /\
  componentIds h !! class_name (comp_class d) = Some i.

(** The invariant of an engine with one connected entity: the store is well
    formed and keeps the ids of [h0], the entity is connected, the queries
    are those of [qs0], they are queries over presence, and each is in step
    with the entity. *)
Record world_ok (h0 : Heap) (qs0 : list Query) (s : St Engine) : Prop := {
  wo_store : wf_store (heap s) (this s);
  wo_conn : Engine.connected (this s);
  wo_linked : linked_as h0 (heap s);
  wo_ids : store_kept h0 (heap s);
  wo_same : Forall2 same_query qs0 (_queries (ext s));
  wo_queries : Forall (engine_query h0) (_queries (ext s));
  wo_step : Forall (in_step (heap s) (this s)) (_queries (ext s))
}.

(** A method keeps the invariant, whether it returns or throws. *)
Definition keeps {A} (h0 : Heap) (qs0 : list Query) (m : M Engine A) : Prop :=
  forall s, world_ok h0 qs0 s ->
    match m s with
    | Ok _ s' => world_ok h0 qs0 s' /\ store_kept (heap s) (heap s')
    | Throw _ s' => world_ok h0 qs0 s' /\ store_kept (heap s) (heap s')
    | OutOfFuel => True
    end.

(** *** Predicates of queries *)

(** Conditions built from [has]: what [has], [hasAll], [hasAny] and their
    negations express. *)
Inductive Cond :=
  | CHas (k : Key)
  | CNot (c : Cond)
  | CAnd (a b : Cond)
  | COr (a b : Cond).

Fixpoint holds (c : Cond) (h : Heap) (e : Entity) : bool :=
  match c with
  | CHas k => Entity.has h e k
  | CNot c => negb (holds c h e)
  | CAnd a b => holds a h e && holds b h e
  | COr a b => holds a h e || holds b h e
  end.

(** A predicate over the multiplicity of a linked component:
    [entity => entity.lengthOf(K) >= n], as the code runs it. *)
Definition lengthOf_at_least (fuel n : nat) (K : Class) : M unit bool :=
  let* len := Entity.lengthOf fuel K in
  ret (n <=? len).

(** The entity has the list of [K] if it has a [K]. On such an entity
    [lengthOf(K)] only reads; on an entity that has a [K] stored as a
    standard component it creates an empty list in the entity. *)
Definition has_list_if_has (K : Class) (h : Heap) (e : Entity) : bool :=
  match componentIds h !! class_name K with
  | None => true
  | Some i =>
      implb (bool_decide (is_Some (_components e !! i)))
            (bool_decide (is_Some (_linkedComponents e !! i)))
  end.

(** The predicate of a query is a function of the store and the entity: a
    predicate that changes neither. [at_least] is the value of the
    predicate above; it stands for that predicate in a query on the
    entities on which it only reads, those with [has_list_if_has]. *)
Definition at_least (fuel n : nat) (K : Class) (h : Heap) (e : Entity) : bool :=
  match lengthOf_at_least fuel n K (mkSt h e tt) with
  | Ok b _ => b
  | _ => false
  end.

(** In a state of the engine, [lengthOf(K)] only reads on the entity and on
    the shadow entities of the queries. *)
Definition only_reads (K : Class) (s : St Engine) : bool :=
  has_list_if_has K (heap s) (this s) &&
  forallb (fun q => has_list_if_has K (heap s) (_helper q)) (_queries (ext s)).

(** [new Query(predicate)], with the handlers given connected to both of
    its signals. *)
Definition new_query (predicate : Heap -> Entity -> bool) (subscribers : list nat) : Query :=
  let sig := fold_left (fun s f => Signal.connect s f 0) subscribers Signal.empty in
  mkQuery predicate sig sig (new_entity 0) (new_snapshot 0) [].

(** For each query of the engine: whether it lists the entity, and what its
    predicate says of the entity. *)
Definition verdicts (s : St Engine) : list (bool * bool) :=
  map (fun q => (Query.has q (this s), _predicate q (heap s) (this s))) (_queries (ext s)).

(** What the subscribers of the queries were handed: for each invocation
    the signal and the tags of [snapshot.previous]. *)
Definition previous_tags (s : St Engine) : list (QuerySignal * gset Tag) :=
  map (fun em : Emission => (em.2.1, _tags (_previous em.2.2))) (delivered (ext s)).

(** The handlers invoked by an emission, in order. *)
Definition invoked {A} (out : list (nat * A)) : list nat := map fst out.

(** What is to be recorded when a signal fires with [ev]: each handler that
    is connected to the signal invoked once with [ev], in the order of the
    handlers. *)
Definition invocations (s : Signal.Signal) (ev : Event) : Trace :=
  map (fun f => (f, ev)) (ids (Signal.handlers s)).

(** *** What the shadow entity holds *)

(** The components of the shadow entity for an entity and a changed item:
    a tag leaves them alone; an instance that is not a linked component is
    put in the slot of its type; a linked component is put there only when
    the slot is empty. *)
Definition shadow_components (h : Heap) (e : Entity) (item : Item) : gmap nat Component :=
  match item with
  | ITag _ => _components e
  | IComp c =>
      match componentIds h !! class_name (comp_class c) with
      | Some i =>
          if isLinkedComponent h c && bool_decide (is_Some (_components e !! i))
          then _components e
          else <[i := c]> (_components e)
      | None => _components e
      end
  end.

Definition shadow_tags (e : Entity) (item : Item) : gset Tag :=
  match item with
  | ITag t => {[t]} ∪ _tags e
  | IComp _ => _tags e
  end.

(** ** Scenarios *)

Definition Position : Class := mkClass 1 "Position".
Definition Damage : Class := mkClass 2 "Damage".
(** Another class whose name is also [Damage]. *)
Definition OtherDamage : Class := mkClass 3 "Damage".

Definition position1 : Component := mkComponent 10 Position [].
Definition position2 : Component := mkComponent 11 Position [].
Definition damage_a : Component := mkComponent 20 Damage [].
Definition damage_b : Component := mkComponent 21 Damage [].
Definition damage_c : Component := mkComponent 22 Damage [].

Definition alive : Tag := TagStr "alive".
Definition burning : Tag := TagStr "burning".

(** The store at the start: no id assigned, the three [Damage] instances
    constructed as linked components ([next] is [undefined]). *)
Definition start_heap : Heap :=
  mkHeap ∅ 1 0 (<[damage_a := None]> (<[damage_b := None]> (<[damage_c := None]> ∅))) ∅ 0
         ∅ 0.

(** [connectEntity]: the engine connects its callbacks to the signals of
    the entity. It passes an infinite priority, which puts the callbacks
    behind (for [onInvalidationRequested]: in front of) the other
    listeners; [top] stands for it. *)
Definition connectEntity (top : Z) (e : Entity) : Entity :=
  mkEntity (entity_id e) (_components e) (_linkedComponents e) (_tags e)
    (Signal.connect (onComponentAdded e) Engine.callback top)
    (Signal.connect (onComponentRemoved e) Engine.callback top)
    (Signal.connect (onInvalidationRequested e) Engine.callback (- top)).

(** An engine with the given queries and one new entity, connected. *)
Definition world (qs : list Query) : St Engine :=
  mkSt start_heap (connectEntity 1000 (new_entity 7)) (mkEngine qs []).

(** An entity with a listener (handler 1) on each of its signals. *)
Definition observed_entity : Entity :=
  mkEntity 7 ∅ ∅ ∅ (Signal.connect Signal.empty 1 0) (Signal.connect Signal.empty 1 0)
    Signal.empty.

(** A condition read off the names of the component types and the tags. *)
Fixpoint holds_on (c : Cond) (ns : gset string) (ts : gset Tag) : bool :=
  match c with
  | CHas (KTag t) => bool_decide (t ∈ ts)
  | CHas (KClass K) => bool_decide (class_name K ∈ ns)
  | CNot c => negb (holds_on c ns ts)
  | CAnd a b => holds_on a ns ts && holds_on b ns ts
  | COr a b => holds_on a ns ts || holds_on b ns ts
  end.

(** Two queries over presence, the first with a subscriber (handler 5):
    the entities that have [Damage]; the entities tagged [alive] that have
    no [Position]. *)
Definition presence_queries : list Query :=
  [new_query (holds (CHas (KClass Damage))) [5];
   new_query (holds (CAnd (CHas (KTag alive)) (CNot (CHas (KClass Position))))) []].

Definition presence_ops : list Engine.Op :=
  [Engine.OpAdd (ITag alive) None;
   Engine.OpAppend damage_a None;
   Engine.OpAppend damage_b None;
   Engine.OpAdd (IComp position1) None;
   Engine.OpWithdraw Damage;
   Engine.OpAdd (IComp position2) None;
   Engine.OpRemove (KClass Position);
   Engine.OpRemove (KClass Damage);
   Engine.OpRemove (KTag alive)].

(** A class and a class that extends it; an instance of the latter. *)
Definition Shape : Class := mkClass 4 "Shape".
Definition Circle : Class := mkClass 5 "Circle".
Definition circle : Component := mkComponent 30 Circle [Shape].

(** The query for the entities that have a [Circle], and [add] of a circle
    under the resolving class [Shape]. *)
Definition circle_queries : list Query := [new_query (holds (CHas (KClass Circle))) []].

Definition resolve_ops : list Engine.Op := [Engine.OpAdd (IComp circle) (Some Shape)].

(** A query over multiplicity: the entities with at least two [Damage]. *)
Definition multiplicity_queries : list Query := [new_query (at_least 10 2 Damage) []].

Definition multiplicity_ops : list Engine.Op :=
  [Engine.OpAppend damage_a None;
   Engine.OpAppend damage_b None;
   Engine.OpWithdraw Damage].

(** The store once [Position] has its id. *)
Definition position_heap : Heap :=
  snd (ComponentId.getComponentId Position true start_heap).

(** The query for the entities that have a [Position], with a subscriber
    (handler 5), listing entity 7. *)
Definition position_query : Query :=
  set_entities [7] (new_query (holds (CHas (KClass Position))) [5]).

(** [append(a)], [append(b)], then [withdraw(Damage)], and the shadow
    entity a query builds for the removal of what was withdrawn. Reported
    are: the instance withdrawn; [get(Damage)] and [lengthOf(Damage)] of
    the entity before the withdrawal; [get(Damage)] and [lengthOf(Damage)]
    of the shadow entity. *)
Definition withdraw_shadow_report
  : option (option Component * (option Component * nat) * (option Component * nat)) :=
  let length_of h e :=
    match Entity.lengthOf 10 Damage (mkSt h e tt) with Ok n _ => n | _ => 0 end in
  match (let* _ := Entity.append Query.no_handlers 10 damage_a None in
         Entity.append Query.no_handlers 10 damage_b None)
          (mkSt start_heap (new_entity 7) tt) with
  | Ok _ before =>
      match Entity.withdraw Query.no_handlers 10 Damage before with
      | Ok removed after =>
          match Query.updateHelper 10 (this after) (IComp damage_a) None
                  (new_query (at_least 10 2 Damage) []) (heap after) with
          | Ok _ (h1, q1) =>
              Some (removed,
                    (Entity.get (heap before) (this before) Damage,
                     length_of (heap before) (this before)),
                    (Entity.get h1 (_helper q1) Damage, length_of h1 (_helper q1)))
          | _ => None
          end
      | _ => None
      end
  | _ => None
  end.

(** A query over a tag with a subscriber (handler 5), and three changes of
    tags, the first and the last of which change the membership. *)
Definition tag_queries : list Query := [new_query (holds (CHas (KTag alive))) [5]].

Definition tag_ops : list Engine.Op :=
  [Engine.OpAdd (ITag alive) None;
   Engine.OpAdd (ITag burning) None;
   Engine.OpRemove (KTag alive)].

(** The state a call leaves, whether it returns or throws. *)
Definition after {X A} (m : M X A) (s : St X) : St X :=
  match m s with
  | Ok _ s' => s'
  | Throw _ s' => s'
  | OutOfFuel => s
  end.

(** The observed entity after [append(a)], [append(b)], [append(c)]. *)
Definition three_damage : St Trace :=
  after (let* _ := Entity.append record 10 damage_a None in
         let* _ := Entity.append record 10 damage_b None in
         Entity.append record 10 damage_c None)
        (mkSt start_heap observed_entity []).

(** The observed entity after [add(position1)]. *)
Definition one_position : St Trace :=
  after (Entity.add record 10 (IComp position1) None) (mkSt start_heap observed_entity []).

(** Connecting with priorities 5, 1, 5. *)
Definition five_one_five : list Signal.Call :=
  [Signal.Connect 1 5; Signal.Connect 2 1; Signal.Connect 3 5].

(** Connecting two handlers and then giving the second the priority of
    the first. *)
Definition reprioritised : list Signal.Call :=
  [Signal.Connect 1 7; Signal.Connect 2 5; Signal.Connect 2 7].

(** The observed entity after [append(a)]. *)
Definition one_damage : St Trace :=
  after (Entity.append record 10 damage_a None) (mkSt start_heap observed_entity []).

(** The linked component of the README: a class that implements
    [ILinkedComponent] and declares no [next], so that its instances have no
    own [next] property when they are constructed; and the hero after
    [append(new Damage(100))], [append(new Damage(5))]. *)
Definition hit100 : Component := mkComponent 40 Damage [].
Definition hit5 : Component := mkComponent 41 Damage [].

Definition readme_hero : St Trace :=
  after (let* _ := Entity.append record 10 hit100 None in
         Entity.append record 10 hit5 None)
        (mkSt start_heap observed_entity []).


(** The engine with the query for the entities that have a [Shape] after
    [add(circle, Shape)] on its entity. *)
Definition shape_queries : list Query := [new_query (holds (CHas (KClass Shape))) []].

Definition shape_world : St Engine :=
  default (world shape_queries) (Engine.perform_all 10 resolve_ops (world shape_queries)).

(** The engine with the query for the entities that have a [Circle] after
    [add(circle, Shape)] on its entity. *)
Definition circle_world : St Engine :=
  default (world circle_queries) (Engine.perform_all 10 resolve_ops (world circle_queries)).





(** A builder after [contains(Damage, alive)], with the store it leaves,
    and an engine with two queries written with [has] and the query of the
    builder, and one new entity, connected. *)
Definition damage_builder : nat * Heap :=
  let (builder, h) := QueryBuilder.new start_heap in
  QueryBuilder.contains [KClass Damage; KTag alive] builder h.

Definition built_world : St Engine :=
  mkSt (snd damage_builder) (connectEntity 1000 (new_entity 7))
       (mkEngine (presence_queries ++ [QueryBuilder.build (fst damage_builder)]) []).

(** What a call did: the value it returned or the error it threw (nothing
    when it ran out of fuel). *)
Definition outcome {S A} (r : Res S A) : option (Err + A) :=
  match r with
  | Ok a _ => Some (inr a)
  | Throw e _ => Some (inl e)
  | OutOfFuel => None
  end.

(** ** Vocabulary of the further properties *)

(** The store after the instance [c], which follows [prev] in the list [L]
    (or is its head), has been taken out of the list. *)
Definition unlink (h : Heap) (L : nat) (prev : option Component) (c : Component) : Heap :=
  match prev with
  | None => set_head L (next_of h c) h
  | Some p => set_next p (next_of h c) h
  end.


(** The observed entity after [append(a)], [append(b)]. *)
Definition two_damage : St Trace :=
  after (let* _ := Entity.append record 10 damage_a None in
         Entity.append record 10 damage_b None)
        (mkSt start_heap observed_entity []).

(** What a builder holds after [contains] has run over the keys [ks] and
    left the registry [h]. *)
Record collected (ks : list Key) (b : QueryBuilder) (h : Heap) : Prop := {
  col_ids : forall i, i ∈ builder_components b <->
              exists K, KClass K ∈ ks /\ componentIds h !! class_name K = Some i;
  col_tags : forall t, t ∈ builder_tags b <-> KTag t ∈ ks;
  col_known : forall K, KClass K ∈ ks -> is_Some (componentIds h !! class_name K)
}.

(** * Properties of the signal *)

Section SignalFacts.

Import Signal.



Lemma insert_by_priority_perm x l : Permutation (insert_by_priority x l) (x :: l).
Proof.
  induction l as [|y r IH]; simpl; [done|].
  destruct (compare_priority x y <? 0)%Z; [done|].
  rewrite IH. apply perm_swap.
Qed.

Lemma insert_by_priority_sorted x l :
  StronglySorted by_priority l -> StronglySorted by_priority (insert_by_priority x l).
Proof.
  induction 1 as [|y r Hs IH Hall]; simpl.
  - repeat constructor.
  - unfold compare_priority. destruct (Z.ltb_spec (priority x - priority y) 0).
    + constructor; [by constructor|].
      constructor; [unfold by_priority; lia|].
      eapply Forall_impl; [exact Hall|]. unfold by_priority. intros; simpl in *; lia.
    + constructor; [done|].
      rewrite insert_by_priority_perm. constructor; [unfold by_priority; lia|done].
Qed.

Lemma insert_by_priority_last x l :
  Forall (fun y => by_priority y x) l -> insert_by_priority x l = l ++ [x].
Proof.
  induction 1 as [|y r Hy _ IH]; simpl; [done|].
  unfold compare_priority, by_priority in *.
  destruct (Z.ltb_spec (priority x - priority y) 0); [lia|]. by rewrite IH.
Qed.

Lemma insert_by_priority_first x l :
  Forall (fun y => priority x < priority y)%Z l -> insert_by_priority x l = x :: l.
Proof.
  destruct 1 as [|y r Hy _]; simpl; [done|].
  unfold compare_priority. destruct (Z.ltb_spec (priority x - priority y) 0); [done|lia].
Qed.

Lemma sort_from_sorted l acc :
  StronglySorted by_priority acc ->
  StronglySorted by_priority (fold_left (fun a x => insert_by_priority x a) l acc).
Proof.
  revert acc. induction l as [|x r IH]; simpl; intros acc Hacc; [done|].
  apply IH. by apply insert_by_priority_sorted.
Qed.

Lemma sort_sorted l : StronglySorted by_priority (sort l).
Proof. apply sort_from_sorted. constructor. Qed.

Lemma sort_from_perm l acc :
  Permutation (fold_left (fun a x => insert_by_priority x a) l acc) (acc ++ l).
Proof.
  revert acc. induction l as [|x r IH]; simpl; intros acc.
  - by rewrite app_nil_r.
  - rewrite IH, insert_by_priority_perm. simpl. apply Permutation_middle.
Qed.

Lemma sort_perm l : Permutation (sort l) l.
Proof. apply (sort_from_perm l []). Qed.

Lemma sort_snoc l x : sort (l ++ [x]) = insert_by_priority x (sort l).
Proof. unfold sort. by rewrite fold_left_app. Qed.

Lemma sort_from_already l acc :
  StronglySorted by_priority (acc ++ l) ->
  fold_left (fun a x => insert_by_priority x a) l acc = acc ++ l.
Proof.
  revert acc. induction l as [|x r IH]; simpl; intros acc Hs.
  - by rewrite app_nil_r.
  - rewrite insert_by_priority_last.
    + rewrite IH; rewrite <- app_assoc; done.
    + clear IH. induction acc as [|a acc IHacc]; [constructor|].
      simpl in Hs. apply StronglySorted_inv in Hs as [Hs Hall].
      constructor; [|by apply IHacc].
      rewrite Forall_app in Hall. destruct Hall as [_ Hall].
      by apply Forall_inv in Hall.
Qed.

Lemma sort_already l : StronglySorted by_priority l -> sort l = l.
Proof. intros Hs. apply (sort_from_already l []). done. Qed.

Lemma sorted_last_bound l x :
  StronglySorted by_priority l -> last l = Some x ->
  Forall (fun y => by_priority y x) l.
Proof.
  intros Hs Hl. apply last_Some in Hl as [l' ->].
  apply Forall_app. split; [|repeat constructor; unfold by_priority; lia].
  induction l' as [|a l' IH]; [constructor|].
  simpl in Hs. apply StronglySorted_inv in Hs as [Hs Hall].
  constructor; [|by apply IH].
  rewrite Forall_app in Hall. destruct Hall as [_ Hall].
  by apply Forall_inv in Hall.
Qed.

(** Handlers by identity. *)


Lemma equals_spec it h : equals it h = bool_decide (handler it = h).
Proof.
  unfold equals. destruct (Nat.eqb_spec (handler it) h); symmetry;
    [by apply bool_decide_eq_true_2 | by apply bool_decide_eq_false_2].
Qed.

Lemma find_none_ids h l :
  List.find (fun it => equals it h) l = None <-> h ∉ ids l.
Proof.
  induction l as [|y r IH]; simpl.
  - split; [intros _; apply not_elem_of_nil|done].
  - rewrite equals_spec. case_bool_decide as Hy.
    + split; [done|]. intros H. exfalso. apply H. rewrite Hy. constructor.
    + rewrite not_elem_of_cons. rewrite IH. naive_solver.
Qed.

Lemma find_some_ids h l it :
  List.find (fun it => equals it h) l = Some it -> it ∈ l /\ handler it = h.
Proof.
  induction l as [|y r IH]; simpl; [done|].
  rewrite equals_spec. case_bool_decide as Hy.
  - intros [= <-]. split; [constructor|done].
  - intros H. destruct (IH H). split; [by constructor|done].
Qed.

Lemma existsb_ids h l :
  existsb (fun it => equals it h) l = bool_decide (h ∈ ids l).
Proof.
  induction l as [|y r IH]; simpl; [done|].
  rewrite IH, equals_spec. destruct (decide (handler y = h)) as [Hy|Hy].
  - rewrite (bool_decide_eq_true_2 _ Hy). simpl.
    symmetry. apply bool_decide_eq_true_2. rewrite Hy. constructor.
  - rewrite (bool_decide_eq_false_2 _ Hy). simpl.
    apply bool_decide_ext. rewrite elem_of_cons. naive_solver.
Qed.

Lemma set_priority_ids h p l : ids (set_priority h p l) = ids l.
Proof.
  induction l as [|y r IH]; simpl; [done|].
  destruct (equals y h); simpl; [done|]. by rewrite IH.
Qed.

Lemma set_priority_map h p l :
  NoDup (ids l) ->
  set_priority h p l =
  map (fun it => if equals it h then mkHandler (handler it) p else it) l.
Proof.
  induction l as [|y r IH]; simpl; [done|].
  intros Hnd. apply NoDup_cons in Hnd as [Hy Hnd].
  rewrite equals_spec. case_bool_decide as Hh.
  - f_equal. symmetry. etrans; [|apply List.map_id]. apply List.map_ext_in.
    intros it Hit. rewrite equals_spec. case_bool_decide as Hh'; [|done].
    exfalso. apply Hy. rewrite Hh, <- Hh'. apply list_elem_of_fmap_2.
    by apply list_elem_of_In.
  - f_equal. by apply IH.
Qed.

Lemma set_priority_same h p l :
  (forall it, it ∈ l -> handler it = h -> priority it = p) ->
  set_priority h p l = l.
Proof.
  induction l as [|y r IH]; simpl; [done|]. intros Hall.
  rewrite equals_spec. case_bool_decide as Hh.
  - f_equal. destruct y as [hy py]. simpl in *. f_equal. symmetry.
    apply (Hall (mkHandler hy py)); [constructor|done].
  - f_equal. apply IH. intros it Hit. apply Hall. by constructor.
Qed.

Lemma remove_first_fresh h l : h ∉ ids l -> remove_first h l = l.
Proof.
  induction l as [|y r IH]; simpl; [done|].
  rewrite not_elem_of_cons. intros [Hne Hr].
  rewrite equals_spec. case_bool_decide; [congruence|]. by rewrite IH.
Qed.

Lemma remove_first_filter h l :
  NoDup (ids l) ->
  remove_first h l = filter (fun it => handler it <> h) l.
Proof.
  induction l as [|y r IH]; simpl; [done|].
  intros Hnd. apply NoDup_cons in Hnd as [Hy Hnd].
  rewrite filter_cons. rewrite equals_spec. case_bool_decide as Hh; simpl.
  - rewrite decide_False by tauto. rewrite <- IH by done.
    symmetry. apply remove_first_fresh. by rewrite <- Hh.
  - rewrite decide_True by done. f_equal. by apply IH.
Qed.

Lemma remove_first_sub h l x : x ∈ remove_first h l -> x ∈ l.
Proof.
  induction l as [|y r IH]; simpl; [done|].
  destruct (equals y h); simpl.
  - intros. by constructor.
  - rewrite !elem_of_cons. naive_solver.
Qed.

Lemma remove_first_ids_sub h l x : x ∈ ids (remove_first h l) -> x ∈ ids l.
Proof.
  unfold ids. rewrite !list_elem_of_fmap. intros (y & -> & Hy).
  exists y. split; [done|]. by eapply remove_first_sub.
Qed.

Lemma remove_first_nodup h l : NoDup (ids l) -> NoDup (ids (remove_first h l)).
Proof.
  induction l as [|y r IH]; simpl; [done|].
  intros Hnd. apply NoDup_cons in Hnd as [Hy Hnd].
  destruct (equals y h); simpl; [done|].
  apply NoDup_cons. split; [|by apply IH].
  intros Hin. apply Hy. by eapply remove_first_ids_sub.
Qed.

Lemma remove_first_sorted h l :
  StronglySorted by_priority l -> StronglySorted by_priority (remove_first h l).
Proof.
  induction 1 as [|y r Hs IH Hall]; simpl; [constructor|].
  destruct (equals y h); [done|].
  constructor; [done|].
  rewrite Forall_forall in *. intros x Hx. apply Hall. by eapply remove_first_sub.
Qed.

Lemma remove_first_insert_other h x l :
  StronglySorted by_priority l -> handler x <> h ->
  remove_first h (insert_by_priority x l) = insert_by_priority x (remove_first h l).
Proof.
  intros Hs Hx. induction Hs as [|y r Hs IH Hall]; simpl.
  - rewrite equals_spec. by rewrite bool_decide_eq_false_2.
  - unfold compare_priority. destruct (Z.ltb_spec (priority x - priority y) 0) as [Hlt|Hge]; simpl.
    + rewrite (equals_spec x), (bool_decide_eq_false_2 _ Hx).
      destruct (equals y h); simpl.
      * rewrite insert_by_priority_first; [done|].
        eapply Forall_impl; [exact Hall|]. unfold by_priority. intros; simpl in *; lia.
      * unfold compare_priority. destruct (Z.ltb_spec (priority x - priority y) 0); [done|lia].
    + destruct (equals y h); simpl; [done|].
      unfold compare_priority. destruct (Z.ltb_spec (priority x - priority y) 0); [lia|].
      by rewrite IH.
Qed.

Lemma remove_first_insert_same h x l :
  handler x = h -> h ∉ ids l -> remove_first h (insert_by_priority x l) = l.
Proof.
  intros Hx. induction l as [|y r IH]; simpl; intros Hl.
  - rewrite equals_spec. by rewrite bool_decide_eq_true_2.
  - apply not_elem_of_cons in Hl as [Hy Hr].
    destruct (compare_priority x y <? 0)%Z; simpl.
    + rewrite equals_spec. by rewrite bool_decide_eq_true_2.
    + rewrite equals_spec, bool_decide_eq_false_2 by done. by rewrite IH.
Qed.

Lemma nodup_ids_perm l k : Permutation l k -> NoDup (ids l) -> NoDup (ids k).
Proof. intros Hp. unfold ids. by rewrite Hp. Qed.

Lemma remove_first_sort_from h l acc :
  StronglySorted by_priority acc -> NoDup (ids (acc ++ l)) ->
  remove_first h (fold_left (fun a x => insert_by_priority x a) l acc) =
  fold_left (fun a x => insert_by_priority x a) (remove_first h l) (remove_first h acc).
Proof.
  revert acc. induction l as [|x r IH]; simpl; intros acc Hs Hnd; [done|].
  assert (Hnd' : NoDup (ids (insert_by_priority x acc ++ r))).
  { eapply nodup_ids_perm; [|exact Hnd].
    rewrite insert_by_priority_perm. simpl. symmetry. apply Permutation_middle. }
  rewrite IH; [|by apply insert_by_priority_sorted|done].
  unfold ids in Hnd. rewrite fmap_app, fmap_cons in Hnd.
  apply NoDup_app in Hnd as (Hacc & Hdisj & Hxr). apply NoDup_cons in Hxr as [Hx Hr].
  rewrite equals_spec. case_bool_decide as Hh.
  - rewrite remove_first_insert_same; [|done|].
    + rewrite (remove_first_fresh h r); [|by rewrite <- Hh].
      rewrite (remove_first_fresh h acc); [done|].
      intros Hin. apply (Hdisj _ Hin). rewrite Hh. constructor.
    + intros Hin. apply (Hdisj _ Hin). rewrite Hh. constructor.
  - simpl. by rewrite remove_first_insert_other.
Qed.

Lemma remove_first_sort h l :
  NoDup (ids l) -> remove_first h (sort l) = sort (remove_first h l).
Proof. intros Hnd. apply (remove_first_sort_from h l []); [constructor|done]. Qed.

Lemma ids_unique l a b :
  NoDup (ids l) -> a ∈ l -> b ∈ l -> handler a = handler b -> a = b.
Proof.
  induction l as [|y r IH]; simpl; [by intros _ ?%elem_of_nil|].
  intros Hnd Ha Hb Hab. apply NoDup_cons in Hnd as [Hy Hnd].
  apply elem_of_cons in Ha as [->|Ha]; apply elem_of_cons in Hb as [->|Hb]; auto.
  - exfalso. apply Hy. rewrite Hab. by apply list_elem_of_fmap_2.
  - exfalso. apply Hy. rewrite <- Hab. by apply list_elem_of_fmap_2.
Qed.

Lemma connect_fresh s h p :
  StronglySorted by_priority (handlers s) ->
  List.find (fun it => equals it h) (handlers s) = None ->
  handlers (connect s h p) = insert_by_priority (mkHandler h p) (handlers s).
Proof.
  intros Hs Hf. unfold connect. rewrite Hf. simpl.
  destruct (last (handlers s)) as [l|] eqn:Hl.
  - destruct (Z.ltb_spec p (priority l)) as [Hlt|Hge].
    + rewrite sort_snoc. by rewrite sort_already.
    + rewrite insert_by_priority_last; [done|].
      eapply Forall_impl; [by apply (sorted_last_bound _ l)|].
      unfold by_priority. intros; simpl in *; lia.
  - apply last_None in Hl. rewrite Hl. done.
Qed.

Lemma run_snoc cs c : run (cs ++ [c]) = call (run cs) c.
Proof. unfold run. by rewrite fold_left_app. Qed.

Lemma connected_snoc cs c : connected (cs ++ [c]) = connected_step (connected cs) c.
Proof. unfold connected. by rewrite fold_left_app. Qed.

Lemma keeps_priorities_from_snoc l cs c :
  keeps_priorities_from l (cs ++ [c]) <->
  keeps_priorities_from l cs /\ keeps_priorities_from (fold_left connected_step cs l) [c].
Proof.
  revert l. induction cs as [|d cs IH]; simpl; intros l.
  - tauto.
  - rewrite IH. simpl. tauto.
Qed.

(** The handler array is always sorted by priority, holds each connected
    handler once, and holds exactly the connected handlers. *)
Lemma run_invariant cs :
  StronglySorted by_priority (handlers (run cs)) /\
  NoDup (ids (handlers (run cs))) /\
  Permutation (handlers (run cs)) (connected cs).
Proof.
  induction cs as [|c cs IH] using rev_ind.
  - repeat split; constructor.
  - rewrite run_snoc, connected_snoc. destruct IH as (Hs & Hnd & Hp).
    assert (HndS : NoDup (ids (connected cs))).
    { by eapply nodup_ids_perm. }
    destruct c as [h p|h]; simpl.
    + rewrite existsb_ids.
      destruct (List.find (fun it => equals it h) (handlers (run cs))) as [ex|] eqn:Hf.
      * apply find_some_ids in Hf as Hex. destruct Hex as [Hin Hh].
        assert (HinS : h ∈ ids (connected cs)).
        { unfold ids. rewrite <- Hp, <- Hh. by apply list_elem_of_fmap_2. }
        rewrite (bool_decide_eq_true_2 _ HinS).
        unfold connect. rewrite Hf. simpl.
        assert (Hperm : Permutation (set_priority h p (handlers (run cs)))
                                    (set_priority h p (connected cs))).
        { rewrite !set_priority_map by done. by apply fmap_Permutation. }
        destruct (Z.eqb_spec (priority ex) p) as [Hpe|Hpne]; simpl.
        -- assert (Hsame : set_priority h p (handlers (run cs)) = handlers (run cs)).
           { apply set_priority_same. intros it Hit Hith.
             rewrite (ids_unique _ it ex Hnd Hit Hin); [done|congruence]. }
           split; [by rewrite Hsame|]. split; [by rewrite set_priority_ids|done].
        -- split; [apply sort_sorted|]. split.
           ++ eapply nodup_ids_perm; [symmetry; apply sort_perm|].
              by rewrite set_priority_ids.
           ++ by rewrite sort_perm.
      * apply find_none_ids in Hf as Hfresh.
        assert (HfreshS : h ∉ ids (connected cs)).
        { unfold ids. by rewrite <- Hp. }
        rewrite (bool_decide_eq_false_2 _ HfreshS).
        rewrite connect_fresh by done.
        split; [by apply insert_by_priority_sorted|]. split.
        -- eapply nodup_ids_perm; [symmetry; apply insert_by_priority_perm|].
           simpl. by apply NoDup_cons.
        -- rewrite insert_by_priority_perm, Hp. apply Permutation_cons_append.
    + split; [by apply remove_first_sorted|]. split; [by apply remove_first_nodup|].
      rewrite !remove_first_filter by done. by rewrite Hp.
Qed.

(** Without re-prioritisation, the array is the stable sort of the handlers
    in connection order. *)
Lemma run_connection_order cs :
  keeps_priorities cs -> handlers (run cs) = sort (connected cs).
Proof.
  induction cs as [|c cs IH] using rev_ind; [done|].
  unfold keeps_priorities. rewrite keeps_priorities_from_snoc. intros [Hk Hc].
  specialize (IH Hk). fold (connected cs) in Hc.
  destruct (run_invariant cs) as (Hs & Hnd & Hp).
  assert (HndS : NoDup (ids (connected cs))).
  { by eapply nodup_ids_perm. }
  rewrite run_snoc, connected_snoc.
  destruct c as [h p|h]; simpl in *.
  - rewrite existsb_ids. destruct Hc as [Hc _].
    destruct (List.find (fun it => equals it h) (connected cs)) as [it|] eqn:Hf.
    + apply find_some_ids in Hf as [Hin Hh].
      assert (HinS : h ∈ ids (connected cs)).
      { rewrite <- Hh. by apply list_elem_of_fmap_2. }
      rewrite (bool_decide_eq_true_2 _ HinS).
      assert (Hall : forall l, Permutation l (connected cs) ->
                forall it', it' ∈ l -> handler it' = h -> priority it' = p).
      { intros l Hl it' Hit' Hh'. rewrite Hl in Hit'.
        rewrite (ids_unique _ it' it HndS Hit' Hin); [done|congruence]. }
      rewrite (set_priority_same h p (connected cs)) by (by apply Hall).
      unfold connect.
      destruct (List.find (fun it => equals it h) (handlers (run cs))) as [ex|] eqn:Hf'.
      * apply find_some_ids in Hf' as [Hin' Hh'].
        rewrite (Hall _ Hp ex Hin' Hh'). rewrite Z.eqb_refl. simpl.
        rewrite (set_priority_same h p (handlers (run cs))) by (by apply Hall).
        by rewrite IH.
      * apply find_none_ids in Hf'. exfalso. apply Hf'. unfold ids. by rewrite Hp.
    + apply find_none_ids in Hf as HfreshS.
      rewrite (bool_decide_eq_false_2 _ HfreshS).
      rewrite connect_fresh; [|done|].
      * by rewrite sort_snoc, IH.
      * apply find_none_ids. unfold ids. by rewrite Hp.
  - rewrite IH. by apply remove_first_sort.
Qed.

End SignalFacts.

(** * Properties of entities *)

Lemma heap_eta h :
  mkHeap (componentIds h) (componentClassId h) (NumberComponents h)
         (next_prop h) (list_head h) (list_count h) (builders h) (builder_count h) = h.
Proof. by destruct h. Qed.


Lemma getComponentId_known K b h i :
  componentIds h !! class_name K = Some i ->
  ComponentId.getComponentId K b h = (Some i, h).
Proof. intros H. unfold ComponentId.getComponentId. by rewrite H. Qed.

Lemma getComponentId_unknown K h :
  componentIds h !! class_name K = None ->
  ComponentId.getComponentId K false h = (None, h).
Proof. intros H. unfold ComponentId.getComponentId. by rewrite H. Qed.

Lemma getComponentId_read K h :
  ComponentId.getComponentId K false h = (componentIds h !! class_name K, h).
Proof. unfold ComponentId.getComponentId. by destruct (componentIds h !! class_name K). Qed.

Lemma invoke_record calls (s : St Trace) :
  Entity.invoke record calls s = Ok tt (mkSt (heap s) (this s) (ext s ++ calls)).
Proof.
  revert s. induction calls as [|[f ev] r IH]; intros s; simpl.
  - rewrite app_nil_r. by destruct s.
  - unfold bind. simpl. rewrite IH. simpl. by rewrite <- app_assoc.
Qed.

Lemma dispatchOnComponentAdded_record i (s : St Trace) :
  Entity.dispatchOnComponentAdded record i s =
  Ok tt (mkSt (heap s) (this s)
           (ext s ++ Signal.emit (onComponentAdded (this s)) (EvAdded i))).
Proof.
  unfold Entity.dispatchOnComponentAdded, bind, getThis.
  destruct (Signal.hasHandlers (onComponentAdded (this s))) eqn:Hh.
  - apply invoke_record.
  - unfold Signal.hasHandlers, Signal.emit in *.
    destruct (Signal.handlers (onComponentAdded (this s))); [|done].
    simpl. rewrite app_nil_r. by destruct s.
Qed.

Lemma dispatchOnComponentRemoved_record i (s : St Trace) :
  Entity.dispatchOnComponentRemoved record i s =
  Ok tt (mkSt (heap s) (this s)
           (ext s ++ Signal.emit (onComponentRemoved (this s)) (EvRemoved i))).
Proof.
  unfold Entity.dispatchOnComponentRemoved, bind, getThis.
  destruct (Signal.hasHandlers (onComponentRemoved (this s))) eqn:Hh.
  - apply invoke_record.
  - unfold Signal.hasHandlers, Signal.emit in *.
    destruct (Signal.handlers (onComponentRemoved (this s))); [|done].
    simpl. rewrite app_nil_r. by destruct s.
Qed.

(** An emission invokes each connected handler once, in order. *)
Lemma emit_invocations (sig : Signal.Signal) (ev : Event) :
  Signal.emit sig ev = invocations sig ev.
Proof. unfold Signal.emit, invocations, ids. by rewrite map_map. Qed.

Lemma isLinkedComponent_false h c :
  isLinkedComponent h c = false <-> next_prop h !! c = None.
Proof.
  unfold isLinkedComponent. rewrite bool_decide_eq_false.
  rewrite <- eq_None_not_Some. done.
Qed.

Lemma isLinkedComponent_true h c :
  isLinkedComponent h c = true <-> is_Some (next_prop h !! c).
Proof. unfold isLinkedComponent. by rewrite bool_decide_eq_true. Qed.

(** C9: when the instance [c] is not a linked component and is already
    the instance stored for its resolved type, [add(c)] changes nothing:
    the components, the linked lists, the tags and the store are as before
    and no listener of [onComponentAdded] or [onComponentRemoved] is
    invoked. *)
Theorem add_same_instance_noop fuel (h : Heap) (e : Entity) (x : Trace)
  (c : Component) (resolveClass : option Class) (K : Class) (i : nat) :
  ComponentId.getComponentClass c resolveClass = inr K ->
  componentIds h !! class_name K = Some i ->
  _components e !! i = Some c ->
  isLinkedComponent h c = false ->
  Entity.add record fuel (IComp c) resolveClass (mkSt h e x) = Ok tt (mkSt h e x).
Proof.
  intros HK Hid Hslot Hlinked.
  unfold Entity.add, Entity.addComponent.
  rewrite HK. unfold bind, orThrow, ret, onHeap, getHeap, getThis. simpl.
  rewrite (getComponentId_known K true h i Hid). simpl.
  rewrite Hslot, Hlinked. simpl.
  by rewrite bool_decide_eq_true_2.
Qed.

Lemma removeComponent_unlinked fuel (h : Heap) (e : Entity) (x : Trace) K i value :
  componentIds h !! class_name K = Some i ->
  _components e !! i = Some value ->
  isLinkedComponent h value = false ->
  Entity.removeComponent record fuel K (mkSt h e x) =
  Ok (Some value)
     (mkSt h (set_components (delete i (_components e)) e)
        (x ++ Signal.emit (onComponentRemoved e) (EvRemoved (IComp value)))).
Proof.
  intros Hid Hslot Hl.
  destruct fuel; simpl; unfold bind, getThis, getHeap; simpl;
    rewrite getComponentId_read, Hid; simpl; rewrite Hslot, Hl;
    unfold bind, Entity.setComponent, getThis, setThis, bind; simpl;
    rewrite dispatchOnComponentRemoved_record; done.
Qed.

Lemma addComponent_replaces fuel (h : Heap) (e : Entity) (x : Trace)
  (stored c : Component) (resolveClass : option Class) (K : Class) (i : nat) :
  ComponentId.getComponentClass c resolveClass = inr K ->
  componentIds h !! class_name K = Some i ->
  _components e !! i = Some stored ->
  c <> stored ->
  isLinkedComponent h stored = false ->
  isLinkedComponent h c = false ->
  Entity.add record fuel (IComp c) resolveClass (mkSt h e x) =
    Ok tt (mkSt h (set_components (<[i := c]> (_components e)) e)
             (x ++ Signal.emit (onComponentRemoved e) (EvRemoved (IComp stored))
                ++ Signal.emit (onComponentAdded e) (EvAdded (IComp c)))).
Proof.
  intros HK Hid Hslot Hne Hls Hlc.
  unfold Entity.add, Entity.addComponent.
  rewrite HK. unfold bind at 1 2 3 4. unfold orThrow, ret, onHeap, getHeap, getThis. simpl.
  rewrite (getComponentId_known K true h i Hid). simpl.
  rewrite Hslot, Hlc. simpl.
  rewrite bool_decide_eq_false_2 by done.
  unfold bind at 1 2. unfold Entity.remove, Entity.remove_with.
  unfold bind at 1. unfold Entity.bumpNumberComponents, bind, getHeap, setHeap. simpl.
  rewrite (removeComponent_unlinked fuel _ e x K i stored); [|done|done|done].
  simpl. unfold Entity.setComponent, getThis, setThis. simpl.
  rewrite dispatchOnComponentAdded_record. simpl.
  unfold set_components, set_NumberComponents. simpl.
  rewrite insert_delete_eq. rewrite <- app_assoc.
  replace (NumberComponents h + -1 + 1)%Z with (NumberComponents h) by lia.
  by rewrite heap_eta.
Qed.

(** C5: for a type that is not a linked component, adding a second,
    different instance of the same resolved type to an entity that holds
    one fires one removed event for the old instance and then one added
    event for the new one: every listener connected to [onComponentRemoved]
    is invoked once with the old instance, then every listener connected to
    [onComponentAdded] once with the new one, and no listener is invoked
    besides; afterwards [get] of the type returns the second instance, and
    not the first. *)
Theorem add_replaces_instance fuel (h : Heap) (e : Entity) (x : Trace)
  (stored c : Component) (resolveClass : option Class) (K : Class) (i : nat) :
  ComponentId.getComponentClass c resolveClass = inr K ->
  componentIds h !! class_name K = Some i ->
  _components e !! i = Some stored ->
  c <> stored ->
  isLinkedComponent h stored = false ->
  isLinkedComponent h c = false ->
  let e' := set_components (<[i := c]> (_components e)) e in
  Entity.add record fuel (IComp c) resolveClass (mkSt h e x) =
    Ok tt (mkSt h e'
             (x ++ map (fun f => (f, EvRemoved (IComp stored)))
                       (ids (Signal.handlers (onComponentRemoved e)))
                ++ map (fun f => (f, EvAdded (IComp c)))
                       (ids (Signal.handlers (onComponentAdded e))))) /\
  Entity.get h e' K = Some c /\
  Entity.get h e' K <> Some stored.
Proof.
  intros HK Hid Hslot Hne Hls Hlc e'.
  assert (Hget : Entity.get h e' K = Some c).
  { unfold Entity.get. rewrite getComponentId_read, Hid. simpl. apply lookup_insert_eq. }
  split; [|split; [done|congruence]].
  rewrite (addComponent_replaces fuel h e x stored c resolveClass K i) by done.
  by rewrite !emit_invocations.
Qed.

(** ** Linked lists *)

Lemma chain_next_prop h h' o l :
  next_prop h = next_prop h' -> chain h o l -> chain h' o l.
Proof.
  intros Hn Hc. induction Hc as [|c l Hc IH]; constructor.
  unfold next_of in *. by rewrite <- Hn.
Qed.

Lemma chain_functional h o l l' : chain h o l -> chain h o l' -> l = l'.
Proof.
  intros Hc. revert l'. induction Hc as [|c l Hc IH]; intros l' Hc'; inversion Hc'; subst; [done|].
  f_equal. by apply IH.
Qed.

Lemma chain_head h o l : chain h o l -> head l = o.
Proof. by destruct 1. Qed.

Lemma chain_tail h c l : chain h (Some c) (c :: l) -> next_of h c = head l /\ chain h (head l) l.
Proof.
  intros Hc. inversion Hc as [|? ? Hc']; subst.
  split; [by rewrite (chain_head _ _ _ Hc')|]. by rewrite (chain_head _ _ _ Hc').
Qed.

Lemma list_head_set_head L o h : list_head (set_head L o h) !! L = o.
Proof.
  destruct o; simpl; [apply lookup_insert_eq|apply lookup_delete_eq].
Qed.

Lemma hasComponent_slot h e K i c :
  componentIds h !! class_name K = Some i -> _components e !! i = Some c ->
  Entity.hasComponent h e K = true.
Proof.
  intros Hid Hs. unfold Entity.hasComponent. rewrite getComponentId_read, Hid. simpl.
  rewrite Hs. by apply bool_decide_eq_true_2.
Qed.

Lemma getComponentClass_instance c K :
  instanceOf c K = true -> ComponentId.getComponentClass c (Some K) = inr K.
Proof. intros H. unfold ComponentId.getComponentClass. by rewrite H. Qed.

Lemma find_at_head fuel c prev h :
  LinkedComponentList.find fuel c prev (Some c) h = Some (prev, Some c).
Proof. destruct fuel; simpl; by rewrite decide_True. Qed.

Lemma withdraw_head rc fuel (h : Heap) (e : Entity) (x : Trace) K i L c l :
  holds_list h e K i L (c :: l) ->
  Entity.withdraw_with record rc fuel K (mkSt h e x) =
  Ok (Some c)
     (mkSt (set_head L (head l) h) (withdrawn e i l)
        (x ++ Signal.emit (onComponentRemoved e) (EvRemoved (IComp c)))).
Proof.
  intros [Hid Hlist Hslot Hchain Hlinked Hclass]. simpl in Hslot.
  apply Forall_cons in Hlinked as [Hlc _]. apply Forall_cons in Hclass as [Hcc _].
  apply chain_head in Hchain as Hhead. simpl in Hhead.
  rewrite <- Hhead in Hchain. apply chain_tail in Hchain as [Hnext Hrest].
  unfold Entity.withdraw_with. unfold bind at 1 2. unfold getThis, getHeap. simpl.
  unfold Entity.get. rewrite getComponentId_read, Hid. simpl. rewrite Hslot.
  unfold Entity.withdrawComponent_with.
  rewrite (getComponentClass_instance c K Hcc).
  unfold bind at 1 2. unfold orThrow, ret, getHeap. simpl. rewrite Hlc. simpl.
  unfold bind at 1. unfold onHeap. simpl. rewrite getComponentId_read, Hid.
  unfold bind at 1. unfold Entity.getLinkedComponentList, bind at 1, getThis. simpl.
  rewrite Hlist. unfold ret, bind at 1 2. simpl.
  rewrite (hasComponent_slot h e K i c Hid Hslot). simpl.
  unfold bind at 1. unfold onHeapRes. simpl.
  unfold LinkedComponentList.remove, LinkedComponentList.head. rewrite <- Hhead.
  rewrite find_at_head. rewrite Hnext.
  unfold bind at 1. unfold onHeap. simpl.
  rewrite (getComponentId_known K true _ i) by (by destruct (head l)).
  unfold bind at 1. unfold getHeap. simpl.
  unfold LinkedComponentList.isEmpty, LinkedComponentList.head.
  rewrite list_head_set_head.
  destruct l as [|c' l']; simpl.
  - unfold bind, Entity.setComponent, getThis, setThis, bind. simpl.
    rewrite dispatchOnComponentRemoved_record. done.
  - unfold bind, Entity.setComponent, getThis, setThis, bind. simpl.
    rewrite lookup_insert_eq.
    rewrite dispatchOnComponentRemoved_record. done.
Qed.

Lemma holds_list_withdrawn h e K i L c c' l :
  holds_list h e K i L (c :: c' :: l) ->
  holds_list (set_head L (Some c') h) (withdrawn e i (c' :: l)) K i L (c' :: l).
Proof.
  intros [Hid Hlist Hslot Hchain Hlinked Hclass].
  apply chain_head in Hchain as Hhead. simpl in Hhead.
  rewrite <- Hhead in Hchain. apply chain_tail in Hchain as [Hnext Hrest].
  split; simpl.
  - done.
  - done.
  - apply lookup_insert_eq.
  - rewrite lookup_insert_eq. eapply chain_next_prop; [|exact Hrest]. done.
  - by apply Forall_cons in Hlinked as [_ ?].
  - by apply Forall_cons in Hclass as [_ ?].
Qed.

Lemma set_head_set_head L o o' h : set_head L o (set_head L o' h) = set_head L o h.
Proof.
  unfold set_head. simpl. f_equal.
  destruct o, o'; simpl.
  - apply insert_insert_eq.
  - apply insert_delete_eq.
  - apply delete_insert_eq.
  - apply delete_delete_eq.
Qed.

Lemma withdrawn_withdrawn e i c l l' :
  withdrawn (withdrawn e i (c :: l)) i l' = withdrawn e i l'.
Proof.
  destruct l' as [|c' l'']; unfold withdrawn, set_components, set_linkedComponents; simpl.
  - by rewrite delete_insert_eq.
  - by rewrite insert_insert_eq.
Qed.

Lemma onComponentRemoved_withdrawn e i l :
  onComponentRemoved (withdrawn e i l) = onComponentRemoved e.
Proof. by destruct l. Qed.

Lemma withdraw_loop rc f n K i L l : forall c h e (x : Trace),
  holds_list h e K i L (c :: l) ->
  length (c :: l) <= n ->
  Entity.while_not_empty n L (Entity.withdraw_with record rc f K) (mkSt h e x) =
  Ok tt (mkSt (set_head L None h) (withdrawn e i []) (x ++ removed_events e (c :: l))).
Proof.
  revert n. induction l as [|c' l IH]; intros n c h e x Hh Hn.
  - destruct n as [|n]; [simpl in Hn; lia|]. simpl.
    unfold LinkedComponentList.isEmpty, LinkedComponentList.head.
    rewrite <- (chain_head _ _ _ (hl_chain _ _ _ _ _ _ Hh)). simpl.
    unfold bind. rewrite (withdraw_head rc f h e x K i L c []) by done. simpl.
    destruct n; simpl; unfold LinkedComponentList.isEmpty, LinkedComponentList.head; simpl;
      rewrite lookup_delete_eq; by rewrite app_nil_r.
  - destruct n as [|n]; [simpl in Hn; lia|].
    cbn [Entity.while_not_empty].
    unfold LinkedComponentList.isEmpty, LinkedComponentList.head. cbn [heap].
    rewrite <- (chain_head _ _ _ (hl_chain _ _ _ _ _ _ Hh)). cbn [head].
    unfold bind. rewrite (withdraw_head rc f h e x K i L c (c' :: l)) by done.
    cbn [head].
    rewrite (IH n c' _ _ _ (holds_list_withdrawn _ _ _ _ _ _ _ _ Hh)); [|simpl in *; lia].
    rewrite set_head_set_head, withdrawn_withdrawn.
    unfold removed_events. cbn [flat_map]. rewrite onComponentRemoved_withdrawn.
    by rewrite <- app_assoc.
Qed.

Lemma removeComponent_linked fuel (h : Heap) (e : Entity) (x : Trace) K i L c l :
  holds_list h e K i L (c :: l) ->
  length (c :: l) < fuel ->
  Entity.removeComponent record fuel K (mkSt h e x) =
  Ok (Some c)
     (mkSt (set_head L None h) (withdrawn e i []) (x ++ removed_events e (c :: l))).
Proof.
  intros Hh Hf. destruct fuel as [|f]; [lia|].
  pose proof Hh as [Hid Hlist Hslot Hchain Hlinked Hclass]. simpl in Hslot.
  apply Forall_cons in Hlinked as [Hlc _].
  cbn [Entity.removeComponent]. unfold bind at 1 2. unfold getThis, getHeap. cbn [heap this].
  rewrite getComponentId_read, Hid. cbn [fst]. rewrite Hslot, Hlc.
  unfold bind at 1. unfold Entity.getLinkedComponentList, bind at 1, getThis. cbn [this].
  rewrite Hlist. unfold ret at 1. unfold bind at 1.
  rewrite (withdraw_loop _ f f K i L l c h e x Hh); [done|lia].
Qed.

Lemma chain_suffix h o l :
  chain h o l -> forall c l1 l2, l = l1 ++ c :: l2 -> chain h (Some c) (c :: l2).
Proof.
  induction 1 as [|d l Hc IH]; intros c l1 l2 Heq.
  - by destruct l1.
  - destruct l1 as [|d' l1]; simpl in Heq; injection Heq as -> ->.
    + by constructor.
    + by eapply IH.
Qed.

Lemma chain_NoDup h o l : chain h o l -> NoDup l.
Proof.
  induction 1 as [|c l Hc IH]; constructor; [|done].
  intros Hin. apply list_elem_of_split in Hin as (l1 & l2 & ->).
  pose proof (chain_suffix _ _ _ Hc c l1 l2 eq_refl) as Hc'.
  pose proof (chain_functional _ _ _ _ (chain_step _ _ _ Hc) Hc') as Heq.
  apply (f_equal length) in Heq. simpl in Heq. rewrite length_app in Heq. simpl in Heq. lia.
Qed.

Lemma next_of_set_next_ne h p v d : d <> p -> next_of (set_next p v h) d = next_of h d.
Proof. intros Hne. unfold next_of. simpl. by rewrite lookup_insert_ne. Qed.

Lemma next_of_set_next_eq h p v : next_of (set_next p v h) p = v.
Proof. unfold next_of. simpl. by rewrite lookup_insert_eq. Qed.

Lemma chain_frame h p v o l : p ∉ l -> chain h o l -> chain (set_next p v h) o l.
Proof.
  intros Hp Hc. induction Hc as [|c l Hc IH]; constructor.
  apply not_elem_of_cons in Hp as [Hne Hp].
  rewrite next_of_set_next_ne by done. by apply IH.
Qed.

Lemma chain_snoc h o l p c :
  chain h o l -> last l = Some p -> c ∉ l -> next_of h c = None ->
  chain (set_next p (Some c) h) o (l ++ [c]).
Proof.
  intros Hc. pose proof (chain_NoDup _ _ _ Hc) as Hnd.
  induction Hc as [|d l Hc IH]; intros Hl Hcl Hnc; [done|].
  apply NoDup_cons in Hnd as [Hd Hnd]. apply not_elem_of_cons in Hcl as [Hcd Hcl].
  simpl. constructor. destruct l as [|d' l'].
  - simpl in Hl. injection Hl as <-. rewrite next_of_set_next_eq. simpl.
    constructor. rewrite next_of_set_next_ne by done. rewrite Hnc. constructor.
  - assert (Hl' : last (d' :: l') = Some p) by exact Hl.
    assert (d <> p).
    { intros ->. apply Hd. by apply last_Some_elem_of. }
    rewrite next_of_set_next_ne by done. by apply IH.
Qed.

Lemma add_loop_absent h c : forall fuel l o prev,
  chain h o l -> c ∉ l -> length l <= fuel ->
  LinkedComponentList.add_loop fuel c prev o h =
  Ok (match last l with Some p => Some p | None => prev end) h.
Proof.
  induction fuel as [|f IH]; intros l o prev Hc Hcl Hlen.
  - destruct Hc; [done|simpl in Hlen; lia].
  - destruct Hc as [|d l Hc]; [done|].
    apply not_elem_of_cons in Hcl as [Hcd Hcl]. simpl.
    rewrite decide_False by done.
    rewrite (IH l _ (Some d) Hc Hcl); [|simpl in Hlen; lia].
    destruct l as [|d' l']; [done|]. rewrite last_cons_cons.
    destruct (last (d' :: l')) eqn:E; [done|]. by apply last_None in E.
Qed.

Lemma add_loop_present h c : forall fuel l o prev,
  chain h o l -> c ∈ l -> length l <= fuel ->
  LinkedComponentList.add_loop fuel c prev o h = Throw DuplicateAppend h.
Proof.
  induction fuel as [|f IH]; intros l o prev Hc Hcl Hlen.
  - destruct Hc; [by apply elem_of_nil in Hcl|simpl in Hlen; lia].
  - destruct Hc as [|d l Hc]; [by apply elem_of_nil in Hcl|]. simpl.
    destruct (decide (d = c)) as [|Hne]; [done|].
    apply elem_of_cons in Hcl as [->|Hcl]; [done|].
    apply (IH l _ (Some d) Hc Hcl). simpl in Hlen; lia.
Qed.

Lemma list_add_absent h L c l fuel :
  chain h (list_head h !! L) l -> c ∉ l -> length l <= fuel ->
  LinkedComponentList.add fuel L c h =
  Ok tt (match last l with
         | Some p => set_next p (Some c) h
         | None => set_head L (Some c) h
         end).
Proof.
  intros Hc Hcl Hlen. unfold LinkedComponentList.add, LinkedComponentList.head.
  rewrite (add_loop_absent h c fuel l _ None Hc Hcl Hlen).
  destruct Hc as [|d l Hc]; [done|].
  destruct (last (d :: l)) eqn:E; [done|]. by apply last_None in E.
Qed.

Lemma list_add_present h L c l fuel :
  chain h (list_head h !! L) l -> c ∈ l -> length l <= fuel ->
  LinkedComponentList.add fuel L c h = Throw DuplicateAppend h.
Proof.
  intros Hc Hcl Hlen. unfold LinkedComponentList.add, LinkedComponentList.head.
  by rewrite (add_loop_present h c fuel l _ None Hc Hcl Hlen).
Qed.

Lemma instanceOf_own c : instanceOf c (comp_class c) = true.
Proof. unfold instanceOf. apply bool_decide_eq_true_2. constructor. Qed.

Lemma isLinkedComponent_set_next h p v d :
  isLinkedComponent h d = true -> isLinkedComponent (set_next p v h) d = true.
Proof.
  rewrite !isLinkedComponent_true. simpl. intros Hd.
  destruct (decide (p = d)) as [->|Hne].
  - rewrite lookup_insert_eq. eauto.
  - by rewrite lookup_insert_ne.
Qed.

Lemma appendComponent_existing_eq fuel (h : Heap) (e : Entity) (x : Trace) c rc K i L :
  ComponentId.getComponentClass c rc = inr K ->
  componentIds h !! class_name K = Some i ->
  _linkedComponents e !! i = Some L ->
  Entity.appendComponent record fuel c rc (mkSt h e x) =
  match LinkedComponentList.add fuel L c h with
  | Ok _ h' =>
      Ok tt (mkSt h'
               (match _components e !! i with
                | Some _ => e
                | None => set_components
                            (match list_head h' !! L with
                             | Some d => <[i := d]> (_components e)
                             | None => delete i (_components e)
                             end) e
                end)
               (x ++ Signal.emit (onComponentAdded e) (EvAdded (IComp c))))
  | Throw err h' => Throw err (mkSt h' e x)
  | OutOfFuel => OutOfFuel
  end.
Proof.
  intros HK Hid Hlist.
  unfold Entity.appendComponent. rewrite HK.
  unfold bind at 1 2. unfold orThrow, ret at 1, onHeap. cbn [heap this ext].
  rewrite (getComponentId_known K true h i Hid).
  unfold bind at 1. unfold Entity.getLinkedComponentList, bind at 1, getThis. cbn [this].
  rewrite Hlist. unfold ret at 1. unfold bind at 1, onHeapRes. cbn [heap this ext].
  destruct (LinkedComponentList.add fuel L c h) as [[] h'|err h'|]; [|done|done].
  unfold bind at 1 2 3. unfold getThis, getHeap. cbn [heap this ext].
  unfold LinkedComponentList.head.
  destruct (_components e !! i) as [d|] eqn:Hslot.
  - unfold ret at 1. rewrite dispatchOnComponentAdded_record. done.
  - unfold Entity.setComponent, bind at 1, getThis, setThis. cbn [heap this ext].
    rewrite dispatchOnComponentAdded_record. done.
Qed.

(** Appending to an entity that already has a list for the class. *)
Lemma append_existing fuel (h : Heap) (e : Entity) (x : Trace) c rc K i L l :
  ComponentId.getComponentClass c rc = inr K ->
  componentIds h !! class_name K = Some i ->
  _linkedComponents e !! i = Some L ->
  chain h (list_head h !! L) l ->
  length l <= fuel ->
  (c ∈ l ->
   Entity.appendComponent record fuel c rc (mkSt h e x) = Throw DuplicateAppend (mkSt h e x)) /\
  (c ∉ l ->
   let h' := match last l with
             | Some p => set_next p (Some c) h
             | None => set_head L (Some c) h
             end in
   let e' := match _components e !! i with
             | Some _ => e
             | None => set_components
                         (match list_head h' !! L with
                          | Some d => <[i := d]> (_components e)
                          | None => delete i (_components e)
                          end) e
             end in
   Entity.appendComponent record fuel c rc (mkSt h e x) =
   Ok tt (mkSt h' e' (x ++ Signal.emit (onComponentAdded e) (EvAdded (IComp c))))).
Proof.
  intros HK Hid Hlist Hchain Hlen.
  rewrite (appendComponent_existing_eq fuel h e x c rc K i L HK Hid Hlist).
  split; intros Hc.
  - by rewrite (list_add_present h L c l fuel Hchain Hc Hlen).
  - by rewrite (list_add_absent h L c l fuel Hchain Hc Hlen).
Qed.

Lemma add_loop_empty fuel c prev h :
  LinkedComponentList.add_loop fuel c prev None h = Ok prev h.
Proof. by destruct fuel. Qed.

Lemma getComponentId_create K h :
  exists i h', ComponentId.getComponentId K true h = (Some i, h') /\
    i = default (componentClassId h) (componentIds h !! class_name K) /\
    componentIds h' !! class_name K = Some i /\
    next_prop h' = next_prop h /\ list_head h' = list_head h /\
    list_count h' = list_count h /\
    (is_Some (componentIds h !! class_name K) -> h' = h).
Proof.
  unfold ComponentId.getComponentId.
  destruct (componentIds h !! class_name K) as [i|] eqn:Hid.
  - exists i, h. by repeat split.
  - eexists _, _. split; [done|]. simpl. rewrite lookup_insert_eq.
    repeat split. by intros [? ?].
Qed.

(** Appending when the entity has no list for the class: a list is
    allocated and the instance becomes its head. *)
Lemma appendComponent_new_eq fuel (h : Heap) (e : Entity) (x : Trace) c rc K i h0 :
  ComponentId.getComponentClass c rc = inr K ->
  ComponentId.getComponentId K true h = (Some i, h0) ->
  _linkedComponents e !! i = None ->
  let L := list_count h0 in
  let h' := set_head L (Some c) (snd (alloc_list h0)) in
  let e1 := set_linkedComponents (<[i := L]> (_linkedComponents e)) e in
  let e' := match _components e !! i with
            | Some _ => e1
            | None => set_components (<[i := c]> (_components e)) e1
            end in
  Entity.appendComponent record fuel c rc (mkSt h e x) =
  Ok tt (mkSt h' e' (x ++ Signal.emit (onComponentAdded e) (EvAdded (IComp c)))).
Proof.
  intros HK Hid Hlist L h' e1 e'.
  unfold Entity.appendComponent. rewrite HK.
  unfold bind at 1 2. unfold orThrow, ret at 1, onHeap. cbn [heap this ext].
  rewrite Hid.
  unfold bind at 1. unfold Entity.getLinkedComponentList, bind at 1, getThis. cbn [this].
  rewrite Hlist. unfold bind at 1 2 3. unfold onHeap, getThis, setThis, ret. cbn [heap this ext alloc_list].
  unfold bind at 1, onHeapRes. cbn [heap this ext].
  unfold LinkedComponentList.add, LinkedComponentList.head. cbn [list_head].
  rewrite lookup_delete_eq. rewrite add_loop_empty. cbn [list_head]. rewrite lookup_delete_eq.
  unfold bind at 1 2 3. unfold getThis, getHeap. cbn [heap this ext].
  unfold LinkedComponentList.head. cbn [_components set_linkedComponents].
  unfold e', e1, h', L. cbn [alloc_list snd].
  destruct (_components e !! i) as [d|] eqn:Hslot.
  - rewrite dispatchOnComponentAdded_record. done.
  - unfold Entity.setComponent, bind at 1, getThis, setThis. cbn [heap this ext].
    rewrite list_head_set_head.
    rewrite dispatchOnComponentAdded_record. done.
Qed.


Lemma append_more fuel (h : Heap) (e : Entity) (x : Trace) c K i L l :
  holds_list h e K i L l -> l <> [] -> c ∉ l ->
  comp_class c = K ->
  isLinkedComponent h c = true ->
  next_of h c = None ->
  length l <= fuel ->
  exists p,
    last l = Some p /\
    Entity.appendComponent record fuel c None (mkSt h e x) =
      Ok tt (mkSt (set_next p (Some c) h) e
               (x ++ Signal.emit (onComponentAdded e) (EvAdded (IComp c)))) /\
    holds_list (set_next p (Some c) h) e K i L (l ++ [c]).
Proof.
  intros Hh Hne Hcl HK Hlinked Hnext Hlen.
  pose proof Hh as [Hid Hlist Hslot Hchain Hlk Hcls].
  destruct (last l) as [p|] eqn:Hlast; [|by apply last_None in Hlast].
  exists p. split; [done|].
  assert (HKc : ComponentId.getComponentClass c None = inr K).
  { unfold ComponentId.getComponentClass. by rewrite HK. }
  destruct (append_existing fuel h e x c None K i L l HKc Hid Hlist Hchain Hlen) as [_ Happ].
  specialize (Happ Hcl). cbv zeta in Happ. rewrite Hlast in Happ.
  destruct l as [|d l']; [done|]. simpl in Hslot. rewrite Hslot in Happ.
  split; [exact Happ|].
  split.
  - done.
  - done.
  - done.
  - apply (chain_snoc h _ (d :: l') p c); done.
  - apply Forall_app. split.
    + eapply Forall_impl; [exact Hlk|]. intros; by apply isLinkedComponent_set_next.
    + repeat constructor. by apply isLinkedComponent_set_next.
  - apply Forall_app. split; [done|]. repeat constructor. rewrite <- HK. apply instanceOf_own.
Qed.

Lemma holds_list_heap h h' e K i L l :
  componentIds h' = componentIds h -> next_prop h' = next_prop h ->
  list_head h' = list_head h ->
  holds_list h e K i L l -> holds_list h' e K i L l.
Proof.
  intros Hi Hn Hl [Hid Hlist Hslot Hchain Hlk Hcls]. split; try done.
  - by rewrite Hi.
  - rewrite Hl. by apply (chain_next_prop h).
  - eapply Forall_impl; [exact Hlk|]. intros d. unfold isLinkedComponent. by rewrite Hn.
Qed.

(** When the entity holds the linked list [c :: l] of instances of [K]
    and every one of them has an own [next] property, [remove(K)] returns
    the head [c], leaves no slot and no list for [K] (so [has(K)] is
    false), and invokes the listeners of [onComponentRemoved] once for each
    instance, from the head on. *)
Lemma remove_linked_removes_all (fuel : nat) (h : Heap) (e : Entity) (x : Trace)
  (K : Class) (i L : nat) (c : Component) (l : list Component) :
  holds_list h e K i L (c :: l) ->
  length (c :: l) < fuel ->
  let h' := set_head L None (set_NumberComponents (NumberComponents h + -1) h) in
  let e' := withdrawn e i [] in
  Entity.remove record fuel (KClass K) (mkSt h e x) =
    Ok (Some c) (mkSt h' e' (x ++ removed_events e (c :: l))) /\
  _components e' !! i = None /\
  _linkedComponents e' !! i = None /\
  Entity.has h' e' (KClass K) = false /\
  length (removed_events e (c :: l)) =
    length (c :: l) * Signal.handlersAmount (onComponentRemoved e).
Proof.
  intros Hh Hf h' e'.
  split; [|split; [|split; [|split]]].
  - unfold Entity.remove, Entity.remove_with.
    unfold bind at 1. unfold Entity.bumpNumberComponents, bind at 1, getHeap, setHeap.
    cbn [heap this ext].
    apply removeComponent_linked; [|done].
    by apply (holds_list_heap h).
  - apply lookup_delete_eq.
  - apply lookup_delete_eq.
  - simpl. unfold Entity.hasComponent. rewrite getComponentId_read. simpl.
    rewrite (hl_id _ _ _ _ _ _ Hh). simpl. rewrite lookup_delete_eq.
    by apply bool_decide_eq_false_2, is_Some_None.
  - unfold removed_events, Signal.handlersAmount, Signal.emit.
    generalize (c :: l). intros l0. induction l0 as [|d l0 IH]; simpl; [done|].
    rewrite length_app, length_map, IH. done.
Qed.


(** C8 (as amended): [append(c, resolveClass)] throws in exactly two
    cases. When [resolveClass] is given and is neither the class of [c] nor
    an ancestor of it, it throws the resolve error, whatever the lists
    hold. When the class resolves, it throws exactly when the instance [c]
    is already in the entity's linked list of the resolved type, and
    otherwise returns. In both cases it throws before anything is changed or
    any listener invoked: the store, the entity and so the list are as
    before. *)
Theorem append_throws_iff_present (fuel : nat) (h : Heap) (e : Entity) (x : Trace)
  (c : Component) (resolveClass : option Class) :
  let r := Entity.append record fuel c resolveClass (mkSt h e x) in
  (forall K, resolveClass = Some K -> instanceOf c K = false ->
     r = Throw ResolveMismatch (mkSt h e x)) /\
  (forall K l,
     ComponentId.getComponentClass c resolveClass = inr K ->
     listed h e K l ->
     (componentIds h !! class_name K = None ->
      _linkedComponents e !! componentClassId h = None) ->
     length l <= fuel ->
     ((exists err s', r = Throw err s') <-> c ∈ l) /\
     (c ∈ l -> r = Throw DuplicateAppend (mkSt h e x)) /\
     (c ∉ l -> exists s', r = Ok tt s')).
Proof.
  intros r. split.
  { intros K -> Hi. unfold r, Entity.append, Entity.appendComponent.
    unfold ComponentId.getComponentClass. rewrite Hi.
    rewrite bool_decide_eq_false_2; [done|].
    intros <-. by rewrite instanceOf_own in Hi. }
  intros K l HK Hl Hwf Hlen.
  assert (Hcases : (c ∈ l -> r = Throw DuplicateAppend (mkSt h e x)) /\
                   (c ∉ l -> exists s', r = Ok tt s')).
  { unfold r, Entity.append, listed in *.
    destruct (componentIds h !! class_name K) as [i|] eqn:Hid.
    - destruct (_linkedComponents e !! i) as [L|] eqn:Hlist.
      + destruct (append_existing fuel h e x c resolveClass K i L l HK Hid Hlist Hl Hlen)
          as [Hin Hout].
        split; [done|]. intros Hc. eexists. by apply Hout.
      + subst l. split; [by intros ?%elem_of_nil|]. intros _. eexists.
        apply (appendComponent_new_eq fuel h e x c resolveClass K i h); [done| |done].
        by apply getComponentId_known.
    - subst l. split; [by intros ?%elem_of_nil|]. intros _. eexists.
      eapply (appendComponent_new_eq fuel h e x c resolveClass K); [done| |by apply Hwf].
      unfold ComponentId.getComponentId. by rewrite Hid. }
  destruct Hcases as [Hin Hout]. split; [|done].
  split.
  - intros (err & s' & Hr). destruct (decide (c ∈ l)) as [|Hn]; [done|].
    destruct (Hout Hn) as [s'' Hs'']. congruence.
  - intros Hc. eexists _, _. by apply Hin.
Qed.

(** ** Component ids *)

Lemma getComponentId_keeps K b h n i :
  componentIds h !! n = Some i ->
  componentIds (snd (ComponentId.getComponentId K b h)) !! n = Some i.
Proof.
  intros Hn. unfold ComponentId.getComponentId.
  destruct (componentIds h !! class_name K) as [j|] eqn:Hj; [done|].
  destruct b; [|done]. simpl.
  rewrite lookup_insert_ne; [done|]. intros Heq. rewrite Heq in Hj. congruence.
Qed.

Lemma after_calls_keeps calls h n i :
  componentIds h !! n = Some i -> componentIds (after_calls calls h) !! n = Some i.
Proof.
  revert h. induction calls as [|[K b] r IH]; intros h Hn; [done|].
  simpl. apply IH. by apply getComponentId_keeps.
Qed.

Lemma getComponentId_result K b h i h1 :
  ComponentId.getComponentId K b h = (Some i, h1) ->
  componentIds h1 !! class_name K = Some i.
Proof.
  unfold ComponentId.getComponentId.
  destruct (componentIds h !! class_name K) as [j|] eqn:Hj.
  - by intros [= <- <-].
  - destruct b; [|done]. intros [= <- <-]. simpl. apply lookup_insert_eq.
Qed.

Lemma removeComponent_same_name fuel (K1 K2 : Class) (s : St Trace) :
  class_name K1 = class_name K2 ->
  (forall v, Entity.get (heap s) (this s) K1 = Some v ->
             isLinkedComponent (heap s) v = false) ->
  Entity.removeComponent record fuel K1 s = Entity.removeComponent record fuel K2 s.
Proof.
  intros Hn Hv. unfold Entity.get in Hv. rewrite getComponentId_read in Hv. simpl in Hv.
  destruct fuel; simpl; unfold bind, getThis, getHeap;
    rewrite !getComponentId_read, <- Hn; simpl;
    (destruct (componentIds (heap s) !! class_name K1) as [i|]; [|done]);
    (destruct (_components (this s) !! i) as [v|]; [|done]);
    rewrite (Hv v eq_refl); done.
Qed.

(** [remove] of a class against which the stored linked instance does not
    resolve: the counter is decremented and the resolve error is thrown. *)
Lemma remove_resolve_mismatch fuel (h : Heap) (e : Entity) (x : Trace) K i L c :
  2 <= fuel ->
  componentIds h !! class_name K = Some i ->
  _components e !! i = Some c ->
  isLinkedComponent h c = true ->
  _linkedComponents e !! i = Some L ->
  is_Some (list_head h !! L) ->
  instanceOf c K = false ->
  Entity.remove record fuel (KClass K) (mkSt h e x) =
  Throw ResolveMismatch (mkSt (set_NumberComponents (NumberComponents h + -1) h) e x).
Proof.
  intros Hf Hid Hslot Hl HL [d Hd] Hi.
  destruct fuel as [|[|f]]; [lia|lia|].
  assert (Hc : ComponentId.getComponentClass c (Some K) = inl ResolveMismatch).
  { unfold ComponentId.getComponentClass. rewrite Hi.
    rewrite bool_decide_eq_false_2; [done|]. intros <-. by rewrite instanceOf_own in Hi. }
  unfold Entity.remove, Entity.remove_with.
  unfold bind at 1. unfold Entity.bumpNumberComponents, bind at 1, getHeap, setHeap.
  cbn [heap this ext].
  set (h' := set_NumberComponents (NumberComponents h + -1) h).
  cbn [Entity.removeComponent]. unfold bind at 1 2. unfold getThis, getHeap. cbn [heap this].
  rewrite getComponentId_read.
  change (componentIds h') with (componentIds h). rewrite Hid. cbn [fst]. rewrite Hslot.
  change (isLinkedComponent h' c) with (isLinkedComponent h c). rewrite Hl.
  unfold bind at 1. unfold Entity.getLinkedComponentList, bind at 1, getThis. cbn [this].
  rewrite HL. unfold ret at 1. unfold bind at 1.
  cbn [Entity.while_not_empty]. unfold LinkedComponentList.isEmpty, LinkedComponentList.head.
  cbn [heap]. change (list_head h') with (list_head h). rewrite Hd.
  unfold bind at 1. unfold Entity.withdraw_with. unfold bind at 1 2. unfold getThis, getHeap.
  cbn [heap this]. unfold Entity.get. rewrite getComponentId_read.
  change (componentIds h') with (componentIds h). rewrite Hid. cbn [fst]. rewrite Hslot.
  unfold Entity.withdrawComponent_with. rewrite Hc. done.
Qed.

(** C10 (as amended): ids are assigned by constructor name. For two
    classes of the same name [getComponentId] returns the same id; [has]
    and [get] do not tell them apart; [add] of an instance of the one that
    is not a linked component replaces a stored instance of the other that
    is not a linked component (one removed event, then one added event);
    [remove] of the one is [remove] of the other on an entity whose instance
    of that type is not a linked component; when the stored instance is a
    linked component that is not an instance of the other class, [remove] of
    the other class and [add] of an instance of the other class throw the
    resolve error; and once a class has an id, every later call returns that
    id. *)
Theorem same_name_same_component_type (K1 K2 : Class) :
  class_name K1 = class_name K2 ->
  (forall b h, ComponentId.getComponentId K1 b h = ComponentId.getComponentId K2 b h) /\
  (forall h e, Entity.has h e (KClass K1) = Entity.has h e (KClass K2) /\
               Entity.get h e K1 = Entity.get h e K2) /\
  (forall fuel h e (x : Trace) c1 c2 i,
     componentIds h !! class_name K1 = Some i ->
     _components e !! i = Some c1 -> comp_class c2 = K2 -> c2 <> c1 ->
     isLinkedComponent h c1 = false -> isLinkedComponent h c2 = false ->
     let e' := set_components (<[i := c2]> (_components e)) e in
     Entity.add record fuel (IComp c2) None (mkSt h e x) =
       Ok tt (mkSt h e'
                (x ++ map (fun f => (f, EvRemoved (IComp c1)))
                          (ids (Signal.handlers (onComponentRemoved e)))
                   ++ map (fun f => (f, EvAdded (IComp c2)))
                          (ids (Signal.handlers (onComponentAdded e))))) /\
     Entity.get h e' K1 = Some c2) /\
  (forall fuel h e (x : Trace),
     (forall v, Entity.get h e K1 = Some v -> isLinkedComponent h v = false) ->
     Entity.remove record fuel (KClass K1) (mkSt h e x) =
     Entity.remove record fuel (KClass K2) (mkSt h e x)) /\
  (forall fuel h e (x : Trace) c1 i L,
     2 <= fuel ->
     componentIds h !! class_name K1 = Some i ->
     _components e !! i = Some c1 ->
     isLinkedComponent h c1 = true ->
     _linkedComponents e !! i = Some L ->
     is_Some (list_head h !! L) ->
     instanceOf c1 K2 = false ->
     let s' := mkSt (set_NumberComponents (NumberComponents h + -1) h) e x in
     Entity.remove record fuel (KClass K2) (mkSt h e x) = Throw ResolveMismatch s' /\
     forall c2, comp_class c2 = K2 ->
       Entity.add record fuel (IComp c2) None (mkSt h e x) = Throw ResolveMismatch s') /\
  (forall b h i h1,
     ComponentId.getComponentId K1 b h = (Some i, h1) ->
     forall calls b',
       ComponentId.getComponentId K1 b' (after_calls calls h1) =
       (Some i, after_calls calls h1)).
Proof.
  intros Hn. split; [|split; [|split; [|split; [|split]]]].
  - intros b h. unfold ComponentId.getComponentId. by rewrite Hn.
  - intros h e. simpl. unfold Entity.hasComponent, Entity.get.
    rewrite !getComponentId_read. by rewrite Hn.
  - intros fuel h e x c1 c2 i Hid Hslot HK2 Hne Hl1 Hl2 e'. split.
    + rewrite (addComponent_replaces fuel h e x c1 c2 None K2 i); try done.
      * by rewrite !emit_invocations.
      * unfold ComponentId.getComponentClass. by rewrite HK2.
      * by rewrite <- Hn.
    + unfold Entity.get. rewrite getComponentId_read, Hid. simpl.
      apply lookup_insert_eq.
  - intros fuel h e x Hv. unfold Entity.remove, Entity.remove_with, bind.
    destruct (Entity.bumpNumberComponents (-1) (mkSt h e x)) as [[] s|err s|] eqn:Hb; [|done|done].
    unfold Entity.bumpNumberComponents, bind, getHeap, setHeap in Hb. simpl in Hb.
    injection Hb as <-.
    apply removeComponent_same_name; [done|]. simpl. intros v Hg. apply Hv.
    unfold Entity.get in *. by rewrite getComponentId_read in *.
  - intros fuel h e x c1 i L Hf Hid Hslot Hl HL Hh Hi s'.
    assert (Hid2 : componentIds h !! class_name K2 = Some i) by (by rewrite <- Hn).
    assert (Hrm : Entity.remove record fuel (KClass K2) (mkSt h e x) = Throw ResolveMismatch s')
      by (by apply (remove_resolve_mismatch fuel h e x K2 i L c1)).
    split; [done|]. intros c2 HK2.
    unfold Entity.add, Entity.addComponent.
    assert (HK : ComponentId.getComponentClass c2 None = inr K2)
      by (unfold ComponentId.getComponentClass; by rewrite HK2).
    rewrite HK. unfold bind at 1 2 3 4. unfold orThrow, ret, onHeap, getHeap, getThis. simpl.
    rewrite (getComponentId_known K2 true h i Hid2). simpl.
    rewrite Hslot.
    assert (Hgo : negb (isLinkedComponent h c2) && bool_decide (c2 = c1) = false).
    { destruct (isLinkedComponent h c2) eqn:Hl2; [done|]. simpl.
      apply bool_decide_eq_false_2. intros ->. congruence. }
    rewrite Hgo. unfold bind at 1 2. by rewrite Hrm.
  - intros b h i h1 Hg calls b'. apply getComponentId_known.
    apply after_calls_keeps. by eapply getComponentId_result.
Qed.

(** * The methods of an entity, whatever its listeners do *)

Section MethodEquations.

Context {X : Type}.
Variable handle : nat -> Event -> M X unit.

Lemma addTag_present (h : Heap) (e : Entity) (x : X) t :
  Entity.hasTag e t = true ->
  Entity.addTag handle t (mkSt h e x) = Ok tt (mkSt h e x).
Proof. intros Ht. unfold Entity.addTag, bind, getThis. simpl. by rewrite Ht. Qed.

Lemma addTag_absent (h : Heap) (e : Entity) (x : X) t :
  Entity.hasTag e t = false ->
  Entity.addTag handle t (mkSt h e x) =
  (let* _ := Entity.dispatchOnComponentAdded handle (ITag t) in
   Entity.bumpNumberComponents 1) (mkSt h (set_tags ({[t]} ∪ _tags e) e) x).
Proof. intros Ht. unfold Entity.addTag. unfold bind at 1, getThis. simpl. by rewrite Ht. Qed.

Lemma removeTag_absent (h : Heap) (e : Entity) (x : X) t :
  Entity.hasTag e t = false ->
  Entity.removeTag handle t (mkSt h e x) = Ok tt (mkSt h e x).
Proof. intros Ht. unfold Entity.removeTag, bind, getThis. simpl. by rewrite Ht. Qed.

Lemma removeTag_present (h : Heap) (e : Entity) (x : X) t :
  Entity.hasTag e t = true ->
  Entity.removeTag handle t (mkSt h e x) =
  Entity.dispatchOnComponentRemoved handle (ITag t)
    (mkSt h (set_tags (_tags e ∖ {[t]}) e) x).
Proof. intros Ht. unfold Entity.removeTag. unfold bind at 1, getThis. simpl. by rewrite Ht. Qed.

Lemma appendComponent_known (fuel : nat) (h : Heap) (e : Entity) (x : X) c rc K i L :
  ComponentId.getComponentClass c rc = inr K ->
  componentIds h !! class_name K = Some i ->
  _linkedComponents e !! i = Some L ->
  Entity.appendComponent handle fuel c rc (mkSt h e x) =
  match LinkedComponentList.add fuel L c h with
  | Ok _ h' =>
      Entity.dispatchOnComponentAdded handle (IComp c)
        (mkSt h'
           (match _components e !! i with
            | Some _ => e
            | None => set_components
                        (match list_head h' !! L with
                         | Some d => <[i := d]> (_components e)
                         | None => delete i (_components e)
                         end) e
            end) x)
  | Throw err h' => Throw err (mkSt h' e x)
  | OutOfFuel => OutOfFuel
  end.
Proof.
  intros HK Hid Hlist.
  unfold Entity.appendComponent. rewrite HK.
  unfold bind at 1 2. unfold orThrow, ret at 1, onHeap. cbn [heap this ext].
  rewrite (getComponentId_known K true h i Hid).
  unfold bind at 1. unfold Entity.getLinkedComponentList, bind at 1, getThis. cbn [this].
  rewrite Hlist. unfold ret at 1. unfold bind at 1, onHeapRes. cbn [heap this ext].
  destruct (LinkedComponentList.add fuel L c h) as [[] h'|err h'|]; [|done|done].
  unfold bind at 1 2 3. unfold getThis, getHeap. cbn [heap this ext].
  unfold LinkedComponentList.head.
  destruct (_components e !! i) as [d|] eqn:Hslot; [done|].
  unfold Entity.setComponent, bind at 1, getThis, setThis. by cbn [heap this ext].
Qed.

Lemma appendComponent_fresh (fuel : nat) (h : Heap) (e : Entity) (x : X) c rc K i h0 :
  ComponentId.getComponentClass c rc = inr K ->
  ComponentId.getComponentId K true h = (Some i, h0) ->
  _linkedComponents e !! i = None ->
  let L := list_count h0 in
  let e1 := set_linkedComponents (<[i := L]> (_linkedComponents e)) e in
  Entity.appendComponent handle fuel c rc (mkSt h e x) =
  Entity.dispatchOnComponentAdded handle (IComp c)
    (mkSt (set_head L (Some c) (snd (alloc_list h0)))
       (match _components e !! i with
        | Some _ => e1
        | None => set_components (<[i := c]> (_components e)) e1
        end) x).
Proof.
  intros HK Hid Hlist L e1.
  unfold Entity.appendComponent. rewrite HK.
  unfold bind at 1 2. unfold orThrow, ret at 1, onHeap. cbn [heap this ext].
  rewrite Hid.
  unfold bind at 1. unfold Entity.getLinkedComponentList, bind at 1, getThis. cbn [this].
  rewrite Hlist. unfold bind at 1 2 3. unfold onHeap, getThis, setThis, ret. cbn [heap this ext alloc_list].
  unfold bind at 1, onHeapRes. cbn [heap this ext].
  unfold LinkedComponentList.add, LinkedComponentList.head. cbn [list_head].
  rewrite lookup_delete_eq. rewrite add_loop_empty. cbn [list_head]. rewrite lookup_delete_eq.
  unfold bind at 1 2 3. unfold getThis, getHeap. cbn [heap this ext].
  unfold LinkedComponentList.head. cbn [_components set_linkedComponents].
  unfold e1, L. cbn [alloc_list snd].
  destruct (_components e !! i) as [d|] eqn:Hslot; [done|].
  unfold Entity.setComponent, bind at 1, getThis, setThis. cbn [heap this ext].
  by rewrite list_head_set_head.
Qed.

Lemma removeComponent_plain (fuel : nat) (h : Heap) (e : Entity) (x : X) K i value :
  componentIds h !! class_name K = Some i ->
  _components e !! i = Some value ->
  isLinkedComponent h value = false ->
  Entity.removeComponent handle fuel K (mkSt h e x) =
  (let* _ := Entity.dispatchOnComponentRemoved handle (IComp value) in ret (Some value))
    (mkSt h (set_components (delete i (_components e)) e) x).
Proof.
  intros Hid Hslot Hl.
  destruct fuel; simpl; unfold bind at 1 2, getThis, getHeap; simpl;
    rewrite getComponentId_read, Hid; simpl; rewrite Hslot, Hl;
    unfold bind at 1, Entity.setComponent, getThis, setThis, bind at 1; done.
Qed.

Lemma removeComponent_nothing (fuel : nat) (h : Heap) (e : Entity) (x : X) K :
  Entity.get h e K = None ->
  Entity.removeComponent handle fuel K (mkSt h e x) = Ok None (mkSt h e x).
Proof.
  unfold Entity.get. rewrite getComponentId_read. simpl. intros Hg.
  destruct fuel; simpl; unfold bind at 1 2, getThis, getHeap; simpl;
    rewrite getComponentId_read; simpl;
    (destruct (componentIds h !! class_name K) as [i|]; [|done]);
    by rewrite Hg.
Qed.

(** Withdrawing the instance in the slot when it is the head of its list. *)
Lemma withdrawComponent_head rm (fuel : nat) (h : Heap) (e : Entity) (x : X) K i L c :
  componentIds h !! class_name K = Some i ->
  _components e !! i = Some c ->
  isLinkedComponent h c = true ->
  ComponentId.getComponentClass c (Some K) = inr K ->
  _linkedComponents e !! i = Some L ->
  list_head h !! L = Some c ->
  Entity.withdrawComponent_with handle rm fuel c (Some K) (mkSt h e x) =
  (let* _ := Entity.dispatchOnComponentRemoved handle (IComp c) in ret (Some c))
    (mkSt (set_head L (next_of h c) h)
       (match next_of h c with
        | Some c' => set_components (<[i := c']> (_components e)) e
        | None => set_linkedComponents (delete i (_linkedComponents e))
                    (set_components (delete i (_components e)) e)
        end) x).
Proof.
  intros Hid Hslot Hlc Hcc Hlist Hhead.
  unfold Entity.withdrawComponent_with.
  rewrite Hcc.
  unfold bind at 1 2. unfold orThrow, ret at 1, getHeap. cbn [heap this ext]. rewrite Hlc.
  cbn [negb]. unfold bind at 1. unfold onHeap. cbn [heap this ext].
  rewrite getComponentId_read, Hid.
  unfold bind at 1. unfold Entity.getLinkedComponentList, bind at 1, getThis. cbn [this].
  rewrite Hlist. unfold ret at 1, bind at 1 2. unfold getThis, getHeap. cbn [heap this ext].
  rewrite (hasComponent_slot h e K i c Hid Hslot). cbn [negb].
  unfold bind at 1. unfold onHeapRes. cbn [heap this ext].
  unfold LinkedComponentList.remove, LinkedComponentList.head. rewrite Hhead.
  rewrite find_at_head.
  unfold bind at 1. unfold onHeap. cbn [heap this ext].
  rewrite (getComponentId_known K true _ i) by (by destruct (next_of h c)).
  unfold bind at 1. unfold getHeap. cbn [heap this ext].
  unfold LinkedComponentList.isEmpty, LinkedComponentList.head.
  rewrite list_head_set_head.
  destruct (next_of h c) as [c'|]; unfold bind at 1.
  - unfold Entity.setComponent, bind at 1, getThis, setThis. by cbn [heap this ext].
  - unfold bind at 1. unfold Entity.setComponent, bind at 1, getThis, setThis. by cbn [heap this ext].
Qed.

Lemma withdrawComponent_mismatch rm (fuel : nat) (s : St X) K c :
  ComponentId.getComponentClass c (Some K) = inl ResolveMismatch ->
  Entity.withdrawComponent_with handle rm fuel c (Some K) s = Throw ResolveMismatch s.
Proof. intros Hm. unfold Entity.withdrawComponent_with. rewrite Hm. done. Qed.

End MethodEquations.

(** * The shadow entity of a query *)

Lemma invoke_no_handlers calls (s : St unit) :
  Entity.invoke Query.no_handlers calls s = Ok tt s.
Proof.
  induction calls as [|[f ev] r IH]; simpl; [done|].
  unfold bind, Query.no_handlers, ret. exact IH.
Qed.

Lemma dispatchAdded_no_handlers i (s : St unit) :
  Entity.dispatchOnComponentAdded Query.no_handlers i s = Ok tt s.
Proof.
  unfold Entity.dispatchOnComponentAdded, bind, getThis.
  destruct (Signal.hasHandlers _); [apply invoke_no_handlers|done].
Qed.

Lemma dispatchRemoved_no_handlers i (s : St unit) :
  Entity.dispatchOnComponentRemoved Query.no_handlers i s = Ok tt s.
Proof.
  unfold Entity.dispatchOnComponentRemoved, bind, getThis.
  destruct (Signal.hasHandlers _); [apply invoke_no_handlers|done].
Qed.

Lemma heap_ext_refl h : heap_ext h h.
Proof. by split. Qed.

Lemma heap_ext_trans h1 h2 h3 : heap_ext h1 h2 -> heap_ext h2 h3 -> heap_ext h1 h3.
Proof.
  intros [A1 B1 C1 D1 E1] [A2 B2 C2 D2 E2]. split; try congruence; [|lia].
  intros L HL. rewrite D2 by lia. by apply D1.
Qed.

Lemma heap_ext_bump h z : heap_ext h (set_NumberComponents z h).
Proof. by split. Qed.

Lemma heap_ext_alloc h c :
  heap_ext h (set_head (list_count h) (Some c) (snd (alloc_list h))).
Proof.
  split; simpl; try done; [|lia].
  intros L HL. rewrite lookup_insert_ne by lia. rewrite lookup_delete_ne by lia. done.
Qed.

Lemma isLinkedComponent_ext h h1 c :
  heap_ext h h1 -> isLinkedComponent h1 c = isLinkedComponent h c.
Proof. intros He. unfold isLinkedComponent. by rewrite (ext_next _ _ He). Qed.

Lemma elem_of_names m n :
  n ∈ names m <-> exists i c, m !! i = Some c /\ class_name (comp_class c) = n.
Proof. unfold names. by rewrite elem_of_map_to_set. Qed.

Lemma names_insert i c m :
  names (<[i := c]> m) = {[class_name (comp_class c)]} ∪ names (delete i m).
Proof.
  apply set_eq. intros n. rewrite elem_of_union, elem_of_singleton, !elem_of_names. split.
  - intros (j & d & Hd & Hn). destruct (decide (i = j)) as [->|Hij].
    + rewrite lookup_insert_eq in Hd. left. congruence.
    + rewrite lookup_insert_ne in Hd by done. right. exists j, d.
      by rewrite lookup_delete_ne.
  - intros [->|(j & d & Hd & Hn)].
    + exists i, c. by rewrite lookup_insert_eq.
    + destruct (decide (i = j)) as [->|Hij]; [by rewrite lookup_delete_eq in Hd|].
      rewrite lookup_delete_ne in Hd by done. exists j, d. by rewrite lookup_insert_ne.
Qed.

Lemma names_lookup i c m :
  m !! i = Some c -> names m = {[class_name (comp_class c)]} ∪ names (delete i m).
Proof. intros H. by rewrite <- names_insert, insert_id. Qed.

Lemma names_has i c m :
  m !! i = Some c -> {[class_name (comp_class c)]} ∪ names m = names m.
Proof. intros H. rewrite (names_lookup i c m H). set_solver. Qed.

(** A slot refilled with an instance of a type of the same name. *)
Lemma names_refill i c d m :
  m !! i = Some d -> class_name (comp_class d) = class_name (comp_class c) ->
  names (<[i := c]> m) = names m.
Proof. intros H Hn. by rewrite names_insert, (names_lookup i d m H), Hn. Qed.

Lemma names_fill i c m :
  m !! i = None -> names (<[i := c]> m) = {[class_name (comp_class c)]} ∪ names m.
Proof. intros H. by rewrite names_insert, delete_id. Qed.

Lemma typed_same_name h e i c d :
  typed h e -> componentIds h !! class_name (comp_class c) = Some i ->
  _components e !! i = Some d ->
  class_name (comp_class d) = class_name (comp_class c).
Proof. intros [Hs Hi] Hc Hd. apply (Hi _ _ i); [by apply Hs|done]. Qed.

Lemma typed_ext h h1 e : heap_ext h h1 -> typed h e -> typed h1 e.
Proof. intros He [Hs Hi]. split; rewrite (ext_ids _ _ He); eauto. Qed.

Lemma typed_insert h e i c :
  typed h e -> componentIds h !! class_name (comp_class c) = Some i ->
  typed h (set_components (<[i := c]> (_components e)) e).
Proof.
  intros [Hs Hi] Hc. split; [|done]. intros j d. simpl.
  destruct (decide (i = j)) as [->|Hij].
  - rewrite lookup_insert_eq. by intros [= <-].
  - rewrite lookup_insert_ne by done. apply Hs.
Qed.

Lemma typed_same h e e' :
  _components e' = _components e -> typed h e -> typed h e'.
Proof. intros Hc [Hs Hi]. split; [|done]. rewrite Hc. apply Hs. Qed.

(** What [updateHelper] leaves in the shadow entity. *)
Lemma updateHelper_contents fuel (e : Entity) (item : Item) (q : Query) (h : Heap) :
  event_item h e item ->
  exists h1 shadow,
    Query.updateHelper fuel e item None q h = Ok tt (h1, set_helper shadow q) /\
    heap_ext h h1 /\
    _components shadow = shadow_components h e item /\
    _tags shadow = shadow_tags e item.
Proof.
  intros Hev. unfold Query.updateHelper.
  set (helper := Entity.copyFrom (Entity.clear (_helper q)) e).
  assert (Hc : _components helper = _components e) by done.
  assert (Hl : _linkedComponents helper = _linkedComponents e) by done.
  assert (Ht : _tags helper = _tags e) by done.
  clearbody helper.
  destruct item as [t|c]; cbn [shadow_components shadow_tags]; simpl.
  - unfold bind at 1, getHeap. cbn [heap this ext Query.isLinked negb Entity.add].
    destruct (Entity.hasTag helper t) eqn:Htag.
    + rewrite addTag_present by done.
      eexists _, _. split; [done|]. split; [apply heap_ext_refl|]. split; [done|].
      cbn [this]. rewrite Ht.
      unfold Entity.hasTag in Htag. apply bool_decide_eq_true in Htag. rewrite Ht in Htag. set_solver.
    + rewrite addTag_absent by done. unfold bind.
      rewrite dispatchAdded_no_handlers.
      unfold Entity.bumpNumberComponents, bind, getHeap, setHeap. cbn [heap this ext].
      eexists _, _. split; [done|]. split; [apply heap_ext_bump|].
      split; [done|]. simpl. by rewrite Ht.
  - destruct Hev as (i & Hid & Hcase). rewrite Hid.
    unfold bind at 1, getHeap. cbn [heap this ext Query.isLinked].
    destruct (isLinkedComponent h c) eqn:Hlk; cbn [negb andb].
    + unfold ComponentId.getComponentClass, orThrow.
      unfold bind at 1 2 3. unfold ret at 1, getThis, getHeap. cbn [heap this ext].
      unfold Entity.has, Entity.hasComponent. rewrite getComponentId_read, Hid. cbn [fst].
      rewrite Hc.
      destruct (_components e !! i) as [d|] eqn:Hslot.
      * rewrite bool_decide_eq_true_2 by eauto. cbn [negb]. unfold ret.
        eexists _, _. split; [done|]. split; [apply heap_ext_refl|]. by split.
      * rewrite bool_decide_eq_false_2 by (by apply is_Some_None). cbn [negb].
        destruct Hcase as [[? ?]|Hnolist]; [done|].
        unfold Entity.append.
        rewrite (appendComponent_fresh Query.no_handlers fuel h helper tt c None
                   (comp_class c) i h); [|done|by apply getComponentId_known|by rewrite Hl].
        rewrite dispatchAdded_no_handlers. rewrite Hc, Hslot.
        eexists _, _. split; [done|]. split; [apply heap_ext_alloc|].
        by split.
    + unfold Entity.add, Entity.addComponent, ComponentId.getComponentClass, orThrow.
      unfold bind at 1 2. unfold ret at 1, onHeap. cbn [heap this ext].
      rewrite (getComponentId_known _ true h i Hid).
      unfold bind at 1 2. unfold getHeap, getThis. cbn [heap this ext]. rewrite Hlk, Hc.
      cbn [negb andb].
      destruct Hcase as [Hslot|Hslot]; rewrite Hslot.
      * unfold bind at 1. unfold ret at 1. unfold bind at 1 2.
        unfold Entity.setComponent, bind at 1, getThis, setThis. cbn [heap this ext].
        rewrite dispatchAdded_no_handlers.
        unfold Entity.bumpNumberComponents, bind, getHeap, setHeap. cbn [heap this ext].
        eexists _, _. split; [done|]. split; [apply heap_ext_bump|].
        simpl. by rewrite Hc.
      * rewrite bool_decide_eq_true_2 by done. unfold bind at 1. unfold ret.
        eexists _, _. split; [done|]. split; [apply heap_ext_refl|].
        split; [|done]. cbn [this]. by rewrite Hc, insert_id.
Qed.

(** The shadow entity has the component types and the tags of the entity,
    and those of the changed item. *)
Lemma shadow_contents_view h e item shadow :
  typed h e -> event_item h e item ->
  _components shadow = shadow_components h e item ->
  _tags shadow = shadow_tags e item ->
  typed h shadow /\ presence shadow = shadow_view e item.
Proof.
  intros Hty Hev Hc Ht. unfold presence. rewrite Ht.
  destruct item as [t|c]; cbn [shadow_components shadow_tags shadow_view] in *.
  - split; [by apply (typed_same h e)|by rewrite Hc].
  - destruct Hev as (i & Hid & Hcase). rewrite Hid in Hc.
    destruct (_components e !! i) as [d|] eqn:Hslot.
    + assert (Hn : names (_components shadow) = names (_components e)).
      { rewrite Hc. destruct (_ && _); [done|].
        apply (names_refill i c d); [done|]. by apply (typed_same_name h e i). }
      split.
      * destruct (_ && _); [by apply (typed_same h e)|].
        destruct (typed_insert h e i c Hty Hid) as [Hs Hi]. split; [|done].
        rewrite Hc. apply Hs.
      * rewrite Hn. f_equal. rewrite <- (typed_same_name h e i c d Hty Hid Hslot).
        symmetry. by apply (names_has i).
    + rewrite bool_decide_eq_false_2 in Hc by (by apply is_Some_None).
      rewrite andb_false_r in Hc. split.
      * destruct (typed_insert h e i c Hty Hid) as [Hs Hi]. split; [|done].
        rewrite Hc. apply Hs.
      * rewrite Hc. f_equal. by apply names_fill.
Qed.

Lemma updateHelper_shadow fuel (e : Entity) (item : Item) (q : Query) (h : Heap) :
  typed h e ->
  event_item h e item ->
  exists h1 shadow,
    Query.updateHelper fuel e item None q h = Ok tt (h1, set_helper shadow q) /\
    heap_ext h h1 /\
    typed h1 shadow /\
    presence shadow = shadow_view e item.
Proof.
  intros Hty Hev.
  destruct (updateHelper_contents fuel e item q h Hev) as (h1 & shadow & Hup & Hext & Hc & Ht).
  destruct (shadow_contents_view h e item shadow Hty Hev Hc Ht) as [Hts Hv].
  exists h1, shadow. split; [done|]. split; [done|]. split; [by apply (typed_ext h)|done].
Qed.

(** * Queries *)

Lemma ids_kept_refl h : ids_kept h h.
Proof. by intros n j. Qed.

Lemma ids_kept_trans h1 h2 h3 : ids_kept h1 h2 -> ids_kept h2 h3 -> ids_kept h1 h3.
Proof. intros H1 H2 n j Hn. eauto. Qed.

Lemma store_kept_refl h : store_kept h h.
Proof. split; [apply ids_kept_refl|done]. Qed.

Lemma store_kept_trans h1 h2 h3 : store_kept h1 h2 -> store_kept h2 h3 -> store_kept h1 h3.
Proof.
  intros [H1 B1] [H2 B2]. split; [by eapply ids_kept_trans|]. by rewrite B2, B1.
Qed.

Lemma store_kept_same h h1 :
  componentIds h1 = componentIds h -> builders h1 = builders h -> store_kept h h1.
Proof. intros Hi Hb. split; [|done]. intros n j. by rewrite Hi. Qed.

Lemma store_kept_ext h h1 : heap_ext h h1 -> store_kept h h1.
Proof.
  intros He. split; [|exact (ext_builders _ _ He)].
  intros n j. by rewrite (ext_ids _ _ He).
Qed.

Lemma presence_query_from h0 q : presence_query q -> engine_query h0 q.
Proof. intros [[P HP] Hnd]. split; [|done]. exists P. intros h e _ Hty. by apply HP. Qed.

Lemma engine_query_kept h0 h1 q : store_kept h0 h1 -> engine_query h0 q -> engine_query h1 q.
Proof.
  intros Hk [[P HP] Hnd]. split; [|done]. exists P. intros h e Hk1 Hty.
  apply HP; [by eapply store_kept_trans|done].
Qed.

Lemma splice_out_sub i l x : x ∈ Query.splice_out i l -> x ∈ l.
Proof.
  induction l as [|y r IH]; simpl; [done|].
  destruct (Nat.eqb_spec y i).
  - intros. by constructor.
  - rewrite !elem_of_cons. naive_solver.
Qed.

Lemma splice_out_NoDup i l : NoDup l -> NoDup (Query.splice_out i l).
Proof.
  induction l as [|y r IH]; simpl; [done|].
  intros Hnd. apply NoDup_cons in Hnd as [Hy Hnd].
  destruct (Nat.eqb_spec y i); [done|].
  apply NoDup_cons. split; [|by apply IH].
  intros Hin. apply Hy. by eapply splice_out_sub.
Qed.

Lemma splice_out_gone i l : NoDup l -> i ∉ Query.splice_out i l.
Proof.
  induction l as [|y r IH]; simpl; [intros _; apply not_elem_of_nil|].
  intros Hnd. apply NoDup_cons in Hnd as [Hy Hnd].
  destruct (Nat.eqb_spec y i) as [->|Hne]; [done|].
  apply not_elem_of_cons. split; [done|by apply IH].
Qed.

Lemma has_push q e : Query.has (set_entities (Query.push (entity_id e) (_entities q)) q) e = true.
Proof.
  unfold Query.has, Query.push. simpl. apply bool_decide_eq_true_2.
  apply elem_of_app. right. constructor.
Qed.

Lemma has_splice_out q e :
  NoDup (_entities q) ->
  Query.has (set_entities (Query.splice_out (entity_id e) (_entities q)) q) e = false.
Proof.
  intros Hnd. unfold Query.has. simpl. apply bool_decide_eq_false_2.
  by apply splice_out_gone.
Qed.

Lemma push_NoDup q e :
  NoDup (_entities q) -> Query.has q e = false ->
  NoDup (Query.push (entity_id e) (_entities q)).
Proof.
  intros Hnd Hh. unfold Query.has in Hh. apply bool_decide_eq_false in Hh.
  unfold Query.push. apply NoDup_app. split; [done|]. split.
  - intros x Hx Hx'. apply list_elem_of_singleton in Hx'. by subst.
  - apply NoDup_singleton.
Qed.

Lemma event_item_known h e item : event_item h e item -> item_known h item.
Proof. destruct item; simpl; [done|]. intros (i & Hi & _). eauto. Qed.

Lemma item_known_ext h h1 item : heap_ext h h1 -> item_known h item -> item_known h1 item.
Proof. intros He. destruct item; simpl; [done|]. by rewrite (ext_ids _ _ He). Qed.

Lemma takeSnapshot_heap e snap item h :
  item_known h item -> snd (takeSnapshot e snap (Some item) None h) = h.
Proof.
  destruct item as [t|c]; simpl; [done|]. intros [i Hi].
  rewrite (getComponentId_known _ true h i Hi). done.
Qed.

Lemma notify_effect sig b e item q h :
  item_known h item ->
  exists out snap,
    Query.notify sig b e (Some item) None q h = (out, (h, set_snapshot snap q)).
Proof.
  intros Hk. unfold Query.notify. destruct b.
  - pose proof (takeSnapshot_heap e (_snapshot q) item h Hk) as Hh.
    destruct (takeSnapshot e (_snapshot q) (Some item) None h) as [snap h'].
    simpl in Hh. subst h'. eauto.
  - exists [], (_snapshot q). by destruct q.
Qed.

Lemma presence_query_same h0 q q' :
  same_query q q' -> _entities q' = _entities q -> engine_query h0 q -> engine_query h0 q'.
Proof.
  intros (Hp & _ & _) He [[P HP] Hnd]. split.
  - exists P. intros h e Hk Hty. rewrite Hp. by apply HP.
  - by rewrite He.
Qed.

(** A single-field add: afterwards the query lists the entity exactly when
    the shadow entity matches. *)
Lemma entityComponentAdded_step fuel h0 (e : Entity) (item : Item) (q : Query) (h : Heap) P :
  store_kept h0 h ->
  typed h e -> event_item h e item -> pred_from h0 q P -> NoDup (_entities q) ->
  exists out h1 q1,
    Query.entityComponentAdded fuel e item None q h = Ok out (h1, q1) /\
    heap_ext h h1 /\ same_query q q1 /\ NoDup (_entities q1) /\
    Query.has q1 e = on_presence P (shadow_view e item).
Proof.
  intros Hk0 Hty Hev HP Hnd.
  destruct (updateHelper_shadow fuel e item q h Hty Hev)
    as (h1 & shadow & Hup & Hext & Hty1 & Hview).
  assert (Hk1 : store_kept h0 h1) by (eapply store_kept_trans; [done|by apply store_kept_ext]).
  unfold Query.entityComponentAdded. rewrite Hup.
  assert (Hk : item_known h1 item) by (eapply item_known_ext, event_item_known; eauto).
  assert (Hm : _predicate (set_helper shadow q) h1 (_helper (set_helper shadow q)) =
               on_presence P (shadow_view e item)).
  { simpl. rewrite (HP h1 shadow Hk1 Hty1). rewrite <- Hview. done. }
  rewrite Hm.
  destruct (Query.has (set_helper shadow q) e) eqn:Hhas;
    destruct (on_presence P (shadow_view e item)) eqn:HPv; cbn [negb andb].
  - eexists _, _, _. split; [done|]. split; [done|]. split; [done|]. split; done.
  - destruct (notify_effect OnEntityRemoved (Signal.hasHandlers (onEntityRemoved q)) e item
        (set_entities (Query.splice_out (entity_id e) (_entities (set_helper shadow q)))
           (set_helper shadow q)) h1 Hk) as (out & snap & Hn).
    rewrite Hn. eexists _, _, _. split; [done|]. split; [done|]. split; [done|].
    split; [by apply splice_out_NoDup|]. by apply (has_splice_out (set_helper shadow q)).
  - destruct (notify_effect OnEntityAdded (Signal.hasHandlers (onEntityAdded q)) e item
        (set_entities (Query.push (entity_id e) (_entities (set_helper shadow q)))
           (set_helper shadow q)) h1 Hk) as (out & snap & Hn).
    rewrite Hn. eexists _, _, _. split; [done|]. split; [done|]. split; [done|].
    split; [by apply (push_NoDup (set_helper shadow q))|].
    by apply (has_push (set_helper shadow q)).
  - eexists _, _, _. split; [done|]. split; [done|]. split; [done|]. split; done.
Qed.

(** A single-field removal: if the query was in step with the state before
    the removal (the presence the shadow shows), or is already in step with
    the entity, it is in step with the entity afterwards. *)
Lemma entityComponentRemoved_step fuel h0 (e : Entity) (item : Item) (q : Query) (h : Heap) P :
  store_kept h0 h ->
  typed h e -> event_item h e item -> pred_from h0 q P -> NoDup (_entities q) ->
  Query.has q e = on_presence P (shadow_view e item) \/
  Query.has q e = on_presence P (presence e) ->
  exists out h1 q1,
    Query.entityComponentRemoved fuel e item None q h = Ok out (h1, q1) /\
    heap_ext h h1 /\ same_query q q1 /\ NoDup (_entities q1) /\
    Query.has q1 e = on_presence P (presence e).
Proof.
  intros Hk0 Hty Hev HP Hnd Hpre.
  destruct (updateHelper_shadow fuel e item q h Hty Hev)
    as (h1 & shadow & Hup & Hext & Hty1 & Hview).
  assert (Hk1 : store_kept h0 h1) by (eapply store_kept_trans; [done|by apply store_kept_ext]).
  unfold Query.entityComponentRemoved. rewrite Hup.
  assert (Hk : item_known h1 item) by (eapply item_known_ext, event_item_known; eauto).
  assert (Hm : _predicate (set_helper shadow q) h1 (_helper (set_helper shadow q)) =
               on_presence P (shadow_view e item)).
  { simpl. rewrite (HP h1 shadow Hk1 Hty1). rewrite <- Hview. done. }
  assert (He : _predicate (set_helper shadow q) h1 e = on_presence P (presence e)).
  { simpl. by rewrite (HP h1 e Hk1 (typed_ext h h1 e Hext Hty)). }
  rewrite Hm, He.
  assert (Hhas0 : Query.has (set_helper shadow q) e = Query.has q e) by done.
  destruct (Query.has (set_helper shadow q) e) eqn:Hhas;
    destruct (on_presence P (shadow_view e item)) eqn:HPv;
    destruct (on_presence P (presence e)) eqn:HPe; cbn [negb andb];
    try (destruct Hpre; congruence);
    try (eexists _, _, _; split; [done|]; split; [done|]; split; [done|]; split; done).
  - destruct (notify_effect OnEntityRemoved (Signal.hasHandlers (onEntityRemoved q)) e item
        (set_entities (Query.splice_out (entity_id e) (_entities (set_helper shadow q)))
           (set_helper shadow q)) h1 Hk) as (out & snap & Hn).
    rewrite Hn. eexists _, _, _. split; [done|]. split; [done|]. split; [done|].
    split; [by apply splice_out_NoDup|]. by apply (has_splice_out (set_helper shadow q)).
  - destruct (notify_effect OnEntityAdded (Signal.hasHandlers (onEntityAdded q)) e item
        (set_entities (Query.push (entity_id e) (_entities (set_helper shadow q)))
           (set_helper shadow q)) h1 Hk) as (out & snap & Hn).
    rewrite Hn. eexists _, _, _. split; [done|]. split; [done|]. split; [done|].
    split; [by apply (push_NoDup (set_helper shadow q))|].
    by apply (has_push (set_helper shadow q)).
Qed.

(** * The engine's router *)

Lemma event_item_ext h h1 e item : heap_ext h h1 -> event_item h e item -> event_item h1 e item.
Proof.
  intros He. destruct item as [t|c]; simpl; [done|].
  rewrite (ext_ids _ _ He), (isLinkedComponent_ext h h1 c He). done.
Qed.

Lemma in_step_presence h0 h h' e e' q q' :
  presence_from h0 q -> same_query q q' ->
  store_kept h0 h -> store_kept h0 h' ->
  typed h e -> typed h' e' ->
  presence e' = presence e ->
  Query.has q' e' = Query.has q e ->
  in_step h e q -> in_step h' e' q'.
Proof.
  intros [P HP] (Hp & _ & _) Hk Hk' Hty Hty' Hv Hh Hs. unfold in_step in *.
  rewrite Hh, Hs, Hp, (HP h e Hk Hty), (HP h' e' Hk' Hty').
  unfold presence in Hv. by injection Hv as -> ->.
Qed.

Lemma same_query_refl q : same_query q q.
Proof. by repeat split. Qed.

Lemma same_query_trans q1 q2 q3 : same_query q1 q2 -> same_query q2 q3 -> same_query q1 q3.
Proof. intros (A & B & C) (A' & B' & C'). repeat split; congruence. Qed.

(** The engine's callback for a removal, over all queries. *)
Lemma forEachQuery_removed fuel h0 (e e_pre : Entity) (item : Item) :
  forall (qs : list Query) (h : Heap) (log : list Emission),
  store_kept h0 h ->
  typed h e -> typed h e_pre ->
  event_item h e item ->
  presence e_pre = shadow_view e item ->
  entity_id e_pre = entity_id e ->
  Forall (engine_query h0) qs ->
  Forall (fun q => in_step h e_pre q \/ in_step h e q) qs ->
  exists h1 g1,
    Engine.forEachQuery (Query.entityComponentRemoved fuel e item None) qs h log =
      Ok tt (h1, g1) /\
    heap_ext h h1 /\ Forall2 same_query qs (_queries g1) /\
    Forall (engine_query h0) (_queries g1) /\
    Forall (in_step h1 e) (_queries g1).
Proof.
  induction qs as [|q qs IH]; intros h log Hk0 Hty Htp Hev Hv Hid Hq Hs.
  - eexists _, _. split; [done|]. split; [apply heap_ext_refl|]. by repeat split.
  - apply Forall_cons in Hq as [[[P HP] Hnd] Hq]. apply Forall_cons in Hs as [Hs1 Hs].
    assert (Hpre : Query.has q e = on_presence P (shadow_view e item) \/
                   Query.has q e = on_presence P (presence e)).
    { destruct Hs1 as [H1|H1]; unfold in_step in H1; [left|right].
      - rewrite <- Hv. unfold on_presence, presence. simpl. rewrite <- (HP h e_pre) by done.
        rewrite <- H1. unfold Query.has. by rewrite Hid.
      - rewrite H1. by rewrite (HP h e). }
    destruct (entityComponentRemoved_step fuel h0 e item q h P Hk0 Hty Hev HP Hnd Hpre)
      as (out & h1 & q1 & Hrun & Hext & Hsame & Hnd1 & Hhas).
    simpl. rewrite Hrun.
    assert (Hk1 : store_kept h0 h1) by (eapply store_kept_trans; [done|by apply store_kept_ext]).
    assert (Hty1 : typed h1 e) by (by apply (typed_ext h)).
    assert (Htp1 : typed h1 e_pre) by (by apply (typed_ext h)).
    destruct (IH h1 (log ++ out)) as (h2 & g2 & Hrun2 & Hext2 & Hsame2 & Hq2 & Hs2).
    { done. }
    { done. }
    { done. }
    { by apply (event_item_ext h). }
    { done. }
    { done. }
    { done. }
    { apply Forall_forall. intros q' Hin.
      rewrite Forall_forall in Hq. rewrite Forall_forall in Hs.
      destruct (Hq q' Hin) as [HPq' _].
      destruct (Hs q' Hin) as [H'|H']; [left|right].
      - by apply (in_step_presence h0 h h1 e_pre e_pre q' q' HPq' (same_query_refl q')).
      - by apply (in_step_presence h0 h h1 e e q' q' HPq' (same_query_refl q')). }
    rewrite Hrun2. eexists _, _. split; [done|].
    split; [by eapply heap_ext_trans|]. cbn [_queries].
    assert (Hpq1 : engine_query h0 q1).
    { split; [|done]. exists P. intros h' e' Hk' Hty'. destruct Hsame as (-> & _). by apply HP. }
    split; [by constructor|]. split; [by constructor|].
    constructor; [|done].
    unfold in_step. rewrite Hhas. destruct Hsame as (-> & _).
    rewrite (HP h2 e); [done| |by apply (typed_ext h1)].
    eapply store_kept_trans; [exact Hk1|by apply store_kept_ext].
Qed.

(** The engine's callback for an addition, over all queries. *)
Lemma forEachQuery_added fuel h0 (e : Entity) (item : Item) :
  forall (qs : list Query) (h : Heap) (log : list Emission),
  store_kept h0 h ->
  typed h e ->
  event_item h e item ->
  presence e = shadow_view e item ->
  Forall (engine_query h0) qs ->
  exists h1 g1,
    Engine.forEachQuery (Query.entityComponentAdded fuel e item None) qs h log =
      Ok tt (h1, g1) /\
    heap_ext h h1 /\ Forall2 same_query qs (_queries g1) /\
    Forall (engine_query h0) (_queries g1) /\
    Forall (in_step h1 e) (_queries g1).
Proof.
  induction qs as [|q qs IH]; intros h log Hk0 Hty Hev Hv Hq.
  - eexists _, _. split; [done|]. split; [apply heap_ext_refl|]. by repeat split.
  - apply Forall_cons in Hq as [[[P HP] Hnd] Hq].
    destruct (entityComponentAdded_step fuel h0 e item q h P Hk0 Hty Hev HP Hnd)
      as (out & h1 & q1 & Hrun & Hext & Hsame & Hnd1 & Hhas).
    simpl. rewrite Hrun.
    assert (Hk1 : store_kept h0 h1) by (eapply store_kept_trans; [done|by apply store_kept_ext]).
    assert (Hty1 : typed h1 e) by (by apply (typed_ext h)).
    destruct (IH h1 (log ++ out)) as (h2 & g2 & Hrun2 & Hext2 & Hsame2 & Hq2 & Hs2).
    { done. }
    { done. }
    { by apply (event_item_ext h). }
    { done. }
    { done. }
    rewrite Hrun2. eexists _, _. split; [done|].
    split; [by eapply heap_ext_trans|]. cbn [_queries].
    assert (Hpq1 : engine_query h0 q1).
    { split; [|done]. exists P. intros h' e' Hk' Hty'. destruct Hsame as (-> & _). by apply HP. }
    split; [by constructor|]. split; [by constructor|].
    constructor; [|done].
    unfold in_step. rewrite Hhas, <- Hv. destruct Hsame as (-> & _).
    rewrite (HP h2 e); [done| |by apply (typed_ext h1)].
    eapply store_kept_trans; [exact Hk1|by apply store_kept_ext].
Qed.

Lemma Forall2_same_query_refl qs : Forall2 same_query qs qs.
Proof. induction qs; constructor; [apply same_query_refl|done]. Qed.

Lemma Forall2_same_query_trans a b c :
  Forall2 same_query a b -> Forall2 same_query b c -> Forall2 same_query a c.
Proof.
  intros H. revert c. induction H as [|x y l l' Hxy _ IH]; intros c Hc; inversion Hc; subst.
  - constructor.
  - constructor; [by eapply same_query_trans|by apply IH].
Qed.

Section Handlers.

Variable fuel : nat.
Variable e : Entity.
Variable ev : Event.

(** What always holds of the store and the queries, what holds before the
    engine's callback runs, and what holds after it. *)
Variable Good Pre Post : Heap -> list Query -> Prop.

Hypothesis Good_stable : forall h qs log, Good h qs -> Pre h qs \/ Post h qs ->
  exists h1 qs1 log1,
    Engine.handle fuel Engine.callback ev (mkSt h e (mkEngine qs log)) =
      Ok tt (mkSt h1 e (mkEngine qs1 log1)) /\
    heap_ext h h1 /\ Forall2 same_query qs qs1 /\
    Good h1 qs1 /\ Post h1 qs1.

Lemma invoke_engine : forall (hs : list Signal.SignalHandler) h qs log,
  Good h qs -> Pre h qs \/ Post h qs ->
  exists h1 qs1 log1,
    Entity.invoke (Engine.handle fuel) (map (fun it => (Signal.handler it, ev)) hs)
      (mkSt h e (mkEngine qs log)) = Ok tt (mkSt h1 e (mkEngine qs1 log1)) /\
    heap_ext h h1 /\ Forall2 same_query qs qs1 /\ Good h1 qs1 /\
    (Pre h1 qs1 \/ Post h1 qs1) /\
    (Engine.callback ∈ map Signal.handler hs \/ Post h qs -> Post h1 qs1).
Proof.
  induction hs as [|it hs IH]; intros h qs log HG HP.
  - eexists _, _, _. split; [done|]. split; [apply heap_ext_refl|].
    split; [apply Forall2_same_query_refl|]. split; [done|]. split; [done|].
    intros [Hin|Hp]; [by apply elem_of_nil in Hin|done].
  - simpl. unfold bind.
    destruct (Nat.eqb_spec (Signal.handler it) Engine.callback) as [Heq|Hne].
    + rewrite Heq.
      destruct (Good_stable h qs log HG HP) as (h1 & qs1 & log1 & Hrun1 & Hext & Hsame & HG1 & HP1).
      rewrite Hrun1.
      destruct (IH h1 qs1 log1 HG1 (or_intror HP1))
        as (h2 & qs2 & log2 & Hrun2 & Hext2 & Hsame2 & HG2 & HPP2 & Hpost2).
      rewrite Hrun2. eexists _, _, _. split; [done|].
      split; [by eapply heap_ext_trans|]. split; [by eapply Forall2_same_query_trans|].
      split; [done|]. split; [done|]. intros _. apply Hpost2. by right.
    + assert (Hh : Engine.handle fuel (Signal.handler it) ev = ret tt).
      { unfold Engine.handle. by rewrite (proj2 (Nat.eqb_neq _ _) Hne). }
      rewrite Hh. unfold ret.
      destruct (IH h qs log HG HP)
        as (h2 & qs2 & log2 & Hrun2 & Hext2 & Hsame2 & HG2 & HPP2 & Hpost2).
      rewrite Hrun2. eexists _, _, _. split; [done|]. split; [done|]. split; [done|].
      split; [done|]. split; [done|].
      intros [Hin|Hp]; apply Hpost2; [|by right].
      apply elem_of_cons in Hin as [Hin|Hin]; [congruence|by left].
Qed.

End Handlers.

Lemma hasHandlers_elem (s : Signal.Signal) f :
  f ∈ map Signal.handler (Signal.handlers s) -> Signal.hasHandlers s = true.
Proof.
  unfold Signal.hasHandlers. destruct (Signal.handlers s); [|done].
  by intros ?%elem_of_nil.
Qed.

Lemma engine_eta g : mkEngine (_queries g) (delivered g) = g.
Proof. by destruct g. Qed.

(** The queries after a removal on a connected entity has been dispatched. *)
Lemma dispatchRemoved_engine fuel h0 (item : Item) (e e_pre : Entity) (h : Heap) (g : Engine) :
  Engine.callback ∈ map Signal.handler (Signal.handlers (onComponentRemoved e)) ->
  store_kept h0 h ->
  typed h e -> typed h e_pre ->
  event_item h e item ->
  presence e_pre = shadow_view e item ->
  entity_id e_pre = entity_id e ->
  Forall (engine_query h0) (_queries g) ->
  Forall (in_step h e_pre) (_queries g) ->
  exists h1 g1,
    Entity.dispatchOnComponentRemoved (Engine.handle fuel) item (mkSt h e g) =
      Ok tt (mkSt h1 e g1) /\
    heap_ext h h1 /\ Forall2 same_query (_queries g) (_queries g1) /\
    Forall (engine_query h0) (_queries g1) /\
    Forall (in_step h1 e) (_queries g1).
Proof.
  intros Hconn Hk0 Hty Htp Hev Hv Hid Hq Hs.
  unfold Entity.dispatchOnComponentRemoved, bind, getThis. cbn [this].
  rewrite (hasHandlers_elem _ _ Hconn). unfold Signal.emit.
  destruct (invoke_engine fuel e (EvRemoved item)
              (fun h qs => event_item h e item /\ (typed h e /\ typed h e_pre /\ store_kept h0 h) /\
                           Forall (engine_query h0) qs)
              (fun h qs => Forall (in_step h e_pre) qs)
              (fun h qs => Forall (in_step h e) qs))
    with (hs := Signal.handlers (onComponentRemoved e)) (h := h) (qs := _queries g)
         (log := delivered g)
    as (h1 & qs1 & log1 & Hrun & Hext & Hsame & (_ & _ & Hq1) & _ & Hpost).
  - intros h' qs log (Hev' & (Hty' & Htp' & Hk') & Hq') Hpp.
    assert (Hs' : Forall (fun q => in_step h' e_pre q \/ in_step h' e q) qs).
    { destruct Hpp as [H|H]; (eapply Forall_impl; [exact H|]); intros; [by left|by right]. }
    destruct (forEachQuery_removed fuel h0 e e_pre item qs h' log Hk' Hty' Htp' Hev' Hv Hid Hq' Hs')
      as (h1 & g1 & Hrun & Hext & Hsame & Hq1 & Hs1).
    exists h1, (_queries g1), (delivered g1).
    unfold Engine.handle. rewrite Nat.eqb_refl. unfold Engine.route.
    cbn [heap this ext _queries delivered]. rewrite Hrun.
    split; [by rewrite engine_eta|].
    split; [done|]. split; [done|]. split; [|done].
    split; [by apply (event_item_ext h')|]. split; [|done].
    split; [by apply (typed_ext h')|]. split; [by apply (typed_ext h')|].
    eapply store_kept_trans; [exact Hk'|by apply store_kept_ext].
  - split; [done|]. split; [|done]. split; [done|]. by split.
  - by left.
  - rewrite engine_eta in Hrun. rewrite Hrun.
    exists h1, (mkEngine qs1 log1). split; [done|]. split; [done|]. split; [done|].
    split; [done|]. apply Hpost. by left.
Qed.

(** The queries after an addition on a connected entity has been dispatched. *)
Lemma dispatchAdded_engine fuel h0 (item : Item) (e : Entity) (h : Heap) (g : Engine) :
  Engine.callback ∈ map Signal.handler (Signal.handlers (onComponentAdded e)) ->
  store_kept h0 h ->
  typed h e ->
  event_item h e item ->
  presence e = shadow_view e item ->
  Forall (engine_query h0) (_queries g) ->
  exists h1 g1,
    Entity.dispatchOnComponentAdded (Engine.handle fuel) item (mkSt h e g) =
      Ok tt (mkSt h1 e g1) /\
    heap_ext h h1 /\ Forall2 same_query (_queries g) (_queries g1) /\
    Forall (engine_query h0) (_queries g1) /\
    Forall (in_step h1 e) (_queries g1).
Proof.
  intros Hconn Hk0 Hty Hev Hv Hq.
  unfold Entity.dispatchOnComponentAdded, bind, getThis. cbn [this].
  rewrite (hasHandlers_elem _ _ Hconn). unfold Signal.emit.
  destruct (invoke_engine fuel e (EvAdded item)
              (fun h qs => event_item h e item /\ (typed h e /\ store_kept h0 h) /\
                           Forall (engine_query h0) qs)
              (fun h qs => True)
              (fun h qs => Forall (in_step h e) qs))
    with (hs := Signal.handlers (onComponentAdded e)) (h := h) (qs := _queries g)
         (log := delivered g)
    as (h1 & qs1 & log1 & Hrun & Hext & Hsame & (_ & _ & Hq1) & _ & Hpost).
  - intros h' qs log (Hev' & (Hty' & Hk') & Hq') Hpp.
    destruct (forEachQuery_added fuel h0 e item qs h' log Hk' Hty' Hev' Hv Hq')
      as (h1 & g1 & Hrun & Hext & Hsame & Hq1 & Hs1).
    exists h1, (_queries g1), (delivered g1).
    unfold Engine.handle. rewrite Nat.eqb_refl. unfold Engine.route.
    cbn [heap this ext _queries delivered]. rewrite Hrun.
    split; [by rewrite engine_eta|].
    split; [done|]. split; [done|]. split; [|done].
    split; [by apply (event_item_ext h')|]. split; [|done].
    split; [by apply (typed_ext h')|].
    eapply store_kept_trans; [exact Hk'|by apply store_kept_ext].
  - split; [done|]. split; [|done]. by split.
  - by left.
  - rewrite engine_eta in Hrun. rewrite Hrun.
    exists h1, (mkEngine qs1 log1). split; [done|]. split; [done|]. split; [done|].
    split; [done|]. apply Hpost. by left.
Qed.

(** * The store stays well formed *)

Lemma linked_as_refl h : linked_as h h.
Proof. done. Qed.

Lemma linked_as_trans h0 h1 h2 : linked_as h0 h1 -> linked_as h1 h2 -> linked_as h0 h2.
Proof. intros H1 H2 c. by rewrite H2, H1. Qed.

Lemma linked_as_ext h h1 : heap_ext h h1 -> linked_as h h1.
Proof. intros He c. by apply isLinkedComponent_ext. Qed.

Lemma next_of_ext h h1 c : heap_ext h h1 -> next_of h1 c = next_of h c.
Proof. intros He. unfold next_of. by rewrite (ext_next _ _ He). Qed.

Lemma wf_store_ext h h1 e : heap_ext h h1 -> wf_store h e -> wf_store h1 e.
Proof.
  intros He [Hslot Hlink Hlist Hinj Hhead Hnext Hids Hidsinj].
  pose proof (ext_ids _ _ He) as Ei. pose proof (ext_next_id _ _ He) as En.
  pose proof (ext_heads _ _ He) as Eh. pose proof (ext_count _ _ He) as Ec.
  split.
  - intros i c Hc. rewrite Ei. eauto.
  - intros i c Hc Hl. rewrite (isLinkedComponent_ext h h1 c He) in Hl.
    destruct (Hlink i c Hc Hl) as (L & HL & Hh). exists L. split; [done|].
    rewrite Eh; [done|]. by apply (Hlist i).
  - intros i L HL. destruct (Hlist i L HL). rewrite En. lia.
  - done.
  - intros i L c HL Hh. rewrite Eh in Hh by (by apply (Hlist i)).
    rewrite Ei, (isLinkedComponent_ext h h1 c He). eauto.
  - intros a b Hab. rewrite (next_of_ext h h1 a He) in Hab.
    rewrite (isLinkedComponent_ext h h1 b He). eauto.
  - intros n i. rewrite Ei, En. eauto.
  - intros n m i. rewrite Ei. eauto.
Qed.

(** Assigning an id to a class. *)
Lemma wf_store_register h e K i h0 :
  wf_store h e ->
  ComponentId.getComponentId K true h = (Some i, h0) ->
  wf_store h0 e /\ componentIds h0 !! class_name K = Some i /\ linked_as h h0 /\
  store_kept h h0.
Proof.
  intros Hwf Hg. unfold ComponentId.getComponentId in Hg.
  destruct (componentIds h !! class_name K) as [j|] eqn:Hj.
  - simplify_eq. split; [done|]. split; [done|]. split; [done|]. split; [|done].
    by intros n k.
  - simplify_eq.
    destruct Hwf as [Hslot Hlink Hlist Hinj Hhead Hnext Hids Hidsinj].
    assert (Hkeep : forall n j, componentIds h !! n = Some j ->
              <[class_name K := componentClassId h]> (componentIds h) !! n = Some j).
    { intros n j Hn. rewrite lookup_insert_ne; [done|]. intros Heq. congruence. }
    split; [|split; [apply lookup_insert_eq|split; [done|by split]]].
    split; simpl.
    + intros i c Hc. apply Hkeep. eauto.
    + done.
    + intros i L HL. destruct (Hlist i L HL). lia.
    + done.
    + intros i L c HL Hh. destruct (Hhead i L c HL Hh). split; [by apply Hkeep|done].
    + done.
    + intros n i. destruct (decide (class_name K = n)) as [<-|Hne].
      * rewrite lookup_insert_eq. intros [= <-]. lia.
      * rewrite lookup_insert_ne by done. intros Hn. apply Hids in Hn. lia.
    + intros n m i.
      destruct (decide (class_name K = n)) as [<-|Hn];
        destruct (decide (class_name K = m)) as [<-|Hm];
        rewrite ?lookup_insert_eq, ?lookup_insert_ne by done; try done.
      * intros [= <-] Hm'. apply Hids in Hm'. lia.
      * intros Hn' [= <-]. apply Hids in Hn'. lia.
      * eauto.
Qed.

Lemma wf_store_tags h e t : wf_store h e -> wf_store h (set_tags t e).
Proof. intros [? ? ? ? ? ? ? ?]. by split. Qed.

Lemma wf_store_delete h e i : wf_store h e -> wf_store h (set_components (delete i (_components e)) e).
Proof.
  intros [Hslot Hlink Hlist Hinj Hhead Hnext Hids Hidsinj]. split; simpl; try done.
  - intros j c Hc. apply lookup_delete_Some in Hc as [_ Hc]. eauto.
  - intros j c Hc. apply lookup_delete_Some in Hc as [_ Hc]. eauto.
Qed.

Lemma wf_store_set_plain h e i c :
  wf_store h e ->
  componentIds h !! class_name (comp_class c) = Some i ->
  isLinkedComponent h c = false ->
  wf_store h (set_components (<[i := c]> (_components e)) e).
Proof.
  intros [Hslot Hlink Hlist Hinj Hhead Hnext Hids Hidsinj] Hid Hl. split; simpl; try done.
  - intros j d Hd. apply lookup_insert_Some in Hd as [[<- <-]|[_ Hd]]; eauto.
  - intros j d Hd Hld. apply lookup_insert_Some in Hd as [[<- <-]|[_ Hd]]; [congruence|eauto].
Qed.

Lemma isLinkedComponent_set_head L o h c :
  isLinkedComponent (set_head L o h) c = isLinkedComponent h c.
Proof. done. Qed.

Lemma next_of_set_head L o h c : next_of (set_head L o h) c = next_of h c.
Proof. done. Qed.

(** The store after the head of a list is withdrawn. *)
Lemma wf_store_withdraw_head h e i L c :
  wf_store h e ->
  _components e !! i = Some c ->
  _linkedComponents e !! i = Some L ->
  list_head h !! L = Some c ->
  wf_store (set_head L (next_of h c) h)
    (match next_of h c with
     | Some c' => set_components (<[i := c']> (_components e)) e
     | None => set_linkedComponents (delete i (_linkedComponents e))
                 (set_components (delete i (_components e)) e)
     end).
Proof.
  intros [Hslot Hlink Hlist Hinj Hhead Hnext Hids Hidsinj] Hc HL Hh.
  assert (Hother : forall j L', _linkedComponents e !! j = Some L' -> j <> i -> L' <> L).
  { intros j L' Hj Hne ->. apply Hne. by eapply Hinj. }
  destruct (Hhead i L c HL Hh) as [Hcid Hcl].
  destruct (next_of h c) as [c'|] eqn:Hn.
  - destruct (Hnext c c' Hn) as [Hname Hl'].
    split; simpl; try setoid_rewrite isLinkedComponent_set_head;
      try setoid_rewrite next_of_set_head; try done.
    + intros j d Hd. apply lookup_insert_Some in Hd as [[<- <-]|[_ Hd]]; [|eauto].
      by rewrite <- Hname.
    + intros j d Hd Hld. apply lookup_insert_Some in Hd as [[<- <-]|[Hne Hd]].
      * exists L. split; [done|apply lookup_insert_eq].
      * destruct (Hlink j d Hd Hld) as (L' & HL' & Hh'). exists L'. split; [done|].
        rewrite lookup_insert_ne; [done|]. intros <-. by apply (Hother j L).
    + intros j L' d HL' Hd. destruct (decide (L' = L)) as [->|Hne].
      * rewrite lookup_insert_eq in Hd. injection Hd as <-.
        rewrite (Hinj j i L HL' HL). by rewrite <- Hname.
      * rewrite lookup_insert_ne in Hd by done. eauto.
  - split; simpl; try setoid_rewrite isLinkedComponent_set_head;
      try setoid_rewrite next_of_set_head; try done.
    + intros j d Hd. apply lookup_delete_Some in Hd as [_ Hd]. eauto.
    + intros j d Hd Hld. apply lookup_delete_Some in Hd as [Hne Hd].
      destruct (Hlink j d Hd Hld) as (L' & HL' & Hh'). exists L'.
      split; [by rewrite lookup_delete_ne|].
      rewrite lookup_delete_ne; [done|]. intros <-. by apply (Hother j L).
    + intros j L' HL'. apply lookup_delete_Some in HL' as [_ HL']. eauto.
    + intros j k L' Hj Hk. apply lookup_delete_Some in Hj as [_ Hj].
      apply lookup_delete_Some in Hk as [_ Hk]. eauto.
    + intros j L' d HL' Hd. apply lookup_delete_Some in HL' as [Hne HL'].
      rewrite lookup_delete_ne in Hd; [eauto|]. intros <-. by apply (Hother j L).
Qed.

(** ** Appending *)

Lemma node_ok_next h e i d d' :
  wf_store h e -> node_ok h i d -> next_of h d = Some d' -> node_ok h i d'.
Proof.
  intros Hwf [Hl Hid] Hn. destruct (wf_next _ _ Hwf d d' Hn) as [Hname Hl'].
  split; [done|]. by rewrite <- Hname.
Qed.

Lemma add_loop_result h e i c : forall fuel prev cur,
  wf_store h e ->
  (forall d, cur = Some d -> node_ok h i d) ->
  (forall d, prev = Some d -> node_ok h i d) ->
  match LinkedComponentList.add_loop fuel c prev cur h with
  | Ok p h' => h' = h /\ (forall d, p = Some d -> node_ok h i d) /\
               (is_Some prev \/ is_Some cur -> is_Some p)
  | Throw _ h' => h' = h
  | OutOfFuel => True
  end.
Proof.
  induction fuel as [|f IH]; intros prev cur Hwf Hcur Hprev.
  - destruct cur as [d|]; simpl.
    + destruct (decide (d = c)); done.
    + split; [done|]. split; [done|]. intros [?|[? ?]]; done.
  - destruct cur as [d|]; simpl.
    + destruct (decide (d = c)); [done|].
      specialize (IH (Some d) (next_of h d) Hwf).
      destruct (LinkedComponentList.add_loop f c (Some d) (next_of h d) h) as [p h'|err h'|].
      * destruct IH as (-> & Hp & Hsome).
        { intros d' Hd'. eapply node_ok_next; eauto. }
        { intros ? [= <-]. eauto. }
        split; [done|]. split; [done|]. intros _. apply Hsome. left. eauto.
      * apply IH.
        { intros d' Hd'. eapply node_ok_next; eauto. }
        { intros ? [= <-]. eauto. }
      * done.
    + split; [done|]. split; [done|]. intros [?|[? ?]]; done.
Qed.

(** What [LinkedComponentList.add] does to the store. *)
Lemma list_add_result h e i L c fuel :
  wf_store h e -> _linkedComponents e !! i = Some L ->
  match LinkedComponentList.add fuel L c h with
  | Ok _ h' =>
      (list_head h !! L = None /\ h' = set_head L (Some c) h) \/
      (exists p, is_Some (list_head h !! L) /\ node_ok h i p /\ h' = set_next p (Some c) h)
  | Throw _ h' => h' = h
  | OutOfFuel => True
  end.
Proof.
  intros Hwf HL. unfold LinkedComponentList.add, LinkedComponentList.head.
  pose proof (add_loop_result h e i c fuel None (list_head h !! L) Hwf) as Hloop.
  destruct (LinkedComponentList.add_loop fuel c None (list_head h !! L) h) as [p h'|err h'|];
    [|apply Hloop|done].
  - destruct Hloop as (-> & Hp & Hsome).
    { intros d Hd. destruct (wf_head _ _ Hwf i L d HL Hd). by split. }
    { done. }
    destruct (list_head h !! L) as [d0|] eqn:Hh.
    + destruct Hsome as [p' ->]; [right; eauto|].
      right. exists p'. split; [eauto|]. split; [by apply Hp|done].
    + by left.
  - intros d Hd. destruct (wf_head _ _ Hwf i L d HL Hd). by split.
  - done.
Qed.

Lemma isLinkedComponent_set_next_linked h p v d :
  isLinkedComponent h p = true ->
  isLinkedComponent (set_next p v h) d = isLinkedComponent h d.
Proof.
  intros Hp. unfold isLinkedComponent in *. simpl.
  destruct (decide (p = d)) as [->|Hne].
  - rewrite lookup_insert_eq. rewrite Hp. by apply bool_decide_eq_true_2.
  - by rewrite lookup_insert_ne.
Qed.

(** The store after an instance is linked behind [p]. *)
Lemma wf_store_set_next h e i p c :
  wf_store h e -> node_ok h i p -> node_ok h i c ->
  wf_store (set_next p (Some c) h) e /\ linked_as h (set_next p (Some c) h).
Proof.
  intros [Hslot Hlink Hlist Hinj Hhead Hnext Hids Hidsinj] [Hpl Hpid] [Hcl Hcid].
  assert (Hlk : linked_as h (set_next p (Some c) h)).
  { intros d. by apply isLinkedComponent_set_next_linked. }
  split; [|done]. split; simpl; try done.
  - intros j d Hd Hld. rewrite Hlk in Hld. eauto.
  - intros j L d HL Hd. rewrite Hlk. eauto.
  - intros a b Hab. rewrite Hlk. destruct (decide (a = p)) as [->|Hne].
    + rewrite next_of_set_next_eq in Hab. injection Hab as <-. split; [|done].
      by apply (Hidsinj _ _ i).
    + rewrite next_of_set_next_ne in Hab by done. eauto.
Qed.

(** The store after an instance becomes the head of an empty list. *)
Lemma wf_store_set_head_empty h e i L c :
  wf_store h e -> _linkedComponents e !! i = Some L -> list_head h !! L = None ->
  node_ok h i c ->
  wf_store (set_head L (Some c) h) e.
Proof.
  intros [Hslot Hlink Hlist Hinj Hhead Hnext Hids Hidsinj] HL Hh [Hcl Hcid].
  split; simpl; try setoid_rewrite isLinkedComponent_set_head;
    try setoid_rewrite next_of_set_head; try done.
  - intros j d Hd Hld. destruct (Hlink j d Hd Hld) as (L' & HL' & Hh'). exists L'.
    split; [done|]. rewrite lookup_insert_ne; [done|]. intros <-. congruence.
  - intros j L' d HL' Hd. destruct (decide (L' = L)) as [->|Hne].
    + rewrite lookup_insert_eq in Hd. injection Hd as <-.
      by rewrite (Hinj j i L HL' HL).
    + rewrite lookup_insert_ne in Hd by done. eauto.
Qed.

(** The slot of a list's id takes the head of the list. *)
Lemma wf_store_slot_head h e i L d :
  wf_store h e -> _linkedComponents e !! i = Some L -> list_head h !! L = Some d ->
  wf_store h (set_components (<[i := d]> (_components e)) e).
Proof.
  intros [Hslot Hlink Hlist Hinj Hhead Hnext Hids Hidsinj] HL Hh.
  destruct (Hhead i L d HL Hh) as [Hdid Hdl].
  split; simpl; try done.
  - intros j d' Hd'. apply lookup_insert_Some in Hd' as [[<- <-]|[_ Hd']]; eauto.
  - intros j d' Hd' Hld. apply lookup_insert_Some in Hd' as [[<- <-]|[_ Hd']]; eauto.
Qed.

(** The store after a list is allocated for id [i] with head [c]. *)
Lemma wf_store_alloc h e i c :
  wf_store h e -> _linkedComponents e !! i = None -> node_ok h i c ->
  wf_store (set_head (list_count h) (Some c) (snd (alloc_list h)))
           (set_linkedComponents (<[i := list_count h]> (_linkedComponents e)) e).
Proof.
  intros [Hslot Hlink Hlist Hinj Hhead Hnext Hids Hidsinj] HL [Hcl Hcid].
  assert (Hold : forall j L, _linkedComponents e !! j = Some L -> L <> list_count h).
  { intros j L Hj ->. destruct (Hlist j _ Hj). lia. }
  split; simpl; try done.
  - intros j d Hd Hld.
    assert (j <> i).
    { intros ->. destruct (Hlink i d Hd Hld) as (L & HL' & _). congruence. }
    destruct (Hlink j d Hd Hld) as (L & HL' & Hh). exists L.
    rewrite lookup_insert_ne by done. split; [done|].
    rewrite lookup_insert_ne by (by intros <-; eapply Hold).
    rewrite lookup_delete_ne by (by intros <-; eapply Hold). done.
  - intros j L Hj. apply lookup_insert_Some in Hj as [[<- <-]|[_ Hj]].
    + split; [lia|]. by apply (Hids _ _ Hcid).
    + destruct (Hlist j L Hj). lia.
  - intros j k L Hj Hk.
    apply lookup_insert_Some in Hj as [[<- <-]|[Hnj Hj]];
      apply lookup_insert_Some in Hk as [[<- Hk]|[Hnk Hk]]; try done.
    + exfalso. by eapply Hold.
    + exfalso. symmetry in Hk. by eapply Hold.
    + eauto.
  - intros j L d Hj Hd. apply lookup_insert_Some in Hj as [[<- <-]|[Hnj Hj]].
    + rewrite lookup_insert_eq in Hd. by injection Hd as <-.
    + rewrite lookup_insert_ne in Hd by (by intros <-; eapply Hold).
      rewrite lookup_delete_ne in Hd by (by intros <-; eapply Hold). eauto.
Qed.

(** * The queries stay in step with a connected entity *)

Lemma wf_typed h e : wf_store h e -> typed h e.
Proof. intros Hwf. split; apply Hwf. Qed.

Lemma typed_ids h h1 e :
  componentIds h1 = componentIds h -> typed h e -> typed h1 e.
Proof. intros Hi [Hs Hj]. split; rewrite Hi; eauto. Qed.

Lemma in_step_any h0 h h' e q :
  store_kept h0 h -> store_kept h0 h' ->
  typed h e -> typed h' e -> engine_query h0 q -> in_step h e q -> in_step h' e q.
Proof.
  intros Hk Hk' Hty Hty' [Hp _].
  by apply (in_step_presence h0); [|apply same_query_refl| | | | | |].
Qed.

Lemma Forall_in_step_any h0 h h' e qs :
  store_kept h0 h -> store_kept h0 h' ->
  typed h e -> typed h' e ->
  Forall (engine_query h0) qs -> Forall (in_step h e) qs -> Forall (in_step h' e) qs.
Proof.
  intros Hk Hk' Hty Hty' Hq Hs. apply Forall_forall. intros q Hin.
  rewrite Forall_forall in Hq. rewrite Forall_forall in Hs.
  apply (in_step_any h0 h h' e q Hk Hk' Hty Hty'); eauto.
Qed.

(** An entity that has a slot for the type of an instance shows the
    presence its shadow shows for that instance. *)
Lemma presence_has h e i c :
  typed h e -> componentIds h !! class_name (comp_class c) = Some i ->
  is_Some (_components e !! i) -> presence e = shadow_view e (IComp c).
Proof.
  intros Hty Hid [d Hd]. unfold presence, shadow_view. f_equal.
  rewrite <- (typed_same_name h e i c d Hty Hid Hd). symmetry. by apply (names_has i).
Qed.

Section World.

Variable fuel : nat.
Variable h0 : Heap.
Variable qs0 : list Query.

(** The state with another store. *)
Lemma world_ok_store (s : St Engine) h1 :
  world_ok h0 qs0 s -> wf_store h1 (this s) -> linked_as (heap s) h1 ->
  store_kept (heap s) h1 ->
  world_ok h0 qs0 (mkSt h1 (this s) (ext s)).
Proof.
  intros [Hst Hc Hl Hi Hsm Hq Hs] Hwf Hlk Hk.
  assert (Hi1 : store_kept h0 h1) by (by eapply store_kept_trans).
  split; simpl; try done.
  - by eapply linked_as_trans.
  - eapply (Forall_in_step_any h0 (heap s));
      [done|done|by apply wf_typed, Hst|by apply wf_typed|done|done].
Qed.

(** A removal that has been done on the entity is dispatched. *)
Lemma removed_transition (s : St Engine) h1 e1 item :
  world_ok h0 qs0 s -> wf_store h1 e1 -> linked_as (heap s) h1 ->
  entity_id e1 = entity_id (this s) ->
  onComponentAdded e1 = onComponentAdded (this s) ->
  onComponentRemoved e1 = onComponentRemoved (this s) ->
  event_item h1 e1 item ->
  presence (this s) = shadow_view e1 item ->
  componentIds h1 = componentIds (heap s) ->
  builders h1 = builders (heap s) ->
  exists s',
    Entity.dispatchOnComponentRemoved (Engine.handle fuel) item (mkSt h1 e1 (ext s)) =
      Ok tt s' /\
    world_ok h0 qs0 s' /\ this s' = e1 /\ heap_ext h1 (heap s').
Proof.
  intros [Hst [Hca Hcr] Hl Hi Hsm Hq Hs] Hwf Hlk Hid Hsa Hsr Hev Hv Hids Hbs.
  assert (Hty : typed (heap s) (this s)) by (by apply wf_typed).
  assert (Htp : typed h1 (this s)) by (by apply (typed_ids (heap s))).
  assert (Hi1 : store_kept h0 h1).
  { split; [intros n j Hn; rewrite Hids; by apply Hi|]. rewrite Hbs. apply Hi. }
  destruct (dispatchRemoved_engine fuel h0 item e1 (this s) h1 (ext s))
    as (h2 & g2 & Hrun & Hext & Hsame & Hq2 & Hs2); try done.
  - by rewrite Hsr.
  - by apply wf_typed.
  - by apply (Forall_in_step_any h0 (heap s)).
  - exists (mkSt h2 e1 g2). split; [done|]. split; [|by split].
    split; simpl.
    + by apply (wf_store_ext h1).
    + split; [by rewrite Hsa|by rewrite Hsr].
    + eapply linked_as_trans; [|by apply linked_as_ext].
      by eapply linked_as_trans.
    + eapply store_kept_trans; [exact Hi1|by apply store_kept_ext].
    + by eapply Forall2_same_query_trans.
    + done.
    + done.
Qed.

(** An addition that has been done on the entity is dispatched. *)
Lemma added_transition (s : St Engine) h1 e1 item :
  world_ok h0 qs0 s -> wf_store h1 e1 -> linked_as (heap s) h1 ->
  entity_id e1 = entity_id (this s) ->
  onComponentAdded e1 = onComponentAdded (this s) ->
  onComponentRemoved e1 = onComponentRemoved (this s) ->
  event_item h1 e1 item ->
  presence e1 = shadow_view e1 item ->
  store_kept (heap s) h1 ->
  exists s',
    Entity.dispatchOnComponentAdded (Engine.handle fuel) item (mkSt h1 e1 (ext s)) =
      Ok tt s' /\
    world_ok h0 qs0 s' /\ this s' = e1 /\ heap_ext h1 (heap s').
Proof.
  intros [Hst [Hca Hcr] Hl Hi Hsm Hq Hs] Hwf Hlk Hid Hsa Hsr Hev Hv Hk.
  assert (Hi1 : store_kept h0 h1) by (by eapply store_kept_trans).
  destruct (dispatchAdded_engine fuel h0 item e1 h1 (ext s))
    as (h2 & g2 & Hrun & Hext & Hsame & Hq2 & Hs2); try done.
  - by rewrite Hsa.
  - by apply wf_typed.
  - exists (mkSt h2 e1 g2). split; [done|]. split; [|by split].
    split; simpl.
    + by apply (wf_store_ext h1).
    + split; [by rewrite Hsa|by rewrite Hsr].
    + eapply linked_as_trans; [|by apply linked_as_ext].
      by eapply linked_as_trans.
    + eapply store_kept_trans; [exact Hi1|by apply store_kept_ext].
    + by eapply Forall2_same_query_trans.
    + done.
    + done.
Qed.

Lemma keeps_ret {A} (a : A) : keeps h0 qs0 (ret a).
Proof. intros s Hs. simpl. split; [done|apply store_kept_refl]. Qed.

Lemma keeps_throw {A} err : keeps h0 qs0 (@throw Engine A err).
Proof. intros s Hs. simpl. split; [done|apply store_kept_refl]. Qed.

Lemma keeps_out_of_fuel {A} : keeps h0 qs0 (@out_of_fuel Engine A).
Proof. by intros s Hs. Qed.

Lemma keeps_bind {A B} (m : M Engine A) (k : A -> M Engine B) :
  keeps h0 qs0 m -> (forall a, keeps h0 qs0 (k a)) -> keeps h0 qs0 (bind m k).
Proof.
  intros Hm Hk s Hs. unfold bind. specialize (Hm s Hs).
  destruct (m s) as [a s'|err s'|]; [|done|done].
  destruct Hm as [Hs' Hi]. specialize (Hk a s' Hs').
  destruct (k a s') as [b s''|err s''|]; [| |done];
    (destruct Hk as [Hs'' Hi']; split; [done|by eapply store_kept_trans]).
Qed.

Lemma keeps_bump z : keeps h0 qs0 (Entity.bumpNumberComponents z).
Proof.
  intros s Hs. unfold Entity.bumpNumberComponents, bind, getHeap, setHeap. simpl.
  split; [|by apply store_kept_same].
  apply (world_ok_store s);
    [done| |apply linked_as_ext, heap_ext_bump|by apply store_kept_same].
  apply (wf_store_ext (heap s)); [apply heap_ext_bump|apply Hs].
Qed.

Lemma st_eta (s : St Engine) : mkSt (heap s) (this s) (ext s) = s.
Proof. by destruct s. Qed.

Lemma keeps_addTag t : keeps h0 qs0 (Entity.addTag (Engine.handle fuel) t).
Proof.
  intros s Hs. rewrite <- (st_eta s).
  destruct (Entity.hasTag (this s) t) eqn:Ht.
  - rewrite addTag_present by done. rewrite st_eta. split; [done|apply store_kept_refl].
  - rewrite addTag_absent by done. unfold bind.
    destruct (added_transition s (heap s) (set_tags ({[t]} ∪ _tags (this s)) (this s)) (ITag t))
      as (s' & Hrun & Hs' & _ & Hext); try done.
    + apply wf_store_tags, Hs.
    + unfold presence. simpl. f_equal. set_solver.
    + apply store_kept_refl.
    + rewrite Hrun. pose proof (keeps_bump 1 s' Hs') as Hb.
      destruct (Entity.bumpNumberComponents 1 s') as [[] s''|err s''|]; [| |done];
        (destruct Hb as [Hs'' Hi]; split; [done|]; simpl;
         eapply store_kept_trans; [by apply store_kept_ext|done]).
Qed.

Lemma keeps_removeTag t : keeps h0 qs0 (Entity.removeTag (Engine.handle fuel) t).
Proof.
  intros s Hs. rewrite <- (st_eta s).
  destruct (Entity.hasTag (this s) t) eqn:Ht.
  - rewrite removeTag_present by done.
    destruct (removed_transition s (heap s) (set_tags (_tags (this s) ∖ {[t]}) (this s)) (ITag t))
      as (s' & Hrun & Hs' & _ & Hext); try done.
    + apply wf_store_tags, Hs.
    + unfold presence. simpl. f_equal.
      unfold Entity.hasTag in Ht. apply bool_decide_eq_true in Ht.
      apply set_eq. intros t'. rewrite elem_of_union, elem_of_difference, elem_of_singleton.
      destruct (decide (t' = t)); naive_solver.
    + rewrite Hrun. split; [done|]. by apply store_kept_ext.
  - rewrite removeTag_absent by done. rewrite st_eta. split; [done|apply store_kept_refl].
Qed.


(** Removing the instance of a slot that is not a linked component. *)
Lemma plain_removal f (s : St Engine) K i value :
  world_ok h0 qs0 s ->
  componentIds (heap s) !! class_name K = Some i ->
  _components (this s) !! i = Some value ->
  isLinkedComponent (heap s) value = false ->
  match Entity.removeComponent (Engine.handle fuel) f K s with
  | Ok _ s' => world_ok h0 qs0 s' /\ store_kept (heap s) (heap s')
  | Throw _ s' => world_ok h0 qs0 s' /\ store_kept (heap s) (heap s')
  | OutOfFuel => True
  end.
Proof.
  intros Hs Hid Hslot Hl. rewrite <- (st_eta s).
  rewrite (removeComponent_plain (Engine.handle fuel) f (heap s) (this s) (ext s) K i value)
    by done.
  unfold bind.
  destruct (removed_transition s (heap s)
              (set_components (delete i (_components (this s))) (this s)) (IComp value))
    as (s' & Hrun & Hs' & _ & Hext); try done.
  - apply wf_store_delete, Hs.
  - simpl. exists i. split; [by apply (wf_slot _ _ (wo_store _ _ _ Hs) i)|].
    rewrite Hl. left. apply lookup_delete_eq.
  - unfold presence. simpl. f_equal. by apply names_lookup.
  - rewrite Hrun. simpl. split; [done|]. by apply store_kept_ext.
Qed.

(** Withdrawing a class, given that the [removeComponent] it falls back on
    keeps the invariant. *)
Lemma keeps_withdraw_with rm f K :
  (forall K', keeps h0 qs0 (rm K')) ->
  keeps h0 qs0 (Entity.withdraw_with (Engine.handle fuel) rm f K).
Proof.
  intros Hrm s Hs. unfold Entity.withdraw_with. unfold bind at 1 2. unfold getThis, getHeap.
  destruct (Entity.get (heap s) (this s) K) as [c|] eqn:Hget;
    [|split; [done|apply store_kept_refl]].
  unfold Entity.get in Hget. rewrite getComponentId_read in Hget. simpl in Hget.
  destruct (componentIds (heap s) !! class_name K) as [i|] eqn:Hid; [|done].
  destruct (ComponentId.getComponentClass c (Some K)) as [err|K'] eqn:HK.
  { unfold Entity.withdrawComponent_with. rewrite HK. simpl.
    split; [done|apply store_kept_refl]. }
  assert (K' = K) as ->.
  { unfold ComponentId.getComponentClass in HK.
    destruct (instanceOf c K || bool_decide (comp_class c = K)); congruence. }
  destruct (isLinkedComponent (heap s) c) eqn:Hl.
  - destruct (wf_link _ _ (wo_store _ _ _ Hs) i c Hget Hl) as (L & HL & Hh).
    rewrite <- (st_eta s).
    rewrite (withdrawComponent_head (Engine.handle fuel) rm f (heap s) (this s) (ext s) K i L c)
      by done.
    unfold bind.
    pose proof (wf_store_withdraw_head _ _ i L c (wo_store _ _ _ Hs) Hget HL Hh) as Hwf.
    pose proof (wf_slot _ _ (wo_store _ _ _ Hs) i c Hget) as Hcid.
    destruct (removed_transition s (set_head L (next_of (heap s) c) (heap s))
                (match next_of (heap s) c with
                 | Some c' => set_components (<[i := c']> (_components (this s))) (this s)
                 | None => set_linkedComponents (delete i (_linkedComponents (this s)))
                             (set_components (delete i (_components (this s))) (this s))
                 end) (IComp c))
      as (s' & Hrun & Hs' & _ & Hext); try done.
    + by destruct (next_of (heap s) c).
    + by destruct (next_of (heap s) c).
    + by destruct (next_of (heap s) c).
    + simpl. exists i. split; [by destruct (next_of (heap s) c)|].
      rewrite isLinkedComponent_set_head, Hl.
      destruct (next_of (heap s) c); simpl.
      * left. rewrite lookup_insert_eq. eauto.
      * right. apply lookup_delete_eq.
    + unfold presence, shadow_view.
      destruct (next_of (heap s) c) as [c'|] eqn:Hnext; simpl; f_equal.
      * destruct (wf_next _ _ (wo_store _ _ _ Hs) c c' Hnext) as [Hn _].
        rewrite names_insert, (names_lookup i c _ Hget), Hn. set_solver.
      * by apply names_lookup.
    + rewrite Hrun. simpl. split; [done|].
      apply (store_kept_trans _ (set_head L (next_of (heap s) c) (heap s)));
        [by apply store_kept_same|by apply store_kept_ext].
  - unfold Entity.withdrawComponent_with. rewrite HK.
    unfold bind at 1 2. unfold orThrow, ret at 1, getHeap. rewrite Hl. cbn [negb].
    apply (keeps_bind (Entity.bumpNumberComponents (-1)) (fun _ => rm K));
      [apply keeps_bump|intros _; apply Hrm|done].
Qed.

Lemma keeps_while {A} n L (body : M Engine A) :
  keeps h0 qs0 body -> keeps h0 qs0 (Entity.while_not_empty n L body).
Proof.
  intros Hb. induction n as [|n IH]; intros s Hs; simpl.
  - destruct (LinkedComponentList.isEmpty L (heap s)); [|done].
    split; [done|apply store_kept_refl].
  - destruct (LinkedComponentList.isEmpty L (heap s)).
    + split; [done|apply store_kept_refl].
    + by apply (keeps_bind body (fun _ => Entity.while_not_empty n L body)).
Qed.

Lemma keeps_removeComponent : forall f K,
  keeps h0 qs0 (Entity.removeComponent (Engine.handle fuel) f K).
Proof.
  induction f as [|f IH]; intros K s Hs.
  - destruct (componentIds (heap s) !! class_name K) as [i|] eqn:Hid.
    2:{ simpl. unfold bind, getThis, getHeap. rewrite getComponentId_read, Hid. simpl.
        split; [done|apply store_kept_refl]. }
    destruct (_components (this s) !! i) as [value|] eqn:Hslot.
    2:{ simpl. unfold bind, getThis, getHeap. rewrite getComponentId_read, Hid. simpl.
        rewrite Hslot. split; [done|apply store_kept_refl]. }
    destruct (isLinkedComponent (heap s) value) eqn:Hl; [|by eapply plain_removal].
    destruct (wf_link _ _ (wo_store _ _ _ Hs) i value Hslot Hl) as (L & HL & Hh).
    simpl. unfold bind at 1 2, getThis, getHeap. rewrite getComponentId_read, Hid. simpl.
    rewrite Hslot, Hl. unfold bind at 1. unfold Entity.getLinkedComponentList, bind at 1, getThis.
    rewrite HL. unfold ret at 1. unfold bind, getHeap.
    destruct (LinkedComponentList.isEmpty L (heap s)); [|done].
    split; [done|apply store_kept_refl].
  - destruct (componentIds (heap s) !! class_name K) as [i|] eqn:Hid.
    2:{ simpl. unfold bind, getThis, getHeap. rewrite getComponentId_read, Hid. simpl.
        split; [done|apply store_kept_refl]. }
    destruct (_components (this s) !! i) as [value|] eqn:Hslot.
    2:{ simpl. unfold bind, getThis, getHeap. rewrite getComponentId_read, Hid. simpl.
        rewrite Hslot. split; [done|apply store_kept_refl]. }
    destruct (isLinkedComponent (heap s) value) eqn:Hl; [|by eapply plain_removal].
    destruct (wf_link _ _ (wo_store _ _ _ Hs) i value Hslot Hl) as (L & HL & Hh).
    simpl. unfold bind at 1 2, getThis, getHeap. rewrite getComponentId_read, Hid. simpl.
    rewrite Hslot, Hl. unfold bind at 1. unfold Entity.getLinkedComponentList, bind at 1, getThis.
    rewrite HL. unfold ret at 1.
    apply (keeps_bind
             (Entity.while_not_empty f L
                (Entity.withdraw_with (Engine.handle fuel)
                   (Entity.removeComponent (Engine.handle fuel) f) f K))
             (fun _ => ret (Some value))); [| |done].
    + apply keeps_while. apply keeps_withdraw_with. exact IH.
    + intros _. apply keeps_ret.
Qed.

Lemma keeps_remove f k : keeps h0 qs0 (Entity.remove (Engine.handle fuel) f k).
Proof.
  unfold Entity.remove, Entity.remove_with.
  apply keeps_bind; [apply keeps_bump|]. intros _.
  destruct k as [t|K].
  - apply keeps_bind; [apply keeps_removeTag|]. intros _. apply keeps_ret.
  - apply keeps_removeComponent.
Qed.

Lemma keeps_withdraw f K : keeps h0 qs0 (Entity.withdraw (Engine.handle fuel) f K).
Proof. apply keeps_withdraw_with. apply keeps_removeComponent. Qed.


(** Appending the first instance of a list: the list is allocated. *)
Lemma fresh_append (s : St Engine) c i h1 :
  world_ok h0 qs0 s -> wf_store h1 (this s) -> linked_as (heap s) h1 ->
  store_kept (heap s) h1 ->
  node_ok h1 i c ->
  _linkedComponents (this s) !! i = None ->
  let L := list_count h1 in
  let e1 := set_linkedComponents (<[i := L]> (_linkedComponents (this s))) (this s) in
  match Entity.dispatchOnComponentAdded (Engine.handle fuel) (IComp c)
          (mkSt (set_head L (Some c) (snd (alloc_list h1)))
             (match _components (this s) !! i with
              | Some _ => e1
              | None => set_components (<[i := c]> (_components (this s))) e1
              end) (ext s)) with
  | Ok _ s' => world_ok h0 qs0 s' /\ store_kept (heap s) (heap s')
  | Throw _ s' => world_ok h0 qs0 s' /\ store_kept (heap s) (heap s')
  | OutOfFuel => True
  end.
Proof.
  intros Hs Hwf Hlk Hik Hc HL L e1.
  pose proof (wf_store_alloc h1 (this s) i c Hwf HL Hc) as Hwf1. fold L e1 in Hwf1.
  set (h2 := set_head L (Some c) (snd (alloc_list h1))) in *.
  assert (Hext : heap_ext h1 h2) by apply heap_ext_alloc.
  assert (Hc2 : node_ok h2 i c).
  { destruct Hc as [Hcl Hcid]. split; [by rewrite (isLinkedComponent_ext h1 h2 c Hext)|].
    by rewrite (ext_ids _ _ Hext). }
  set (e2 := match _components (this s) !! i with
             | Some _ => e1
             | None => set_components (<[i := c]> (_components (this s))) e1
             end).
  assert (Hwf2 : wf_store h2 e2).
  { unfold e2. destruct (_components (this s) !! i); [done|].
    apply (wf_store_slot_head h2 e1 i L c Hwf1).
    - apply lookup_insert_eq.
    - apply lookup_insert_eq. }
  assert (Hslot2 : is_Some (_components e2 !! i)).
  { unfold e2. destruct (_components (this s) !! i) eqn:E; simpl; [by rewrite E|].
    rewrite lookup_insert_eq. eauto. }
  destruct (added_transition s h2 e2 (IComp c) Hs Hwf2) as (s' & Hrun & Hs' & _ & Hext').
  - eapply linked_as_trans; [exact Hlk|by apply linked_as_ext].
  - unfold e2. by destruct (_components (this s) !! i).
  - unfold e2. by destruct (_components (this s) !! i).
  - unfold e2. by destruct (_components (this s) !! i).
  - simpl. exists i. destruct Hc2 as [Hcl Hcid]. split; [done|]. rewrite Hcl. by left.
  - apply (presence_has h2 e2 i c); [by apply wf_typed|apply Hc2|done].
  - eapply store_kept_trans; [exact Hik|by apply store_kept_ext].
  - rewrite Hrun. split; [done|].
    eapply store_kept_trans; [exact Hik|].
    eapply store_kept_trans; [by apply store_kept_ext|by apply store_kept_ext].
Qed.

Lemma keeps_appendComponent c :
  isLinkedComponent h0 c = true ->
  keeps h0 qs0 (Entity.appendComponent (Engine.handle fuel) fuel c None).
Proof.
  intros Hl0 s Hs.
  assert (Hl : isLinkedComponent (heap s) c = true) by (by rewrite (wo_linked _ _ _ Hs)).
  assert (HK : ComponentId.getComponentClass c None = inr (comp_class c)) by done.
  pose proof (wo_store _ _ _ Hs) as Hwf.
  rewrite <- (st_eta s).
  destruct (componentIds (heap s) !! class_name (comp_class c)) as [i|] eqn:Hid.
  - destruct (_linkedComponents (this s) !! i) as [L|] eqn:HL.
    + rewrite (appendComponent_known (Engine.handle fuel) fuel (heap s) (this s) (ext s) c None
                 (comp_class c) i L HK Hid HL).
      pose proof (list_add_result (heap s) (this s) i L c fuel Hwf HL) as Hadd.
      destruct (LinkedComponentList.add fuel L c (heap s)) as [[] h'|err h'|]; [| |done].
      * assert (Hnew : wf_store h' (this s) /\ linked_as (heap s) h' /\
                       componentIds h' = componentIds (heap s) /\
                       builders h' = builders (heap s) /\
                       is_Some (list_head h' !! L)).
        { destruct Hadd as [[Hh ->]|(p & Hh & Hp & ->)].
          - split; [by apply (wf_store_set_head_empty _ _ i)|]. split; [done|]. split; [done|].
            split; [done|]. simpl. rewrite lookup_insert_eq. eauto.
          - destruct (wf_store_set_next (heap s) (this s) i p c Hwf Hp) as [? ?]; [by split|].
            split; [done|]. split; [done|]. split; [done|]. split; [done|]. exact Hh. }
        destruct Hnew as (Hwf' & Hlk' & Hids' & Hbs' & [d Hd]).
        set (e' := match _components (this s) !! i with
                   | Some _ => this s
                   | None => set_components
                               (match list_head h' !! L with
                                | Some d => <[i := d]> (_components (this s))
                                | None => delete i (_components (this s))
                                end) (this s)
                   end).
        assert (Hwf2 : wf_store h' e').
        { unfold e'. destruct (_components (this s) !! i); [done|]. rewrite Hd.
          by apply (wf_store_slot_head h' (this s) i L d). }
        assert (Hslot2 : is_Some (_components e' !! i)).
        { unfold e'. destruct (_components (this s) !! i) eqn:E; [by rewrite E|].
          rewrite Hd. simpl. rewrite lookup_insert_eq. eauto. }
        destruct (added_transition s h' e' (IComp c) Hs Hwf2 Hlk')
          as (s' & Hrun & Hs' & _ & Hext').
        -- unfold e'. by destruct (_components (this s) !! i).
        -- unfold e'. by destruct (_components (this s) !! i).
        -- unfold e'. by destruct (_components (this s) !! i).
        -- simpl. exists i. rewrite Hids'. split; [done|].
           rewrite (Hlk' c), Hl. by left.
        -- apply (presence_has h' e' i c); [by apply wf_typed|by rewrite Hids'|done].
        -- by apply store_kept_same.
        -- rewrite Hrun. split; [done|].
           eapply store_kept_trans; [|by apply store_kept_ext]. by apply store_kept_same.
      * subst h'. rewrite st_eta. split; [done|apply store_kept_refl].
    + rewrite (appendComponent_fresh (Engine.handle fuel) fuel (heap s) (this s) (ext s) c None
                 (comp_class c) i (heap s) HK (getComponentId_known _ true _ i Hid) HL).
      apply (fresh_append s c i (heap s)); try done. apply store_kept_refl.
  - destruct (wf_store_register (heap s) (this s) (comp_class c) (componentClassId (heap s))
                (set_componentIds
                   (<[class_name (comp_class c) := componentClassId (heap s)]>
                      (componentIds (heap s)))
                   (S (componentClassId (heap s))) (heap s)) Hwf)
      as (Hwf1 & Hid1 & Hlk1 & Hik1).
    { unfold ComponentId.getComponentId. by rewrite Hid. }
    assert (HL : _linkedComponents (this s) !! componentClassId (heap s) = None).
    { destruct (_linkedComponents (this s) !! componentClassId (heap s)) as [L|] eqn:E; [|done].
      destruct (wf_list _ _ Hwf _ _ E). lia. }
    set (h1 := set_componentIds
                 (<[class_name (comp_class c) := componentClassId (heap s)]>
                    (componentIds (heap s)))
                 (S (componentClassId (heap s))) (heap s)) in *.
    assert (Hg : ComponentId.getComponentId (comp_class c) true (heap s) =
                 (Some (componentClassId (heap s)), h1)).
    { unfold ComponentId.getComponentId. by rewrite Hid. }
    rewrite (appendComponent_fresh (Engine.handle fuel) fuel (heap s) (this s) (ext s) c None
               (comp_class c) (componentClassId (heap s)) h1 HK Hg HL).
    apply (fresh_append s c); try done.
Qed.

Lemma keeps_addComponent c :
  keeps h0 qs0 (Entity.addComponent (Engine.handle fuel) fuel c None).
Proof.
  intros s Hs. pose proof (wo_store _ _ _ Hs) as Hwf.
  destruct (getComponentId_create (comp_class c) (heap s))
    as (i & h1 & Hg & _ & Hid1 & _).
  destruct (wf_store_register (heap s) (this s) (comp_class c) i h1 Hwf Hg)
    as (Hwf1 & _ & Hlk1 & Hik1).
  assert (Hs1 : world_ok h0 qs0 (mkSt h1 (this s) (ext s))) by (by apply world_ok_store).
  unfold Entity.addComponent. unfold ComponentId.getComponentClass, orThrow.
  unfold bind at 1 2. unfold ret at 1, onHeap. rewrite Hg.
  unfold bind at 1 2. unfold getHeap, getThis. cbn [heap this ext].
  set (proceed := match _components (this s) !! i with
                  | Some stored =>
                      if negb (isLinkedComponent h1 c) && bool_decide (c = stored)
                      then ret false
                      else let* _ := Entity.remove (Engine.handle fuel) fuel (KClass (comp_class c))
                           in ret true
                  | None => ret true
                  end).
  assert (Hproceed : keeps h0 qs0 proceed).
  { unfold proceed. destruct (_components (this s) !! i); [|apply keeps_ret].
    destruct (negb (isLinkedComponent h1 c) && bool_decide (c = c0)); [apply keeps_ret|].
    apply keeps_bind; [apply keeps_remove|]. intros _. apply keeps_ret. }
  unfold bind at 1. specialize (Hproceed _ Hs1). cbn [heap] in Hproceed.
  destruct (proceed (mkSt h1 (this s) (ext s))) as [go s2|err s2|]; [| |done].
  2:{ destruct Hproceed as [? ?]. split; [done|by eapply store_kept_trans]. }
  destruct Hproceed as [Hs2 Hik2].
  destruct go; [|split; [done|by eapply store_kept_trans]].
  assert (Hid2 : componentIds (heap s2) !! class_name (comp_class c) = Some i) by (by apply Hik2).
  destruct (isLinkedComponent h1 c) eqn:Hl1.
  - assert (Hl0 : isLinkedComponent h0 c = true).
    { rewrite <- (wo_linked _ _ _ Hs1 c). done. }
    pose proof (keeps_bind (Entity.append (Engine.handle fuel) fuel c None)
                  (fun _ => Entity.bumpNumberComponents 1)
                  (keeps_appendComponent c Hl0) (fun _ => keeps_bump 1) s2 Hs2) as Hk.
    destruct (bind _ _ s2) as [[] s3|err s3|]; [| |done];
      (destruct Hk as [? ?]; split; [done|];
       eapply store_kept_trans; [exact Hik1|by eapply store_kept_trans]).
  - assert (Hl2 : isLinkedComponent (heap s2) c = false).
    { rewrite (wo_linked _ _ _ Hs2 c). rewrite <- (wo_linked _ _ _ Hs1 c). done. }
    unfold bind at 1 2. unfold Entity.setComponent, bind at 1, getThis, setThis.
    rewrite <- (st_eta s2). cbn [heap this ext].
    destruct (added_transition s2 (heap s2)
                (set_components (<[i := c]> (_components (this s2))) (this s2)) (IComp c))
      as (s3 & Hrun & Hs3 & _ & Hext3); [done| |done|done|done|done| | |apply store_kept_refl|].
    + apply wf_store_set_plain; [apply Hs2|done|done].
    + simpl. exists i. split; [done|]. rewrite Hl2. right. apply lookup_insert_eq.
    + apply (presence_has (heap s2) _ i c); [|done|simpl; rewrite lookup_insert_eq; eauto].
      apply wf_typed, wf_store_set_plain; [apply Hs2|done|done].
    + rewrite Hrun. pose proof (keeps_bump 1 s3 Hs3) as Hb.
      destruct (Entity.bumpNumberComponents 1 s3) as [[] s4|err s4|]; [| |done];
        (destruct Hb as [? ?]; split; [done|];
         eapply store_kept_trans; [exact Hik1|];
         eapply store_kept_trans; [exact Hik2|];
         eapply store_kept_trans; [by apply store_kept_ext|done]).
Qed.

Lemma keeps_perform op :
  plain_op h0 op -> keeps h0 qs0 (Engine.perform fuel op).
Proof.
  destruct op as [item rc|c rc|k|K]; simpl.
  - intros ->. destruct item as [t|c]; [apply keeps_addTag|apply keeps_addComponent].
  - intros [-> Hl]. by apply keeps_appendComponent.
  - intros _. apply keeps_bind; [apply keeps_remove|]. intros _. apply keeps_ret.
  - intros _. apply keeps_bind; [apply keeps_withdraw|]. intros _. apply keeps_ret.
Qed.

Lemma keeps_perform_all ops : forall s s',
  Forall (plain_op h0) ops -> world_ok h0 qs0 s ->
  Engine.perform_all fuel ops s = Some s' -> world_ok h0 qs0 s'.
Proof.
  induction ops as [|op ops IH]; intros s s' Hops Hs Hrun; simpl in Hrun.
  - by injection Hrun as <-.
  - apply Forall_cons in Hops as [Hop Hops].
    pose proof (keeps_perform op Hop s Hs) as Hk.
    destruct (Engine.perform fuel op s) as [[] s1|err s1|]; simpl in Hrun; [| |done];
      destruct Hk as [Hs1 _]; eauto.
Qed.

End World.

(** * Predicates built from [has] *)

Lemma has_on_sets h e k :
  typed h e -> Entity.has h e k = holds_on (CHas k) (names (_components e)) (_tags e).
Proof.
  intros Hty. destruct k as [t|K]; simpl; [done|].
  unfold Entity.hasComponent. rewrite getComponentId_read. simpl.
  destruct (componentIds h !! class_name K) as [i|] eqn:Hid.
  - apply bool_decide_ext. rewrite elem_of_names. split.
    + intros [c Hc]. exists i, c. split; [done|].
      apply (ty_inj _ _ Hty _ _ i); [by apply (ty_slot _ _ Hty)|done].
    + intros (j & c & Hc & Hn). pose proof (ty_slot _ _ Hty j c Hc) as Hj.
      rewrite Hn, Hid in Hj. injection Hj as ->. eauto.
  - symmetry. apply bool_decide_eq_false_2. rewrite elem_of_names.
    intros (j & c & Hc & Hn). pose proof (ty_slot _ _ Hty j c Hc) as Hj.
    rewrite Hn, Hid in Hj. done.
Qed.

Lemma holds_on_sets c h e :
  typed h e -> holds c h e = holds_on c (names (_components e)) (_tags e).
Proof.
  intros Hty. induction c as [k|c IH|a IHa b IHb|a IHa b IHb].
  - by apply has_on_sets.
  - simpl. by rewrite IH.
  - simpl. by rewrite IHa, IHb.
  - simpl. by rewrite IHa, IHb.
Qed.

(** A query whose predicate is a condition built from [has] is a presence
    query. *)
Lemma holds_presence_based c subscribers : presence_query (new_query (holds c) subscribers).
Proof.
  split; [|apply NoDup_nil_2]. exists (holds_on c). intros h e Hty. by apply holds_on_sets.
Qed.

(** * A new entity in the store of the scenarios *)

Lemma start_heap_next c : next_of start_heap c = None.
Proof.
  unfold next_of, start_heap. simpl.
  destruct (decide (c = damage_a)) as [->|Ha]; [by rewrite lookup_insert_eq|].
  rewrite lookup_insert_ne by done.
  destruct (decide (c = damage_b)) as [->|Hb]; [by rewrite lookup_insert_eq|].
  rewrite lookup_insert_ne by done.
  destruct (decide (c = damage_c)) as [->|Hc]; [by rewrite lookup_insert_eq|].
  by rewrite lookup_insert_ne by done.
Qed.


Lemma connected_connectEntity top e :
  Signal.handlers (onComponentAdded e) = [] ->
  Signal.handlers (onComponentRemoved e) = [] ->
  Engine.connected (connectEntity top e).
Proof.
  intros Ha Hr. unfold Engine.connected, connectEntity, Signal.connect. simpl.
  rewrite Ha, Hr. simpl. split; apply elem_of_cons; by left.
Qed.

(** * The queries of an engine and a connected entity *)

(** A new entity, connected, is well formed in every store in which the
    ids of the registry are below the counter and belong to one name each,
    and the [next] of an instance is a linked component of a class of the
    same name. *)
Lemma wf_store_new h top i :
  (forall a b, next_of h a = Some b ->
     class_name (comp_class a) = class_name (comp_class b) /\
     isLinkedComponent h b = true) ->
  (forall n j, componentIds h !! n = Some j -> j < componentClassId h) ->
  (forall n m j, componentIds h !! n = Some j -> componentIds h !! m = Some j -> n = m) ->
  wf_store h (connectEntity top (new_entity i)).
Proof.
  intros Hn Hi Hj. split; simpl; try (intros; by simplify_map_eq); done.
Qed.

(** C1 (as amended): for an engine whose queries have predicates over
    presence (which component types and which tags the entity has, or has
    not; the predicates written with [has], [hasAll], [hasAny] are of this
    kind, and so are the predicates of the query builder for as long as the
    builder is left as it is), and an entity
    connected to it that is well formed (each instance stored under its own
    class, each linked instance in a slot the head of the list of that slot,
    the [next] of an instance a linked component of a class of the same
    name) and that each query is in step with: after any finite sequence of
    [add], [append], [remove] and [withdraw] calls on the entity that take
    no resolving class, append linked components only and run to
    completion, the queries are the same queries, for each of them
    [q.has(e)] equals its predicate on the entity as it is now, and the
    entity is well formed and connected as before. *)
Theorem presence_queries_stay_in_step (fuel : nat) (s s' : St Engine)
  (ops : list Engine.Op) :
  wf_store (heap s) (this s) ->
  Engine.connected (this s) ->
  Forall (engine_query (heap s)) (_queries (ext s)) ->
  Forall (fun q => Query.has q (this s) = _predicate q (heap s) (this s)) (_queries (ext s)) ->
  Forall (plain_op (heap s)) ops ->
  Engine.perform_all fuel ops s = Some s' ->
  Forall2 same_query (_queries (ext s)) (_queries (ext s')) /\
  Forall (fun q => Query.has q (this s') = _predicate q (heap s') (this s'))
         (_queries (ext s')) /\
  wf_store (heap s') (this s') /\
  Engine.connected (this s').
Proof.
  intros Hwf Hc Hq Hs Hops Hrun.
  assert (H0 : world_ok (heap s) (_queries (ext s)) s).
  { split; [done|done|by intros c|apply store_kept_refl|apply Forall2_same_query_refl|done|
            exact Hs]. }
  pose proof (keeps_perform_all fuel (heap s) (_queries (ext s)) ops s s' Hops H0 Hrun) as H1.
  split; [apply H1|]. split; [exact (wo_step _ _ _ H1)|]. split; apply H1.
Qed.

(** The predicate [entity => entity.lengthOf(K) >= n] only reads on an
    entity that has the list of [K] if it has a [K]: it returns (or runs
    out of steps on a list that is cyclic) and leaves the store and the
    entity as they are; its value is [at_least]. *)
Lemma lengthOf_at_least_reads (fuel n : nat) (K : Class) (h : Heap) (e : Entity) :
  has_list_if_has K h e = true ->
  match lengthOf_at_least fuel n K (mkSt h e tt) with
  | Ok b s' => s' = mkSt h e tt /\ b = at_least fuel n K h e
  | Throw _ _ => False
  | OutOfFuel => True
  end.
Proof.
  intros Hl. unfold at_least.
  destruct (lengthOf_at_least fuel n K (mkSt h e tt)) as [b s'|err s'|] eqn:E; [|exfalso|done].
  - split; [|done]. revert E.
    unfold lengthOf_at_least, Entity.lengthOf, bind, getThis, getHeap, ret.
    cbn [heap this ext]. unfold Entity.hasComponent, has_list_if_has in *.
    rewrite getComponentId_read. cbn [fst].
    destruct (componentIds h !! class_name K) as [i|]; cbn [negb]; [|congruence].
    destruct (bool_decide (is_Some (_components e !! i))); cbn [negb]; [|congruence].
    cbn [implb] in Hl. apply bool_decide_eq_true_1 in Hl as [L HL].
    unfold Entity.getLinkedComponentList, bind, getThis. cbn [heap this ext].
    rewrite HL. unfold ret. cbn [heap].
    destruct (LinkedComponentList.nodes fuel L h); [congruence|done].
  - revert E.
    unfold lengthOf_at_least, Entity.lengthOf, bind, getThis, getHeap, ret.
    cbn [heap this ext]. unfold Entity.hasComponent, has_list_if_has in *.
    rewrite getComponentId_read. cbn [fst].
    destruct (componentIds h !! class_name K) as [i|]; cbn [negb]; [|done].
    destruct (bool_decide (is_Some (_components e !! i))); cbn [negb]; [|done].
    cbn [implb] in Hl. apply bool_decide_eq_true_1 in Hl as [L HL].
    unfold Entity.getLinkedComponentList, bind, getThis. cbn [heap this ext].
    rewrite HL. unfold ret. cbn [heap].
    by destruct (LinkedComponentList.nodes fuel L h).
Qed.

(** C1, as stated, fails for a predicate over multiplicity: after
    [append(a)], [append(b)], [withdraw(Damage)] the query for the entities
    with at least two [Damage] still lists the entity, which has one (the
    predicate only reads there: before and after each of the three calls
    the entity and the shadow entity have the list of [Damage] if they have
    a [Damage], and on the entity as it is in the end the predicate returns
    [false] and changes nothing). It
    also fails when a resolving class is passed: after [add(circle, Shape)]
    the query for the entities that have a [Circle] lists the entity, which
    has the circle as a [Shape] only. And it fails, with operations that
    pass no resolving class, on an entity that holds an instance under
    another class than its own: after [add(circle, Shape)] the query for
    the entities that have a [Shape] lists the entity and is in step with
    it; after [remove(Shape)] it still lists the entity, which has no
    [Shape]. *)
Lemma multiplicity_query_out_of_step :
  (verdicts (world multiplicity_queries) = [(false, false)] /\
   Forall (plain_op start_heap) multiplicity_ops /\
   verdicts <$> Engine.perform_all 10 multiplicity_ops (world multiplicity_queries) =
     Some [(true, false)] /\
   Forall (fun k => only_reads Damage <$>
                      Engine.perform_all 10 (take k multiplicity_ops)
                        (world multiplicity_queries) = Some true) [0; 1; 2; 3] /\
   match Engine.perform_all 10 multiplicity_ops (world multiplicity_queries) with
   | Some s =>
       lengthOf_at_least 10 2 Damage (mkSt (heap s) (this s) tt) =
         Ok false (mkSt (heap s) (this s) tt)
   | None => False
   end) /\
  (verdicts (world circle_queries) = [(false, false)] /\
   verdicts <$> Engine.perform_all 10 resolve_ops (world circle_queries) =
     Some [(true, false)]) /\
  (Engine.perform_all 10 resolve_ops (world shape_queries) = Some shape_world /\
   verdicts shape_world = [(true, true)] /\
   Forall (plain_op (heap shape_world)) [Engine.OpRemove (KClass Shape)] /\
   verdicts <$> Engine.perform_all 10 [Engine.OpRemove (KClass Shape)] shape_world =
     Some [(true, false)]).
Proof.
  split; [|split].
  - split; [vm_compute; reflexivity|].
    split; [repeat constructor; vm_compute; reflexivity|].
    split; [vm_compute; reflexivity|].
    split; [repeat constructor; vm_compute; reflexivity|].
    vm_compute. reflexivity.
  - split; vm_compute; reflexivity.
  - split.
    { unfold shape_world.
      destruct (Engine.perform_all 10 resolve_ops (world shape_queries)) eqn:E; [done|].
      exfalso. apply (f_equal (fun o => bool_decide (is_Some o))) in E.
      vm_compute in E. discriminate E. }
    split; [vm_compute; reflexivity|]. split; [|vm_compute; reflexivity].
    repeat constructor.
Qed.

(** * A single-field removal *)

Lemma notify_out sig b e item q h :
  item_known h item ->
  exists snap,
    Query.notify sig b e (Some item) None q h =
      (if b then Signal.emit (match sig with
                              | OnEntityAdded => onEntityAdded q
                              | OnEntityRemoved => onEntityRemoved q
                              end) (sig, snap)
       else [], (h, set_snapshot snap q)).
Proof.
  intros Hk. unfold Query.notify. destruct b.
  - pose proof (takeSnapshot_heap e (_snapshot q) item h Hk) as Hh.
    destruct (takeSnapshot e (_snapshot q) (Some item) None h) as [snap h'].
    simpl in Hh. subst h'. exists snap. by destruct sig.
  - exists (_snapshot q). by destruct q.
Qed.

Lemma emit_invoked {A} (s : Signal.Signal) (a : A) :
  invoked (Signal.emit s a) = ids (Signal.handlers s).
Proof. unfold invoked, Signal.emit, ids. rewrite map_map. by apply map_ext. Qed.

Lemma emit_signal (s : Signal.Signal) sig snap :
  Forall (fun em : Emission => em.2.1 = sig) (Signal.emit s (sig, snap)).
Proof. unfold Signal.emit. apply Forall_forall. intros em Hin. apply list_elem_of_fmap in Hin as (it & -> & _). done. Qed.

Lemma emit_no_handlers {A} (s : Signal.Signal) (a : A) :
  Signal.hasHandlers s = false -> Signal.emit s a = [].
Proof. unfold Signal.hasHandlers, Signal.emit. by destruct (Signal.handlers s). Qed.

(** C2 (as amended): on a single-field removal event the shadow entity is
    rebuilt as a copy of the entity as it is after the removal; a removed
    tag or a removed instance that is not a linked component is put back,
    a removed linked component is put back only when the entity has no
    instance of its type left. So the shadow entity has the component
    types and the tags the entity had before the removal (not, for a linked
    component, the instances). Then: a member for which the predicate holds
    of the shadow and not of the entity is evicted and every subscriber of
    [onEntityRemoved] is invoked once; a non-member for which the predicate
    holds of the entity and not of the shadow is admitted and every
    subscriber of [onEntityAdded] is invoked once; otherwise membership is
    unchanged and nothing is invoked. *)
Theorem removal_event_rule (fuel : nat) (e : Entity) (item : Item) (q : Query) (h : Heap) :
  typed h e -> event_item h e item -> NoDup (_entities q) ->
  exists h1 shadow q1 out,
    Query.updateHelper fuel e item None q h = Ok tt (h1, set_helper shadow q) /\
    _components shadow = shadow_components h e item /\
    _tags shadow = shadow_tags e item /\
    presence shadow = shadow_view e item /\
    Query.entityComponentRemoved fuel e item None q h = Ok out (h1, q1) /\
    _helper q1 = shadow /\
    let member := Query.has q e in
    let before := _predicate q h1 shadow in
    let now := _predicate q h1 e in
    if member && before && negb now then
      _entities q1 = Query.splice_out (entity_id e) (_entities q) /\
      Query.has q1 e = false /\
      invoked out = ids (Signal.handlers (onEntityRemoved q)) /\
      Forall (fun em : Emission => em.2.1 = OnEntityRemoved) out
    else if negb member && now && negb before then
      _entities q1 = Query.push (entity_id e) (_entities q) /\
      Query.has q1 e = true /\
      invoked out = ids (Signal.handlers (onEntityAdded q)) /\
      Forall (fun em : Emission => em.2.1 = OnEntityAdded) out
    else _entities q1 = _entities q /\ out = [].
Proof.
  intros Hty Hev Hnd.
  destruct (updateHelper_contents fuel e item q h Hev) as (h1 & shadow & Hup & Hext & Hc & Ht).
  destruct (shadow_contents_view h e item shadow Hty Hev Hc Ht) as [_ Hv].
  assert (Hk : item_known h1 item) by (eapply item_known_ext, event_item_known; eauto).
  unfold Query.entityComponentRemoved. rewrite Hup.
  change (_predicate (set_helper shadow q)) with (_predicate q).
  change (_helper (set_helper shadow q)) with shadow.
  change (Query.has (set_helper shadow q) e) with (Query.has q e).
  destruct (Query.has q e && _predicate q h1 shadow && negb (_predicate q h1 e)) eqn:Hout.
  - destruct (notify_out OnEntityRemoved (Signal.hasHandlers (onEntityRemoved q)) e item
        (set_entities (Query.splice_out (entity_id e) (_entities (set_helper shadow q)))
           (set_helper shadow q)) h1 Hk) as (snap & Hn).
    rewrite Hn. eexists h1, shadow, _, _.
    split; [done|]. split; [done|]. split; [done|]. split; [done|].
    split; [reflexivity|]. split; [done|]. cbn zeta. rewrite Hout.
    split; [done|]. split; [by apply (has_splice_out (set_helper shadow q))|].
    cbn [onEntityRemoved set_entities set_helper].
    destruct (Signal.hasHandlers (onEntityRemoved q)) eqn:Hh.
    + split; [apply emit_invoked|apply emit_signal].
    + split; [|constructor].
      rewrite <- (emit_invoked (onEntityRemoved q) tt). by rewrite emit_no_handlers.
  - destruct (negb (Query.has q e) && _predicate q h1 e && negb (_predicate q h1 shadow))
      eqn:Hin.
    + destruct (notify_out OnEntityAdded (Signal.hasHandlers (onEntityAdded q)) e item
        (set_entities (Query.push (entity_id e) (_entities (set_helper shadow q)))
           (set_helper shadow q)) h1 Hk) as (snap & Hn).
      rewrite Hn. eexists h1, shadow, _, _.
      split; [done|]. split; [done|]. split; [done|]. split; [done|].
      split; [reflexivity|]. split; [done|]. cbn zeta. rewrite Hout, Hin.
      split; [done|]. split; [by apply (has_push (set_helper shadow q))|].
      cbn [onEntityAdded set_entities set_helper].
      destruct (Signal.hasHandlers (onEntityAdded q)) eqn:Hh.
      * split; [apply emit_invoked|apply emit_signal].
      * split; [|constructor].
        rewrite <- (emit_invoked (onEntityAdded q) tt). by rewrite emit_no_handlers.
    + eexists h1, shadow, _, _.
      split; [done|]. split; [done|]. split; [done|]. split; [done|].
      split; [reflexivity|]. split; [done|]. cbn zeta. rewrite Hout, Hin. done.
Qed.

Lemma typed_position_heap e : _components e = ∅ -> typed position_heap e.
Proof.
  intros He. split.
  - intros i c. rewrite He. by rewrite lookup_empty.
  - intros n m i.
    change (componentIds position_heap) with (<[class_name Position := 1]> (∅ : gmap string nat)).
    rewrite !lookup_insert_Some, !lookup_empty. naive_solver.
Qed.

Lemma removal_event_rule_witness :
  exists h1 shadow q1 out,
    Query.updateHelper 10 (new_entity 7) (IComp position1) None position_query position_heap =
      Ok tt (h1, set_helper shadow position_query) /\
    _components shadow = shadow_components position_heap (new_entity 7) (IComp position1) /\
    _tags shadow = shadow_tags (new_entity 7) (IComp position1) /\
    presence shadow = shadow_view (new_entity 7) (IComp position1) /\
    Query.entityComponentRemoved 10 (new_entity 7) (IComp position1) None position_query
      position_heap = Ok out (h1, q1) /\
    _helper q1 = shadow /\
    let member := Query.has position_query (new_entity 7) in
    let before := _predicate position_query h1 shadow in
    let now := _predicate position_query h1 (new_entity 7) in
    if member && before && negb now then
      _entities q1 = Query.splice_out (entity_id (new_entity 7)) (_entities position_query) /\
      Query.has q1 (new_entity 7) = false /\
      invoked out = ids (Signal.handlers (onEntityRemoved position_query)) /\
      Forall (fun em : Emission => em.2.1 = OnEntityRemoved) out
    else if negb member && now && negb before then
      _entities q1 = Query.push (entity_id (new_entity 7)) (_entities position_query) /\
      Query.has q1 (new_entity 7) = true /\
      invoked out = ids (Signal.handlers (onEntityAdded position_query)) /\
      Forall (fun em : Emission => em.2.1 = OnEntityAdded) out
    else _entities q1 = _entities position_query /\ out = [].
Proof.
  apply (removal_event_rule 10 (new_entity 7) (IComp position1) position_query position_heap).
  - by apply typed_position_heap.
  - exists 1. split; [vm_compute; reflexivity|].
    replace (isLinkedComponent position_heap position1) with false by (vm_compute; reflexivity).
    left. reflexivity.
  - apply NoDup_singleton.
Defined.

(** C2, as stated, fails for a linked component: when [a] has been
    withdrawn from the list [a, b], the shadow entity built for the removal
    of [a] has [b] in the slot and one instance, where the entity before
    the removal had [a] and two instances. *)
Lemma shadow_is_not_the_state_before :
  withdraw_shadow_report =
    Some (Some damage_a, (Some damage_a, 2), (Some damage_b, 1)).
Proof. vm_compute. reflexivity. Qed.

(** * Snapshots *)

(** C3: [takeSnapshot] copies the entity into [snapshot.previous] only
    when the snapshot was last taken of another entity. On a later dispatch
    for the same entity through the same snapshot, [previous] is what the
    earlier dispatch left, patched by the changed tag. So after
    [add(alive)], [add(burning)], [remove(alive)] the subscriber of
    [onEntityRemoved] sees [previous] with the tag [alive] only, while the
    entity has [burning]: the state before the removal had both. *)
Theorem snapshot_previous_not_recopied :
  (forall e previous t h,
     takeSnapshot e (mkSnapshot (Some (entity_id e)) previous) (Some (ITag t)) None h =
       (mkSnapshot (Some (entity_id e))
          (set_tags (if Entity.has h e (KTag t) then _tags previous ∖ {[t]}
                     else {[t]} ∪ _tags previous) previous), h)) /\
  previous_tags <$> Engine.perform_all 10 tag_ops (world tag_queries) =
    Some [(OnEntityAdded, ∅); (OnEntityRemoved, {[alive]})] /\
  (fun s => _tags (this s)) <$> Engine.perform_all 10 tag_ops (world tag_queries) =
    Some {[burning]}.
Proof.
  split; [|split; vm_compute; reflexivity].
  intros e previous t h. unfold takeSnapshot. cbn [_current].
  by rewrite bool_decide_eq_true_2.
Qed.

(** * Signals *)

(** C6 (as amended): after any sequence of [connect] and [disconnect]
    calls, [emit] invokes exactly the handlers that are connected, each
    once, in ascending order of priority; handlers of equal priority are
    invoked in the order in which they were connected provided no call of
    the sequence connects a connected handler again with another priority. *)
Theorem emit_in_priority_order (cs : list Signal.Call) :
  (forall (A : Type) (args : A),
     invoked (Signal.emit (Signal.run cs) args) = ids (Signal.handlers (Signal.run cs))) /\
  Permutation (Signal.handlers (Signal.run cs)) (Signal.connected cs) /\
  NoDup (ids (Signal.handlers (Signal.run cs))) /\
  StronglySorted by_priority (Signal.handlers (Signal.run cs)) /\
  (Signal.keeps_priorities cs ->
   ids (Signal.handlers (Signal.run cs)) = Signal.emit_order_spec cs).
Proof.
  destruct (run_invariant cs) as (Hs & Hnd & Hp).
  split; [intros A args; apply emit_invoked|].
  split; [done|]. split; [done|]. split; [done|].
  intros Hk. unfold Signal.emit_order_spec, ids. by rewrite (run_connection_order cs Hk).
Qed.

Lemma emit_in_priority_order_witness :
  Signal.keeps_priorities five_one_five /\
  invoked (Signal.emit (Signal.run five_one_five) tt) = [2; 1; 3] /\
  ids (Signal.handlers (Signal.run five_one_five)) = Signal.emit_order_spec five_one_five.
Proof.
  assert (Hk : Signal.keeps_priorities five_one_five) by (vm_compute; tauto).
  split; [exact Hk|]. split; [vm_compute; reflexivity|].
  exact (proj2 (proj2 (proj2 (proj2 (emit_in_priority_order five_one_five)))) Hk).
Defined.

(** C6, as stated, fails when a connected handler is connected again with
    another priority: handler 1 is connected before handler 2 and both end
    with priority 7, but handler 2 is invoked first. *)
Lemma reconnect_breaks_connection_order :
  invoked (Signal.emit (Signal.run reprioritised) tt) = [2; 1] /\
  Signal.emit_order_spec reprioritised = [1; 2] /\
  Signal.connected reprioritised = [Signal.mkHandler 1 7; Signal.mkHandler 2 7].
Proof. vm_compute. auto. Qed.

(** * The scenarios of the entity operations *)

Lemma nodes_chain h : forall fuel start l,
  LinkedComponentList.nodes_from fuel start h = Some l -> chain h start l.
Proof.
  induction fuel as [|f IH]; intros [c|] l H; simpl in H.
  - done.
  - injection H as <-. constructor.
  - destruct (LinkedComponentList.nodes_from f (next_of h c) h) as [l'|] eqn:E; [|done].
    injection H as <-. constructor. by apply IH.
  - injection H as <-. constructor.
Qed.

Lemma holds_list_listed h e K i L l : holds_list h e K i L l -> listed h e K l.
Proof. intros [Hid HL _ Hch _ _]. unfold listed. by rewrite Hid, HL. Qed.

Lemma three_damage_holds :
  holds_list (heap three_damage) (this three_damage) Damage 1 0
    [damage_a; damage_b; damage_c].
Proof.
  split.
  - vm_compute. reflexivity.
  - vm_compute. reflexivity.
  - vm_compute. reflexivity.
  - apply (nodes_chain _ 5). vm_compute. reflexivity.
  - repeat constructor; vm_compute; reflexivity.
  - repeat constructor; vm_compute; reflexivity.
Qed.

Lemma add_replaces_instance_witness :
  let h := heap one_position in
  let e := this one_position in
  let x := ext one_position in
  let e' := set_components (<[1 := position2]> (_components e)) e in
  Entity.add record 10 (IComp position2) None (mkSt h e x) =
    Ok tt (mkSt h e'
             (x ++ [(1, EvRemoved (IComp position1))] ++ [(1, EvAdded (IComp position2))])) /\
  Entity.get h e' Position = Some position2 /\
  Entity.get h e' Position <> Some position1.
Proof.
  apply (add_replaces_instance 10 (heap one_position) (this one_position) (ext one_position)
           position1 position2 None Position 1).
  - reflexivity.
  - vm_compute. reflexivity.
  - vm_compute. reflexivity.
  - discriminate.
  - vm_compute. reflexivity.
  - vm_compute. reflexivity.
Defined.

Lemma add_same_instance_noop_witness :
  Entity.add record 10 (IComp position1) None
    (mkSt (heap one_position) (this one_position) (ext one_position)) =
  Ok tt (mkSt (heap one_position) (this one_position) (ext one_position)).
Proof.
  apply (add_same_instance_noop 10 (heap one_position) (this one_position) (ext one_position)
           position1 None Position 1).
  - reflexivity.
  - vm_compute. reflexivity.
  - vm_compute. reflexivity.
  - vm_compute. reflexivity.
Defined.


Lemma append_throws_iff_present_witness :
  let h := heap three_damage in
  let e := this three_damage in
  let x := ext three_damage in
  let l := [damage_a; damage_b; damage_c] in
  Entity.append record 10 damage_b (Some Position) (mkSt h e x) =
    Throw ResolveMismatch (mkSt h e x) /\
  let r := Entity.append record 10 damage_b None (mkSt h e x) in
  ((exists err s', r = Throw err s') <-> damage_b ∈ l) /\
  (damage_b ∈ l -> r = Throw DuplicateAppend (mkSt h e x)) /\
  (damage_b ∉ l -> exists s', r = Ok tt s').
Proof.
  split.
  - apply (proj1 (append_throws_iff_present 10 (heap three_damage) (this three_damage)
                    (ext three_damage) damage_b (Some Position)) Position eq_refl).
    reflexivity.
  - apply (proj2 (append_throws_iff_present 10 (heap three_damage) (this three_damage)
                    (ext three_damage) damage_b None) Damage [damage_a; damage_b; damage_c]).
    + reflexivity.
    + exact (holds_list_listed _ _ _ _ _ _ three_damage_holds).
    + intros H. vm_compute in H. discriminate H.
    + simpl. lia.
Defined.

(** C8, as stated, fails for a resolving class that is not an ancestor:
    [append] of an instance that is in no list throws. *)
Lemma append_throws_without_duplicate :
  _linkedComponents observed_entity = ∅ /\
  outcome (Entity.append record 10 damage_a (Some Position)
             (mkSt start_heap observed_entity [])) = Some (inl ResolveMismatch).
Proof. split; reflexivity. Qed.

Lemma same_name_same_component_type_witness :
  class_name Damage = class_name OtherDamage /\
  (forall b h, ComponentId.getComponentId Damage b h =
               ComponentId.getComponentId OtherDamage b h) /\
  Entity.remove record 10 (KClass OtherDamage)
    (mkSt (heap one_damage) (this one_damage) (ext one_damage)) =
  Throw ResolveMismatch
    (mkSt (set_NumberComponents (NumberComponents (heap one_damage) + -1) (heap one_damage))
       (this one_damage) (ext one_damage)).
Proof.
  split; [reflexivity|].
  pose proof (same_name_same_component_type Damage OtherDamage eq_refl)
    as (H1 & _ & _ & _ & H5 & _).
  split; [exact H1|].
  apply (H5 10 (heap one_damage) (this one_damage) (ext one_damage) damage_a 1 0).
  - lia.
  - vm_compute. reflexivity.
  - vm_compute. reflexivity.
  - vm_compute. reflexivity.
  - vm_compute. reflexivity.
  - exists damage_a. vm_compute. reflexivity.
  - vm_compute. reflexivity.
Defined.

(** C10, as stated, fails for [remove] and for [add] on a linked
    component: with an instance of [Damage] appended, [remove(Damage)]
    removes it, while [remove] of the other class of the same name throws;
    and [add] of an instance of [Damage] replaces it, while [add] of an
    instance of the other class throws, the appended instance staying in
    its slot. *)
Lemma same_name_remove_differs :
  class_name Damage = class_name OtherDamage /\
  outcome (Entity.remove record 10 (KClass Damage) one_damage) =
    Some (inr (Some damage_a)) /\
  outcome (Entity.remove record 10 (KClass OtherDamage) one_damage) =
    Some (inl ResolveMismatch) /\
  outcome (Entity.add record 10 (IComp (mkComponent 30 Damage [])) None one_damage) =
    Some (inr tt) /\
  outcome (Entity.add record 10 (IComp (mkComponent 31 OtherDamage [])) None one_damage) =
    Some (inl ResolveMismatch) /\
  match Entity.add record 10 (IComp (mkComponent 31 OtherDamage [])) None one_damage with
  | Throw _ s => Entity.get (heap s) (this s) Damage = Some damage_a
  | _ => False
  end.
Proof. vm_compute. repeat split; reflexivity. Qed.

(** * [remove] of a linked type whose last instance has no own [next] *)

(** A loop whose body returns without changing anything, on a list that is
    not empty, does not come to an end. *)
Lemma while_not_empty_stuck {X A} (body : M X A) (L : nat) (s : St X) (r : A) :
  LinkedComponentList.isEmpty L (heap s) = false ->
  body s = Ok r s ->
  forall n, Entity.while_not_empty n L body s = OutOfFuel.
Proof.
  intros He Hb. induction n as [|n IH]; simpl; rewrite He; [done|].
  unfold bind. by rewrite Hb.
Qed.

(** C4: the code does not do what the claim says when the last instance of
    the list has no own [next] property (an instance of a class that
    implements [ILinkedComponent] and declares no [next], as the [Damage] of
    the README: [add] of the list gives an own [next] to every instance but
    the last). With the list [a; b] of such instances, [remove(K)]
    withdraws [a]; it then takes [b] for a standard component and deletes
    its slot, leaving [b] the head of the list; and from then on
    [while (!list.isEmpty) this.withdraw(K)] withdraws nothing: the call
    does not return, whatever the number of steps. *)
Theorem remove_hangs_on_plain_tail (fuel : nat) (h : Heap) (e : Entity) (x : Trace)
  (K : Class) (i L : nat) (a b : Component) :
  componentIds h !! class_name K = Some i ->
  _linkedComponents e !! i = Some L ->
  _components e !! i = Some a ->
  list_head h !! L = Some a ->
  next_prop h !! a = Some (Some b) ->
  next_prop h !! b = None ->
  instanceOf a K = true -> instanceOf b K = true ->
  Entity.remove record fuel (KClass K) (mkSt h e x) = OutOfFuel.
Proof.
  intros Hid HL Hslot Hhead Ha Hb Hia Hib.
  assert (Hla : isLinkedComponent h a = true).
  { unfold isLinkedComponent. rewrite Ha. by apply bool_decide_eq_true_2. }
  assert (Hlb : isLinkedComponent h b = false).
  { unfold isLinkedComponent. rewrite Hb. by apply bool_decide_eq_false_2, is_Some_None. }
  assert (Hna : next_of h a = Some b) by (unfold next_of; by rewrite Ha).
  unfold Entity.remove, Entity.remove_with.
  unfold bind at 1. unfold Entity.bumpNumberComponents, bind at 1, getHeap, setHeap.
  cbn [heap this ext].
  set (h1 := set_NumberComponents (NumberComponents h + -1) h).
  assert (Hrun : forall n f, Entity.while_not_empty n L
            (Entity.withdraw_with record (Entity.removeComponent record f) f K)
            (mkSt h1 e x) = OutOfFuel).
  { intros n f. destruct n as [|n]; cbn [Entity.while_not_empty];
      unfold LinkedComponentList.isEmpty, LinkedComponentList.head; cbn [heap];
      change (list_head h1) with (list_head h); rewrite Hhead; [done|].
    (* the first round withdraws [a] *)
    unfold bind at 1. unfold Entity.withdraw_with at 1. unfold bind at 1 2.
    unfold getThis, getHeap. cbn [heap this].
    unfold Entity.get at 1. rewrite getComponentId_read.
    change (componentIds h1) with (componentIds h). rewrite Hid. cbn [fst]. rewrite Hslot.
    rewrite (withdrawComponent_head record _ _ h1 e x K i L a Hid Hslot Hla
               (getComponentClass_instance a K Hia) HL Hhead).
    change (next_of h1 a) with (next_of h a). rewrite Hna.
    unfold bind at 1. rewrite dispatchOnComponentRemoved_record. cbn [this ext heap].
    unfold ret at 1.
    set (h2 := set_head L (Some b) h1).
    set (e2 := set_components (<[i := b]> (_components e)) e).
    set (x2 := x ++ Signal.emit (onComponentRemoved e2) (EvRemoved (IComp a))).
    assert (Hid2 : componentIds h2 !! class_name K = Some i) by done.
    assert (Hslot2 : _components e2 !! i = Some b) by apply lookup_insert_eq.
    assert (Hlb2 : isLinkedComponent h2 b = false) by done.
    destruct n as [|n]; cbn [Entity.while_not_empty];
      unfold LinkedComponentList.isEmpty, LinkedComponentList.head; cbn [heap];
      unfold h2 at 1; rewrite list_head_set_head; [done|].
    (* the second round removes [b] as a standard component *)
    unfold bind at 1. unfold Entity.withdraw_with at 1. unfold bind at 1 2.
    unfold getThis, getHeap. cbn [heap this].
    unfold Entity.get at 1. rewrite getComponentId_read, Hid2. cbn [fst]. rewrite Hslot2.
    unfold Entity.withdrawComponent_with at 1.
    rewrite (getComponentClass_instance b K Hib).
    unfold bind at 1 2. unfold orThrow, ret at 1, getHeap. cbn [heap]. rewrite Hlb2.
    cbn [negb]. unfold Entity.remove_with.
    unfold bind at 1. unfold Entity.bumpNumberComponents, bind at 1, getHeap, setHeap.
    cbn [heap this ext].
    set (h3 := set_NumberComponents (NumberComponents h2 + -1) h2).
    rewrite (removeComponent_plain record _ h3 e2 x2 K i b Hid2 Hslot2 Hlb2).
    unfold bind at 1. rewrite dispatchOnComponentRemoved_record. cbn [this ext heap].
    unfold ret at 1.
    set (e3 := set_components (delete i (_components e2)) e2).
    (* from here on the list holds [b] and the entity has no slot *)
    apply (while_not_empty_stuck _ L _ None).
    - unfold LinkedComponentList.isEmpty, LinkedComponentList.head. cbn [heap].
      change (list_head h3) with (list_head h2). unfold h2. by rewrite list_head_set_head.
    - unfold Entity.withdraw_with, bind, getThis, getHeap. cbn [heap this].
      unfold Entity.get. rewrite getComponentId_read.
      change (componentIds h3) with (componentIds h). rewrite Hid. cbn [fst].
      unfold e3. cbn [_components set_components]. by rewrite lookup_delete_eq. }
  destruct fuel as [|f].
  - cbn [Entity.removeComponent]. unfold bind at 1 2. unfold getThis, getHeap. cbn [heap this].
    rewrite getComponentId_read. change (componentIds h1) with (componentIds h).
    rewrite Hid. cbn [fst]. rewrite Hslot.
    change (isLinkedComponent h1 a) with (isLinkedComponent h a). rewrite Hla.
    unfold bind at 1. unfold Entity.getLinkedComponentList, bind at 1, getThis. cbn [this].
    rewrite HL. unfold ret at 1. unfold bind, getHeap. cbn [heap].
    unfold LinkedComponentList.isEmpty, LinkedComponentList.head.
    change (list_head h1) with (list_head h). by rewrite Hhead.
  - cbn [Entity.removeComponent]. unfold bind at 1 2. unfold getThis, getHeap. cbn [heap this].
    rewrite getComponentId_read. change (componentIds h1) with (componentIds h).
    rewrite Hid. cbn [fst]. rewrite Hslot.
    change (isLinkedComponent h1 a) with (isLinkedComponent h a). rewrite Hla.
    unfold bind at 1. unfold Entity.getLinkedComponentList, bind at 1, getThis. cbn [this].
    rewrite HL. unfold ret at 1. unfold bind at 1.
    by rewrite (Hrun f f).
Qed.

(** * Linked lists, instance by instance *)

Lemma chain_nodes h o l :
  chain h o l -> forall fuel, length l <= fuel ->
  LinkedComponentList.nodes_from fuel o h = Some l.
Proof.
  induction 1 as [|c l Hc IH]; intros fuel Hf.
  - by destruct fuel.
  - simpl in Hf. destruct fuel as [|f]; [lia|]. simpl.
    rewrite IH by lia. done.
Qed.

Lemma list_find_absent h c : forall fuel l o prev,
  chain h o l -> c ∉ l -> length l <= fuel ->
  LinkedComponentList.find fuel c prev o h = Some (None, None).
Proof.
  induction fuel as [|f IH]; intros l o prev Hch Hc Hf.
  - destruct l; [|simpl in Hf; lia]. inversion Hch; subst. done.
  - inversion Hch as [|d l' Hrest]; subst; [done|].
    apply not_elem_of_cons in Hc as [Hne Hc]. simpl.
    destruct (decide (d = c)) as [->|_]; [done|].
    apply (IH l'); [done|done|simpl in Hf; lia].
Qed.

Lemma list_find_present h c : forall fuel l1 l2 o prev,
  chain h o (l1 ++ c :: l2) -> c ∉ l1 -> length l1 <= fuel ->
  LinkedComponentList.find fuel c prev o h =
  Some (match last l1 with Some p => Some p | None => prev end, Some c).
Proof.
  induction fuel as [|f IH]; intros l1 l2 o prev Hch Hc Hf.
  - destruct l1; [|simpl in Hf; lia]. simpl in Hch. inversion Hch; subst. simpl.
    by rewrite decide_True.
  - destruct l1 as [|d l1].
    + simpl in Hch. inversion Hch; subst. simpl. by rewrite decide_True.
    + simpl in Hch. inversion Hch as [|d' l' Hrest]; subst.
      apply not_elem_of_cons in Hc as [Hne Hc]. simpl.
      destruct (decide (d = c)) as [->|_]; [done|].
      rewrite (IH l1 l2 _ (Some d) Hrest Hc) by (simpl in Hf; lia).
      rewrite last_cons. by destruct (last l1).
Qed.

(** Taking the successor of [p] out of the chain. *)
Lemma chain_unlink h p c : forall l1 l2 o,
  chain h o (l1 ++ p :: c :: l2) ->
  chain (set_next p (next_of h c) h) o (l1 ++ p :: l2).
Proof.
  intros l1 l2 o Hch. pose proof (chain_NoDup _ _ _ Hch) as Hnd.
  revert o Hch Hnd. induction l1 as [|d l1 IH]; intros o Hch Hnd; simpl in *.
  - inversion Hch as [|? ? Hrest]; subst. constructor.
    rewrite next_of_set_next_eq.
    inversion Hrest as [|? ? Htail]; subst.
    apply chain_frame; [|done].
    apply NoDup_cons in Hnd as [Hp _]. set_solver.
  - inversion Hch as [|? ? Hrest]; subst. constructor.
    apply NoDup_cons in Hnd as [Hd Hnd].
    rewrite next_of_set_next_ne by set_solver.
    by apply IH.
Qed.

Lemma last_snoc_some {A} (l : list A) x : last (l ++ [x]) = Some x.
Proof. by rewrite last_snoc. Qed.

(** What [remove] leaves of a list. *)
Lemma list_remove_present h L c l1 l2 fuel :
  chain h (list_head h !! L) (l1 ++ c :: l2) -> length l1 <= fuel ->
  LinkedComponentList.remove fuel L c h = Ok true (unlink h L (last l1) c) /\
  chain (unlink h L (last l1) c) (list_head (unlink h L (last l1) c) !! L) (l1 ++ l2) /\
  next_of (unlink h L (last l1) c) c = next_of h c.
Proof.
  intros Hch Hf. pose proof (chain_NoDup _ _ _ Hch) as Hnd.
  assert (Hc : c ∉ l1).
  { apply NoDup_app in Hnd as (_ & Hd & _). intros Hin. apply (Hd c Hin). set_solver. }
  unfold LinkedComponentList.remove, LinkedComponentList.head.
  rewrite (list_find_present h c fuel l1 l2 _ None Hch Hc Hf).
  destruct l1 as [|d l1] using rev_ind.
  - change (unlink h L (last []) c) with (set_head L (next_of h c) h).
    split; [done|]. simpl in Hch. split; [|done].
    pose proof (chain_head _ _ _ Hch) as Hh. simpl in Hh. rewrite <- Hh in Hch.
    apply chain_tail in Hch as [Hn Ht]. rewrite list_head_set_head, Hn.
    by apply (chain_next_prop h).
  - clear IHl1. rewrite last_snoc_some.
    change (unlink h L (Some d) c) with (set_next d (next_of h c) h). split; [done|].
    rewrite <- app_assoc in Hch. simpl in Hch. split.
    + rewrite <- app_assoc. simpl. by apply chain_unlink.
    + apply next_of_set_next_ne. intros ->. apply Hc. set_solver.
Qed.

Lemma list_remove_absent h L c l fuel :
  chain h (list_head h !! L) l -> c ∉ l -> length l <= fuel ->
  LinkedComponentList.remove fuel L c h = Ok false h.
Proof.
  intros Hch Hc Hf. unfold LinkedComponentList.remove, LinkedComponentList.head.
  by rewrite (list_find_absent h c fuel l _ None Hch Hc Hf).
Qed.

(** X1: [LinkedComponentList.add] puts a new instance behind the last one:
    when the list holds the instances [l], the instance [c] is not among
    them and its [next] is [undefined], then after [add(c)] the list holds
    [l] followed by [c]. *)
Theorem list_add_at_tail (h : Heap) (L : nat) (c : Component) (l : list Component)
  (fuel : nat) :
  chain h (list_head h !! L) l -> length l <= fuel ->
  c ∉ l -> next_of h c = None ->
  exists h',
    LinkedComponentList.add fuel L c h = Ok tt h' /\
    LinkedComponentList.nodes (S fuel) L h' = Some (l ++ [c]).
Proof.
  intros Hch Hf Hc Hn.
  rewrite (list_add_absent h L c l fuel Hch Hc Hf).
  eexists. split; [reflexivity|]. unfold LinkedComponentList.nodes, LinkedComponentList.head.
  apply chain_nodes; [|rewrite length_app; simpl; lia].
  destruct (last l) as [p|] eqn:Hl.
  - by apply chain_snoc.
  - apply last_None in Hl as ->. rewrite list_head_set_head. simpl.
    constructor. change (next_of (set_head L (Some c) h) c) with (next_of h c).
    rewrite Hn. constructor.
Qed.

Lemma two_damage_holds :
  holds_list (heap two_damage) (this two_damage) Damage 1 0 [damage_a; damage_b].
Proof.
  split.
  - vm_compute. reflexivity.
  - vm_compute. reflexivity.
  - vm_compute. reflexivity.
  - apply (nodes_chain _ 5). vm_compute. reflexivity.
  - repeat constructor; vm_compute; reflexivity.
  - repeat constructor; vm_compute; reflexivity.
Qed.

Lemma list_add_at_tail_witness :
  exists h',
    LinkedComponentList.add 10 0 damage_c (heap two_damage) = Ok tt h' /\
    LinkedComponentList.nodes 11 0 h' = Some ([damage_a; damage_b] ++ [damage_c]).
Proof.
  apply (list_add_at_tail (heap two_damage) 0 damage_c [damage_a; damage_b] 10).
  - exact (hl_chain _ _ _ _ _ _ two_damage_holds).
  - simpl. lia.
  - set_solver.
  - vm_compute. reflexivity.
Defined.

(** X2: [LinkedComponentList.remove] takes exactly the given instance out
    of the list, wherever it stands, and returns [true]; the other instances
    keep their order, and the [next] of the removed instance is left as it
    was. For an instance that is not in the list it returns [false] and
    changes nothing. *)
Theorem list_remove_unlinks (h : Heap) (L : nat) (c : Component) (l : list Component)
  (fuel : nat) :
  chain h (list_head h !! L) l -> length l <= fuel ->
  (c ∉ l -> LinkedComponentList.remove fuel L c h = Ok false h) /\
  (forall l1 l2, l = l1 ++ c :: l2 ->
     exists h',
       LinkedComponentList.remove fuel L c h = Ok true h' /\
       LinkedComponentList.nodes fuel L h' = Some (l1 ++ l2) /\
       next_of h' c = next_of h c).
Proof.
  intros Hch Hf. split.
  - intros Hc. by apply (list_remove_absent h L c l).
  - intros l1 l2 ->. rewrite length_app in Hf. simpl in Hf.
    destruct (list_remove_present h L c l1 l2 fuel Hch) as (Hr & Hc' & Hn); [lia|].
    eexists. split; [exact Hr|]. split; [|exact Hn].
    apply chain_nodes; [exact Hc'|]. rewrite length_app. lia.
Qed.

Lemma list_remove_unlinks_witness :
  exists h',
    LinkedComponentList.remove 10 0 damage_b (heap three_damage) = Ok true h' /\
    LinkedComponentList.nodes 10 0 h' = Some ([damage_a] ++ [damage_c]) /\
    next_of h' damage_b = next_of (heap three_damage) damage_b.
Proof.
  apply (proj2 (list_remove_unlinks (heap three_damage) 0 damage_b
                  [damage_a; damage_b; damage_c] 10
                  (hl_chain _ _ _ _ _ _ three_damage_holds) ltac:(simpl; lia))
           [damage_a] [damage_c]).
  reflexivity.
Defined.

(** * [pick]: withdrawing a given instance *)

Section PickEquations.

Context {X : Type}.
Variable handle : nat -> Event -> M X unit.


End PickEquations.








(** X4: [pick] of an instance that is not a linked component is [remove] of
    its resolved type, whatever the entity holds for that type. When the
    slot of the type holds an instance that is not a linked component, that
    instance is removed and returned, also when it is another instance than
    the one passed, with one removed event for it. When the slot holds the
    head of a linked list (of instances that have an own [next]), the whole
    list is removed, with one removed event for each instance, and the head
    is returned. *)
Theorem pick_standard_component (fuel : nat) (h : Heap) (e : Entity) (x : Trace)
  (K : Class) (c : Component) (rc : option Class) :
  ComponentId.getComponentClass c rc = inr K ->
  isLinkedComponent h c = false ->
  Entity.pick record fuel c rc (mkSt h e x) =
    Entity.remove record fuel (KClass K) (mkSt h e x) /\
  (forall i d,
     componentIds h !! class_name K = Some i ->
     _components e !! i = Some d ->
     isLinkedComponent h d = false ->
     Entity.pick record fuel c rc (mkSt h e x) =
       Ok (Some d)
          (mkSt (set_NumberComponents (NumberComponents h + -1) h)
             (set_components (delete i (_components e)) e)
             (x ++ map (fun f => (f, EvRemoved (IComp d)))
                       (ids (Signal.handlers (onComponentRemoved e)))))) /\
  (forall i L d l,
     holds_list h e K i L (d :: l) ->
     length (d :: l) < fuel ->
     Entity.pick record fuel c rc (mkSt h e x) =
       Ok (Some d)
          (mkSt (set_head L None (set_NumberComponents (NumberComponents h + -1) h))
             (withdrawn e i [])
             (x ++ flat_map (fun d' => map (fun f => (f, EvRemoved (IComp d')))
                                           (ids (Signal.handlers (onComponentRemoved e))))
                            (d :: l)))).
Proof.
  intros Hcc Hlc.
  assert (Heq : Entity.pick record fuel c rc (mkSt h e x) =
                Entity.remove record fuel (KClass K) (mkSt h e x)).
  { unfold Entity.pick, Entity.withdrawComponent, Entity.withdrawComponent_with.
    rewrite Hcc. unfold bind at 1 2. unfold orThrow, ret at 1, getHeap. cbn [heap this ext].
    by rewrite Hlc. }
  split; [done|]. split.
  - intros i d Hid Hslot Hld. rewrite Heq.
    unfold Entity.remove, Entity.remove_with, Entity.bumpNumberComponents.
    unfold bind at 1 2. unfold getHeap, setHeap. cbn [heap this ext].
    rewrite (removeComponent_unlinked fuel _ e x K i d) by done.
    by rewrite emit_invocations.
  - intros i L d l Hh Hf. rewrite Heq.
    rewrite (proj1 (remove_linked_removes_all fuel h e x K i L d l Hh Hf)).
    do 3 f_equal. unfold removed_events. generalize (d :: l). intros l0.
    induction l0 as [|d0 l0 IH]; [done|]. cbn [flat_map].
    by rewrite IH, emit_invocations.
Qed.

Lemma pick_standard_component_witness :
  let h := heap one_position in
  let e := this one_position in
  let x := ext one_position in
  Entity.pick record 10 position2 None (mkSt h e x) =
    Ok (Some position1)
       (mkSt (set_NumberComponents (NumberComponents h + -1) h)
          (set_components (delete 1 (_components e)) e)
          (x ++ [(1, EvRemoved (IComp position1))])) /\
  Entity.pick record 10 hit100 None
    (mkSt (heap three_damage) (this three_damage) (ext three_damage)) =
    Ok (Some damage_a)
       (mkSt (set_head 0 None
                (set_NumberComponents (NumberComponents (heap three_damage) + -1)
                   (heap three_damage)))
          (withdrawn (this three_damage) 1 [])
          (ext three_damage ++
           [(1, EvRemoved (IComp damage_a)); (1, EvRemoved (IComp damage_b));
            (1, EvRemoved (IComp damage_c))])).
Proof.
  split.
  - apply (proj1 (proj2 (pick_standard_component 10 (heap one_position) (this one_position)
                           (ext one_position) Position position2 None eq_refl eq_refl))
             1 position1).
    + vm_compute. reflexivity.
    + vm_compute. reflexivity.
    + vm_compute. reflexivity.
  - apply (proj2 (proj2 (pick_standard_component 10 (heap three_damage) (this three_damage)
                           (ext three_damage) Damage hit100 None
                           eq_refl eq_refl))
             1 0 damage_a [damage_b; damage_c]).
    + exact three_damage_holds.
    + simpl. lia.
Defined.

(** * Walking the instances of a type *)





(** X6: for a type of which the entity holds an instance that is not a
    linked component (and no list): [lengthOf] returns 0 and leaves a new,
    empty list for the type in the entity; [getAll] yields nothing; [find]
    applies the predicate to the one instance; [contains(c)] says whether
    [c] is that instance. *)
Theorem walk_standard_component {X : Type} (fuel : nat) (h : Heap) (e : Entity) (x : X)
  (K : Class) (i : nat) (d : Component) :
  componentIds h !! class_name K = Some i ->
  _components e !! i = Some d ->
  isLinkedComponent h d = false ->
  _linkedComponents e !! i = None ->
  let s := mkSt h e x in
  Entity.lengthOf fuel K s =
    Ok 0 (mkSt (snd (alloc_list h))
            (set_linkedComponents (<[i := list_count h]> (_linkedComponents e)) e) x) /\
  Entity.getAll fuel K s = Ok [] s /\
  (forall p, Entity.find fuel K p s = Ok (if p d then Some d else None) s) /\
  (forall c rc, ComponentId.getComponentClass c rc = inr K ->
     isLinkedComponent h c = false ->
     Entity.contains fuel c rc s = Ok (bool_decide (d = c)) s).
Proof.
  intros Hid Hslot Hld Hlist s.
  split; [|split; [|split]].
  - unfold Entity.lengthOf, bind, getThis, getHeap, s. cbn [heap this ext].
    rewrite (hasComponent_slot h e K i d Hid Hslot). cbn [negb].
    rewrite getComponentId_read, Hid. cbn [fst].
    unfold Entity.getLinkedComponentList, bind, getThis. cbn [heap this ext].
    rewrite Hlist. unfold onHeap, setThis, ret. cbn [heap this ext alloc_list fst snd].
    unfold LinkedComponentList.nodes, LinkedComponentList.head. cbn [list_head].
    rewrite lookup_delete_eq. by destruct fuel.
  - unfold Entity.getAll, bind, getThis, getHeap, s. cbn [heap this ext].
    rewrite (hasComponent_slot h e K i d Hid Hslot). cbn [negb].
    rewrite getComponentId_read, Hid. cbn [fst].
    unfold Entity.getLinkedComponentList, bind, getThis. cbn [heap this ext].
    by rewrite Hlist.
  - intros p. unfold Entity.find, bind, getThis, getHeap, s. cbn [heap this ext].
    rewrite getComponentId_read, Hid. cbn [fst]. by rewrite Hslot, Hld.
  - intros c rc Hcc Hlc. unfold Entity.contains. rewrite Hcc.
    unfold bind, orThrow, ret, getHeap, getThis, s. cbn [heap this ext]. rewrite Hlc.
    cbn [this]. unfold Entity.get. rewrite getComponentId_read, Hid. cbn [fst]. rewrite Hslot.
    f_equal. apply bool_decide_ext. split; congruence.
Qed.

Lemma walk_standard_component_witness :
  let h := heap one_position in
  let e := this one_position in
  let s := mkSt h e tt in
  Entity.lengthOf 10 Position s =
    Ok 0 (mkSt (snd (alloc_list h))
            (set_linkedComponents (<[1 := list_count h]> (_linkedComponents e)) e) tt) /\
  Entity.getAll 10 Position s = Ok [] s /\
  (forall p, Entity.find 10 Position p s = Ok (if p position1 then Some position1 else None) s) /\
  (forall c rc, ComponentId.getComponentClass c rc = inr Position ->
     isLinkedComponent h c = false ->
     Entity.contains 10 c rc s = Ok (bool_decide (position1 = c)) s).
Proof.
  apply (walk_standard_component 10 (heap one_position) (this one_position) tt Position 1
           position1).
  - vm_compute. reflexivity.
  - vm_compute. reflexivity.
  - vm_compute. reflexivity.
  - vm_compute. reflexivity.
Defined.

(** * Copies, errors, round trips *)

Lemma holds_list_same h e e' K i L l :
  _components e' = _components e -> _linkedComponents e' = _linkedComponents e ->
  holds_list h e K i L l -> holds_list h e' K i L l.
Proof.
  intros Hc Hl [Hid Hlist Hslot Hchain Hlinked Hclass].
  split; try done; [by rewrite Hl|by rewrite Hc].
Qed.

(** X7: [copyFrom] copies the linked lists by reference. The copy answers
    [has] and [get] as the source does; and appending an instance to the
    copy appends it to the list of the source as well, without any listener
    of the source being invoked. *)
Theorem copy_shares_linked_lists (fuel : nat) (h : Heap) (e target : Entity) (x : Trace)
  (K : Class) (i L : nat) (l : list Component) (c : Component) :
  holds_list h e K i L l -> l <> [] -> c ∉ l ->
  comp_class c = K -> isLinkedComponent h c = true -> next_of h c = None ->
  length l <= fuel ->
  let copy := Entity.copyFrom target e in
  (forall k, Entity.has h copy k = Entity.has h e k) /\
  Entity.get h copy K = Entity.get h e K /\
  exists h',
    Entity.append record fuel c None (mkSt h copy x) =
      Ok tt (mkSt h' copy
               (x ++ Signal.emit (onComponentAdded target) (EvAdded (IComp c)))) /\
    holds_list h' e K i L (l ++ [c]).
Proof.
  intros Hl Hne Hc HK Hlc Hn Hf copy.
  split; [by intros []|]. split; [done|].
  assert (Hcopy : holds_list h copy K i L l) by (by apply (holds_list_same h e)).
  destruct (append_more fuel h copy x c K i L l Hcopy Hne Hc HK Hlc Hn Hf)
    as (p & Hp & Hrun & Hafter).
  exists (set_next p (Some c) h). split; [exact Hrun|].
  by apply (holds_list_same _ copy).
Qed.

Lemma copy_shares_linked_lists_witness :
  let h := heap two_damage in
  let e := this two_damage in
  let copy := Entity.copyFrom (new_entity 8) e in
  (forall k, Entity.has h copy k = Entity.has h e k) /\
  Entity.get h copy Damage = Entity.get h e Damage /\
  exists h',
    Entity.append record 10 damage_c None (mkSt h copy []) =
      Ok tt (mkSt h' copy
               ([] ++ Signal.emit (onComponentAdded (new_entity 8)) (EvAdded (IComp damage_c)))) /\
    holds_list h' e Damage 1 0 ([damage_a; damage_b] ++ [damage_c]).
Proof.
  apply (copy_shares_linked_lists 10 (heap two_damage) (this two_damage) (new_entity 8) []
           Damage 1 0 [damage_a; damage_b] damage_c two_damage_holds).
  - discriminate.
  - set_solver.
  - reflexivity.
  - vm_compute. reflexivity.
  - vm_compute. reflexivity.
  - simpl. lia.
Defined.

(** X8: a resolving class of which the instance is not an instance makes
    [add], [append], [pick] and [contains] throw before anything is changed
    and before any listener is invoked. *)
Theorem resolve_mismatch_throws (fuel : nat) (c : Component) (K : Class) (s : St Trace) :
  instanceOf c K = false ->
  Entity.add record fuel (IComp c) (Some K) s = Throw ResolveMismatch s /\
  Entity.append record fuel c (Some K) s = Throw ResolveMismatch s /\
  Entity.pick record fuel c (Some K) s = Throw ResolveMismatch s /\
  Entity.contains fuel c (Some K) s = Throw ResolveMismatch s.
Proof.
  intros Hi.
  assert (Hcc : ComponentId.getComponentClass c (Some K) = inl ResolveMismatch).
  { unfold ComponentId.getComponentClass. rewrite Hi.
    rewrite bool_decide_eq_false_2; [done|].
    intros <-. by rewrite instanceOf_own in Hi. }
  split; [|split; [|split]].
  - unfold Entity.add, Entity.addComponent. by rewrite Hcc.
  - unfold Entity.append, Entity.appendComponent. by rewrite Hcc.
  - unfold Entity.pick, Entity.withdrawComponent, Entity.withdrawComponent_with. by rewrite Hcc.
  - unfold Entity.contains. by rewrite Hcc.
Qed.

Lemma resolve_mismatch_throws_witness :
  Entity.add record 10 (IComp position1) (Some Damage) one_position =
    Throw ResolveMismatch one_position /\
  Entity.append record 10 position1 (Some Damage) one_position =
    Throw ResolveMismatch one_position /\
  Entity.pick record 10 position1 (Some Damage) one_position =
    Throw ResolveMismatch one_position /\
  Entity.contains 10 position1 (Some Damage) one_position =
    Throw ResolveMismatch one_position.
Proof.
  apply (resolve_mismatch_throws 10 position1 Damage one_position).
  vm_compute. reflexivity.
Defined.

(** X9: [remove] of a tag or of a type the entity does not have returns
    [undefined], invokes no listener and leaves the entity as it is; the
    counter [Entity.NumberComponents] is decremented all the same. *)
Theorem remove_absent (fuel : nat) (h : Heap) (e : Entity) (x : Trace) (k : Key) :
  Entity.has h e k = false ->
  Entity.remove record fuel k (mkSt h e x) =
    Ok None (mkSt (set_NumberComponents (NumberComponents h + -1) h) e x).
Proof.
  intros Hk. unfold Entity.remove, Entity.remove_with, Entity.bumpNumberComponents.
  unfold bind at 1 2. unfold getHeap, setHeap. cbn [heap this ext].
  destruct k as [t|K]; simpl in Hk.
  - unfold bind. by rewrite removeTag_absent.
  - apply removeComponent_nothing. unfold Entity.hasComponent, Entity.get in *.
    rewrite getComponentId_read in *. cbn [fst] in *.
    change (componentIds (set_NumberComponents (NumberComponents h + -1) h))
      with (componentIds h).
    destruct (componentIds h !! class_name K) as [i|]; [|done].
    destruct (_components e !! i) eqn:E; [|done].
    rewrite bool_decide_eq_true_2 in Hk by eauto. done.
Qed.

Lemma remove_absent_witness :
  Entity.remove record 10 (KClass Damage)
    (mkSt (heap one_position) (this one_position) (ext one_position)) =
  Ok None (mkSt (set_NumberComponents (NumberComponents (heap one_position) + -1)
                   (heap one_position))
             (this one_position) (ext one_position)).
Proof.
  apply (remove_absent 10 (heap one_position) (this one_position) (ext one_position)
           (KClass Damage)).
  vm_compute. reflexivity.
Defined.




(** * The first snapshot of an entity *)

(** X11: when a snapshot was not last taken of the entity (a new snapshot,
    or one last used for another entity), [takeSnapshot] copies the entity
    and undoes the change in the copy. For a changed tag, and for a
    component that was added to an empty slot or whose removal emptied the
    slot, [previous] then has the tags and components the entity had before
    the change. When the entity still has the type of the changed component
    (a linked component appended to, or withdrawn from, a list that holds
    others), [previous] has no component of that type. *)
Theorem first_snapshot_shows_state_before (e0 : Entity) (result : EntitySnapshot)
  (h : Heap) :
  _current result <> Some (entity_id e0) ->
  (forall t e1,
     _components e1 = _components e0 -> entity_id e1 = entity_id e0 ->
     ((t ∉ _tags e0) /\ _tags e1 = {[t]} ∪ _tags e0) \/
     (t ∈ _tags e0 /\ _tags e1 = _tags e0 ∖ {[t]}) ->
     let r := takeSnapshot e1 result (Some (ITag t)) None h in
     _current (fst r) = Some (entity_id e0) /\ snd r = h /\
     _tags (_previous (fst r)) = _tags e0 /\
     _components (_previous (fst r)) = _components e0) /\
  (forall c i e1,
     componentIds h !! class_name (comp_class c) = Some i ->
     _tags e1 = _tags e0 -> entity_id e1 = entity_id e0 ->
     (_components e0 !! i = None /\ _components e1 = <[i := c]> (_components e0)) \/
     (_components e0 !! i = Some c /\ _components e1 = delete i (_components e0)) ->
     let r := takeSnapshot e1 result (Some (IComp c)) None h in
     _current (fst r) = Some (entity_id e0) /\ snd r = h /\
     _tags (_previous (fst r)) = _tags e0 /\
     _components (_previous (fst r)) = _components e0) /\
  (forall c i e1,
     componentIds h !! class_name (comp_class c) = Some i ->
     entity_id e1 = entity_id e0 ->
     is_Some (_components e1 !! i) ->
     let r := takeSnapshot e1 result (Some (IComp c)) None h in
     _current (fst r) = Some (entity_id e0) /\ snd r = h /\
     _tags (_previous (fst r)) = _tags e1 /\
     _components (_previous (fst r)) = delete i (_components e1)).
Proof.
  intros Hcur. split; [|split].
  - intros t e1 Hc Hid Hcase r. subst r. unfold takeSnapshot.
    rewrite Hid. rewrite bool_decide_eq_false_2 by done. cbn [_previous _current].
    simpl. split; [done|]. split; [done|]. split; [|done].
    unfold Entity.hasTag.
    destruct Hcase as [[Ht He]|[Ht He]]; rewrite He.
    + rewrite bool_decide_eq_true_2 by set_solver. set_solver.
    + rewrite bool_decide_eq_false_2 by set_solver.
      apply set_eq. intros t'. rewrite elem_of_union, elem_of_difference, elem_of_singleton.
      destruct (decide (t' = t)); naive_solver.
  - intros c i e1 Hi Ht Hid Hcase r. subst r. unfold takeSnapshot.
    rewrite Hid. rewrite bool_decide_eq_false_2 by done. cbn [_previous _current].
    rewrite (getComponentId_known _ true h i Hi).
    cbn [fst snd _current _previous]. split; [done|]. split; [done|].
    simpl. split; [done|].
    unfold Entity.hasComponent. rewrite getComponentId_read, Hi. cbn [fst].
    destruct Hcase as [[Hs He]|[Hs He]]; rewrite He.
    + rewrite lookup_insert_eq. rewrite bool_decide_eq_true_2 by eauto.
      by rewrite delete_insert_eq, delete_id.
    + rewrite lookup_delete_eq. rewrite bool_decide_eq_false_2 by (by apply is_Some_None).
      by rewrite insert_delete_eq, insert_id.
  - intros c i e1 Hi Hid Hslot r. subst r. unfold takeSnapshot.
    rewrite Hid. rewrite bool_decide_eq_false_2 by done. cbn [_previous _current].
    rewrite (getComponentId_known _ true h i Hi).
    cbn [fst snd _current _previous]. split; [done|]. split; [done|].
    simpl. split; [done|].
    unfold Entity.hasComponent. rewrite getComponentId_read, Hi. cbn [fst].
    by rewrite bool_decide_eq_true_2.
Qed.

Lemma first_snapshot_shows_state_before_witness :
  let e0 := new_entity 7 in
  let e1 := set_tags ({[alive]} ∪ _tags e0) e0 in
  let r := takeSnapshot e1 (new_snapshot 0) (Some (ITag alive)) None start_heap in
  (_current (fst r) = Some (entity_id e0) /\ snd r = start_heap /\
   _tags (_previous (fst r)) = _tags e0 /\
   _components (_previous (fst r)) = _components e0) /\
  let before := this two_damage in
  let r' := takeSnapshot (this three_damage) (new_snapshot 0) (Some (IComp damage_c)) None
              (heap three_damage) in
  _components before !! 1 = Some damage_a /\
  _components (_previous (fst r')) = delete 1 (_components (this three_damage)).
Proof.
  split.
  - apply (proj1 (first_snapshot_shows_state_before (new_entity 7) (new_snapshot 0) start_heap
                    ltac:(discriminate)) alive).
    + reflexivity.
    + reflexivity.
    + left. split; [set_solver|reflexivity].
  - split; [vm_compute; reflexivity|].
    apply (proj2 (proj2 (first_snapshot_shows_state_before (this three_damage) (new_snapshot 0)
                           (heap three_damage) ltac:(discriminate)))
             damage_c 1 (this three_damage)).
    + vm_compute. reflexivity.
    + reflexivity.
    + exists damage_a. vm_compute. reflexivity.
Defined.

(** * Signals: disconnecting and connecting again *)

Section SignalMore.

Import Signal.

Lemma ids_filter h l :
  ids (filter (fun it => handler it <> h) l) = filter (fun f => f <> h) (ids l).
Proof.
  induction l as [|it l IH]; [done|]. simpl.
  rewrite !filter_cons. destruct (decide (handler it <> h)); simpl; by rewrite IH.
Qed.

Lemma set_priority_has h p l :
  h ∈ ids l -> exists it, it ∈ set_priority h p l /\ handler it = h /\ priority it = p.
Proof.
  induction l as [|it l IH]; simpl; [by intros ?%elem_of_nil|].
  rewrite equals_spec. intros Hin. case_bool_decide as He.
  - exists (mkHandler (handler it) p). split; [apply elem_of_cons; by left|done].
  - apply elem_of_cons in Hin as [Hin|Hin]; [congruence|].
    destruct (IH Hin) as (it' & Hit & Hh & Hp). exists it'.
    split; [apply elem_of_cons; by right|done].
Qed.

Lemma signal_eta s : mkSignal (handlers s) = s.
Proof. by destruct s. Qed.

(** After [connect(h, p)] the handler is connected with that priority. *)
Lemma connected_has cs h p :
  exists it, it ∈ handlers (run (cs ++ [Connect h p])) /\ handler it = h /\ priority it = p.
Proof.
  destruct (run_invariant (cs ++ [Connect h p])) as (_ & _ & Hp).
  assert (H : exists it, it ∈ connected (cs ++ [Connect h p]) /\ handler it = h /\
                         priority it = p).
  { rewrite connected_snoc. simpl. rewrite existsb_ids. case_bool_decide as Hin.
    - by apply set_priority_has.
    - exists (mkHandler h p). split; [|done]. apply elem_of_app. right.
      apply elem_of_cons. by left. }
  destruct H as (it & Hit & Hh & Hpr). exists it. split; [|done].
  by rewrite Hp.
Qed.

End SignalMore.

(** X12: after [disconnect(h)], [emit] invokes the handlers it invoked
    before, in the same order, except [h]. *)
Theorem disconnect_drops_handler (cs : list Signal.Call) (h : nat) (A : Type) (args : A) :
  invoked (Signal.emit (Signal.run (cs ++ [Signal.Disconnect h])) args) =
  filter (fun f => f <> h) (invoked (Signal.emit (Signal.run cs) args)).
Proof.
  rewrite !emit_invoked, run_snoc. simpl.
  destruct (run_invariant cs) as (_ & Hnd & _).
  by rewrite (remove_first_filter h _ Hnd), ids_filter.
Qed.

(** X13: connecting a handler that is not connected and disconnecting it
    again leaves the handlers of the signal, and their order, as they were. *)
Theorem connect_disconnect_restores (cs : list Signal.Call) (h : nat) (p : Z) :
  h ∉ ids (Signal.handlers (Signal.run cs)) ->
  Signal.handlers (Signal.run (cs ++ [Signal.Connect h p; Signal.Disconnect h])) =
  Signal.handlers (Signal.run cs).
Proof.
  intros Hh.
  replace (cs ++ [Signal.Connect h p; Signal.Disconnect h])
    with ((cs ++ [Signal.Connect h p]) ++ [Signal.Disconnect h]) by (by rewrite <- app_assoc).
  rewrite !run_snoc. simpl.
  destruct (run_invariant cs) as (Hs & _ & _).
  rewrite (connect_fresh _ h p Hs) by (by apply find_none_ids).
  by apply remove_first_insert_same.
Qed.

Lemma connect_disconnect_restores_witness :
  Signal.handlers (Signal.run (five_one_five ++ [Signal.Connect 9 3; Signal.Disconnect 9])) =
  Signal.handlers (Signal.run five_one_five).
Proof.
  apply (connect_disconnect_restores five_one_five 9 3).
  vm_compute. set_solver.
Defined.

(** X14: a handler is held once: connecting a connected handler again with
    the priority it has changes nothing. *)
Theorem connect_twice_is_once (cs : list Signal.Call) (h : nat) (p : Z) :
  Signal.run (cs ++ [Signal.Connect h p; Signal.Connect h p]) =
  Signal.run (cs ++ [Signal.Connect h p]).
Proof.
  replace (cs ++ [Signal.Connect h p; Signal.Connect h p])
    with ((cs ++ [Signal.Connect h p]) ++ [Signal.Connect h p]) by (by rewrite <- app_assoc).
  rewrite (run_snoc (cs ++ [Signal.Connect h p])).
  destruct (run_invariant (cs ++ [Signal.Connect h p])) as (_ & Hnd & _).
  destruct (connected_has cs h p) as (it & Hit & Hh & Hp).
  set (s := Signal.run (cs ++ [Signal.Connect h p])) in *.
  simpl. unfold Signal.connect.
  destruct (List.find (fun it => Signal.equals it h) (Signal.handlers s)) as [it'|] eqn:Hf.
  - apply find_some_ids in Hf as [Hin' Hh'].
    assert (it' = it) as -> by (apply (ids_unique (Signal.handlers s)); congruence).
    rewrite Hp, Z.eqb_refl. simpl.
    rewrite set_priority_same; [apply signal_eta|].
    intros it2 Hin2 Hh2.
    assert (it2 = it) as -> by (apply (ids_unique (Signal.handlers s)); congruence).
    done.
  - apply find_none_ids in Hf. exfalso. apply Hf. unfold ids.
    apply list_elem_of_fmap. by exists it.
Qed.

(** * Queries: matching, validating, membership *)

Lemma takeSnapshot_plain e snap h : snd (takeSnapshot e snap None None h) = h.
Proof. done. Qed.

Lemma notify_plain sig b e q h :
  exists snap,
    Query.notify sig b e None None q h =
      (if b then Signal.emit (match sig with
                              | OnEntityAdded => onEntityAdded q
                              | OnEntityRemoved => onEntityRemoved q
                              end) (sig, snap)
       else [], (h, set_snapshot snap q)).
Proof.
  unfold Query.notify. destruct b.
  - eexists. unfold takeSnapshot. by destruct sig.
  - exists (_snapshot q). by destruct q.
Qed.

Lemma entityAdded_effect e q h :
  exists snap,
    Query.entityAdded e q h =
    if negb (Query.has q e) && _predicate q h e then
      (if Signal.hasHandlers (onEntityAdded q)
       then Signal.emit (onEntityAdded q) (OnEntityAdded, snap) else [],
       (h, set_snapshot snap (set_entities (Query.push (entity_id e) (_entities q)) q)))
    else ([], (h, set_snapshot snap q)).
Proof.
  unfold Query.entityAdded.
  destruct (negb (Query.has q e) && _predicate q h e).
  - destruct (notify_plain OnEntityAdded
                (Signal.hasHandlers (onEntityAdded
                   (set_entities (Query.push (entity_id e) (_entities q)) q))) e
                (set_entities (Query.push (entity_id e) (_entities q)) q) h) as [snap Hn].
    exists snap. exact Hn.
  - exists (_snapshot q). by destruct q.
Qed.

Lemma entityRemoved_effect e q h :
  exists snap,
    Query.entityRemoved e q h =
    if Query.has q e then
      (if Signal.hasHandlers (onEntityRemoved q)
       then Signal.emit (onEntityRemoved q) (OnEntityRemoved, snap) else [],
       (h, set_snapshot snap
             (set_entities (Query.splice_out (entity_id e) (_entities q)) q)))
    else ([], (h, set_snapshot snap q)).
Proof.
  unfold Query.entityRemoved.
  destruct (Query.has q e).
  - destruct (notify_plain OnEntityRemoved
                (Signal.hasHandlers (onEntityRemoved
                   (set_entities (Query.splice_out (entity_id e) (_entities q)) q))) e
                (set_entities (Query.splice_out (entity_id e) (_entities q)) q) h)
      as [snap Hn].
    exists snap. exact Hn.
  - exists (_snapshot q). by destruct q.
Qed.

(** What [validateEntity] does to one query. *)
Lemma validateEntity_step e q h :
  NoDup (_entities q) ->
  exists out q',
    Query.validateEntity e q h = (out, (h, q')) /\
    same_query q q' /\ NoDup (_entities q') /\
    Query.has q' e = _predicate q h e.
Proof.
  intros Hnd. unfold Query.validateEntity.
  destruct (Query.has q e) eqn:Hh; destruct (_predicate q h e) eqn:Hp; cbn [negb andb].
  - destruct (entityAdded_effect e q h) as [snap ->]. rewrite Hh, Hp. cbn [negb andb].
    eexists _, _. split; [done|]. split; [done|]. split; done.
  - destruct (entityRemoved_effect e q h) as [snap ->]. rewrite Hh.
    eexists _, _. split; [done|]. split; [done|].
    split; [by apply splice_out_NoDup|]. by apply (has_splice_out q).
  - destruct (entityAdded_effect e q h) as [snap ->]. rewrite Hh, Hp. cbn [negb andb].
    eexists _, _. split; [done|]. split; [done|].
    split; [by apply (push_NoDup q)|]. by apply (has_push q).
  - destruct (entityAdded_effect e q h) as [snap ->]. rewrite Hh, Hp. cbn [negb andb].
    eexists _, _. split; [done|]. split; [done|]. split; done.
Qed.

Lemma forEachQuery_validate e h : forall qs log,
  Forall (fun q => NoDup (_entities q)) qs ->
  exists g1,
    Engine.forEachQuery
      (fun q h => let (out, s) := Query.validateEntity e q h in Ok out s) qs h log =
      Ok tt (h, g1) /\
    Forall2 same_query qs (_queries g1) /\
    Forall (fun q => NoDup (_entities q)) (_queries g1) /\
    Forall (in_step h e) (_queries g1).
Proof.
  induction qs as [|q qs IH]; intros log Hnd.
  - eexists. split; [done|]. by repeat split.
  - apply Forall_cons in Hnd as [Hq Hnd].
    destruct (validateEntity_step e q h Hq) as (out & q' & Hv & Hsame & Hnd' & Hhas).
    destruct (IH (log ++ out) Hnd) as (g1 & Hrun & Hs1 & Hn1 & Hi1).
    simpl. rewrite Hv, Hrun. eexists. split; [done|]. cbn [_queries].
    split; [by constructor|]. split; [by constructor|].
    constructor; [|done]. unfold in_step. rewrite Hhas. by destruct Hsame as (-> & _).
Qed.

(** X15: [invalidate()] on an entity connected to an engine brings every
    query of the engine in step with the entity, also a query that the
    component events have left out of step: afterwards each query lists the
    entity exactly when its predicate holds of the entity. This is for
    predicates that read the entity and the store and change nothing (as
    every predicate of this development is); then the store and the entity
    are not changed by the call. *)
Theorem invalidate_brings_queries_in_step (fuel : nat) (s : St Engine) :
  Engine.callback ∈ map Signal.handler (Signal.handlers (onInvalidationRequested (this s))) ->
  Forall (fun q => NoDup (_entities q)) (_queries (ext s)) ->
  exists s',
    Entity.invalidate (Engine.handle fuel) s = Ok tt s' /\
    heap s' = heap s /\ this s' = this s /\
    Forall2 same_query (_queries (ext s)) (_queries (ext s')) /\
    Forall (fun q => Query.has q (this s') = _predicate q (heap s') (this s'))
           (_queries (ext s')).
Proof.
  intros Hconn Hnd. destruct s as [h e g]. cbn [heap this ext] in *.
  unfold Entity.invalidate, bind, getThis. cbn [this]. unfold Signal.emit.
  destruct (invoke_engine fuel e EvInvalidationRequested
              (fun h' qs => h' = h /\ Forall (fun q => NoDup (_entities q)) qs)
              (fun _ _ => True)
              (fun h' qs => Forall (in_step h' e) qs))
    with (hs := Signal.handlers (onInvalidationRequested e)) (h := h) (qs := _queries g)
         (log := delivered g)
    as (h1 & qs1 & log1 & Hrun & Hext & Hsame & (-> & Hnd1) & _ & Hpost).
  - intros h' qs log [-> Hq] _.
    destruct (forEachQuery_validate e h qs log Hq) as (g1 & Hrun & Hs1 & Hn1 & Hi1).
    exists h, (_queries g1), (delivered g1).
    unfold Engine.handle. rewrite Nat.eqb_refl. unfold Engine.route.
    cbn [heap this ext _queries delivered]. rewrite Hrun.
    split; [by rewrite engine_eta|]. split; [apply heap_ext_refl|].
    split; [done|]. split; [by split|done].
  - by split.
  - by left.
  - rewrite engine_eta in Hrun. rewrite Hrun.
    exists (mkSt h e (mkEngine qs1 log1)). split; [done|]. split; [done|]. split; [done|].
    split; [done|]. apply Hpost. by left.
Qed.

Lemma invalidate_brings_queries_in_step_witness :
  verdicts circle_world = [(true, false)] /\
  exists s',
    Entity.invalidate (Engine.handle 10) circle_world = Ok tt s' /\
    heap s' = heap circle_world /\
    this s' = this circle_world /\
    Forall2 same_query (_queries (ext circle_world)) (_queries (ext s')) /\
    Forall (fun q => Query.has q (this s') = _predicate q (heap s') (this s'))
           (_queries (ext s')).
Proof.
  split; [vm_compute; reflexivity|].
  apply (invalidate_brings_queries_in_step 10 circle_world).
  - assert (H : map Signal.handler
                  (Signal.handlers (onInvalidationRequested (this circle_world))) = [0])
      by (vm_compute; reflexivity).
    rewrite H. apply elem_of_cons. by left.
  - assert (H : _entities <$> _queries (ext circle_world) = [[7]])
      by (vm_compute; reflexivity).
    apply (Forall_fmap _entities NoDup). rewrite H.
    constructor; [apply NoDup_singleton|constructor].
Defined.

Lemma matchEntities_from h : forall es q,
  NoDup (map entity_id es) ->
  (forall e, e ∈ es -> entity_id e ∉ _entities q) ->
  exists out q',
    Query.matchEntities es q h = (out, (h, q')) /\
    same_query q q' /\
    _entities q' = _entities q ++ map entity_id (List.filter (_predicate q h) es) /\
    invoked out =
      flat_map (fun _ => ids (Signal.handlers (onEntityAdded q)))
               (List.filter (_predicate q h) es).
Proof.
  induction es as [|e es IH]; intros q Hnd Hfresh.
  - exists [], q. split; [done|]. split; [apply same_query_refl|].
    split; [by rewrite app_nil_r|done].
  - simpl in Hnd. apply NoDup_cons in Hnd as [He Hnd].
    assert (Hhas : Query.has q e = false).
    { apply bool_decide_eq_false_2. apply Hfresh. apply elem_of_cons. by left. }
    destruct (entityAdded_effect e q h) as [snap Hadd]. rewrite Hhas in Hadd.
    cbn [negb andb] in Hadd. cbn [Query.matchEntities]. rewrite Hadd.
    destruct (_predicate q h e) eqn:Hp.
    + destruct (IH (set_snapshot snap
                      (set_entities (Query.push (entity_id e) (_entities q)) q)) Hnd)
        as (out & q' & Hrun & Hsame & Hent & Hout).
      { intros e' Hin. simpl. unfold Query.push. rewrite elem_of_app.
        intros [H|H].
        - revert H. apply Hfresh. apply elem_of_cons. by right.
        - apply list_elem_of_singleton in H. apply He. rewrite <- H.
          apply list_elem_of_fmap. by exists e'. }
      rewrite Hrun. eexists _, q'. split; [done|]. split; [exact Hsame|].
      cbn [List.filter]. rewrite Hp. split.
      * rewrite Hent. simpl. unfold Query.push. by rewrite <- app_assoc.
      * unfold invoked in *. rewrite map_app. cbn [flat_map]. f_equal; [|exact Hout].
        destruct (Signal.hasHandlers (onEntityAdded q)) eqn:Hh.
        -- apply (emit_invoked (onEntityAdded q)).
        -- unfold Signal.hasHandlers in Hh. by destruct (Signal.handlers (onEntityAdded q)).
    + destruct (IH (set_snapshot snap q) Hnd) as (out & q' & Hrun & Hsame & Hent & Hout).
      { intros e' Hin. apply Hfresh. apply elem_of_cons. by right. }
      rewrite Hrun. eexists _, q'. split; [done|]. split; [exact Hsame|].
      cbn [List.filter]. rewrite Hp. by split.
Qed.

(** X16: [matchEntities] on a query that lists nothing (as [addQuery] calls
    it for a new query): afterwards the query lists, in the order given,
    exactly the entities that its predicate accepts, and every subscriber of
    [onEntityAdded] has been invoked once for each of them. *)
Theorem matchEntities_lists_matching (es : list Entity) (q : Query) (h : Heap) :
  _entities q = [] -> NoDup (map entity_id es) ->
  exists out q',
    Query.matchEntities es q h = (out, (h, q')) /\
    same_query q q' /\
    _entities q' = map entity_id (List.filter (_predicate q h) es) /\
    invoked out =
      flat_map (fun _ => ids (Signal.handlers (onEntityAdded q)))
               (List.filter (_predicate q h) es).
Proof.
  intros Hq Hnd.
  destruct (matchEntities_from h es q Hnd) as (out & q' & Hrun & Hsame & Hent & Hout).
  { intros e _. rewrite Hq. apply not_elem_of_nil. }
  exists out, q'. rewrite Hq in Hent. done.
Qed.

Lemma matchEntities_lists_matching_witness :
  let q := new_query (holds (CHas (KTag alive))) [5] in
  let es := [set_tags {[alive]} (new_entity 1); new_entity 2;
             set_tags {[alive; burning]} (new_entity 3)] in
  exists out q',
    Query.matchEntities es q start_heap = (out, (start_heap, q')) /\
    same_query q q' /\
    _entities q' = map entity_id (List.filter (_predicate q start_heap) es) /\
    invoked out =
      flat_map (fun _ => ids (Signal.handlers (onEntityAdded q)))
               (List.filter (_predicate q start_heap) es).
Proof.
  apply matchEntities_lists_matching.
  - reflexivity.
  - simpl. repeat constructor; set_solver.
Defined.

Lemma notify_entities sig b e changed rc q h :
  _entities (snd (snd (Query.notify sig b e changed rc q h))) = _entities q.
Proof.
  unfold Query.notify. destruct b; [|done].
  by destruct (takeSnapshot e (_snapshot q) changed rc h).
Qed.

Lemma updateHelper_entities fuel e item rc q h :
  match Query.updateHelper fuel e item rc q h with
  | Ok _ (_, q') => _entities q' = _entities q
  | Throw _ (_, q') => _entities q' = _entities q
  | OutOfFuel => True
  end.
Proof.
  unfold Query.updateHelper.
  match goal with |- context [match ?b with Ok _ _ => _ | Throw _ _ => _ | OutOfFuel => _ end] =>
    by destruct b end.
Qed.

(** X17: a query never lists an entity twice: if the entities of the query
    are pairwise different before [entityAdded], [entityRemoved],
    [validateEntity], [entityComponentAdded] or [entityComponentRemoved],
    they are so afterwards, also when the call throws. *)
Theorem query_lists_entity_once (e : Entity) (q : Query) (h : Heap) :
  NoDup (_entities q) ->
  NoDup (_entities (snd (snd (Query.entityAdded e q h)))) /\
  NoDup (_entities (snd (snd (Query.entityRemoved e q h)))) /\
  NoDup (_entities (snd (snd (Query.validateEntity e q h)))) /\
  (forall fuel item rc,
     match Query.entityComponentAdded fuel e item rc q h with
     | Ok _ (_, q') => NoDup (_entities q')
     | Throw _ (_, q') => NoDup (_entities q')
     | OutOfFuel => True
     end) /\
  (forall fuel item rc,
     match Query.entityComponentRemoved fuel e item rc q h with
     | Ok _ (_, q') => NoDup (_entities q')
     | Throw _ (_, q') => NoDup (_entities q')
     | OutOfFuel => True
     end).
Proof.
  intros Hnd.
  assert (Ha : NoDup (_entities (snd (snd (Query.entityAdded e q h))))).
  { unfold Query.entityAdded.
    destruct (Query.has q e) eqn:Hh; cbn [negb andb]; [done|].
    destruct (_predicate q h e); [|done].
    rewrite notify_entities. by apply (push_NoDup q). }
  assert (Hr : NoDup (_entities (snd (snd (Query.entityRemoved e q h))))).
  { unfold Query.entityRemoved. destruct (Query.has q e); [|done].
    rewrite notify_entities. by apply splice_out_NoDup. }
  split; [done|]. split; [done|]. split; [|split].
  - unfold Query.validateEntity. by destruct (_ && _).
  - intros fuel item rc. unfold Query.entityComponentAdded.
    pose proof (updateHelper_entities fuel e item rc q h) as Hu.
    destruct (Query.updateHelper fuel e item rc q h) as [[] [h1 q1]|err [h1 q1]|];
      [|by rewrite Hu|done].
    assert (Hnd1 : NoDup (_entities q1)) by (by rewrite Hu).
    destruct (Query.has q1 e) eqn:Hh; destruct (_predicate q1 h1 (_helper q1));
      cbn [negb andb]; try done.
    + pose proof (notify_entities OnEntityRemoved (Signal.hasHandlers (onEntityRemoved q)) e
                    (Some item) rc
                    (set_entities (Query.splice_out (entity_id e) (_entities q1)) q1) h1) as Hn.
      destruct (Query.notify _ _ _ _ _ _ _) as [out [h2 q2]]. simpl in Hn. rewrite Hn.
      by apply splice_out_NoDup.
    + pose proof (notify_entities OnEntityAdded (Signal.hasHandlers (onEntityAdded q)) e
                    (Some item) rc
                    (set_entities (Query.push (entity_id e) (_entities q1)) q1) h1) as Hn.
      destruct (Query.notify _ _ _ _ _ _ _) as [out [h2 q2]]. simpl in Hn. rewrite Hn.
      by apply (push_NoDup q1).
  - intros fuel item rc. unfold Query.entityComponentRemoved.
    pose proof (updateHelper_entities fuel e item rc q h) as Hu.
    destruct (Query.updateHelper fuel e item rc q h) as [[] [h1 q1]|err [h1 q1]|];
      [|by rewrite Hu|done].
    assert (Hnd1 : NoDup (_entities q1)) by (by rewrite Hu).
    destruct (Query.has q1 e) eqn:Hh; destruct (_predicate q1 h1 (_helper q1));
      destruct (_predicate q1 h1 e); cbn [negb andb]; try done.
    + pose proof (notify_entities OnEntityRemoved (Signal.hasHandlers (onEntityRemoved q)) e
                    (Some item) rc
                    (set_entities (Query.splice_out (entity_id e) (_entities q1)) q1) h1) as Hn.
      destruct (Query.notify _ _ _ _ _ _ _) as [out [h2 q2]]. simpl in Hn. rewrite Hn.
      by apply splice_out_NoDup.
    + pose proof (notify_entities OnEntityAdded (Signal.hasHandlers (onEntityAdded q)) e
                    (Some item) rc
                    (set_entities (Query.push (entity_id e) (_entities q1)) q1) h1) as Hn.
      destruct (Query.notify _ _ _ _ _ _ _) as [out [h2 q2]]. simpl in Hn. rewrite Hn.
      by apply (push_NoDup q1).
Qed.

Lemma query_lists_entity_once_witness :
  let q := set_entities [1; 2] (new_query (holds (CHas (KTag alive))) [5]) in
  let e := set_tags {[alive]} (new_entity 3) in
  NoDup (_entities (snd (snd (Query.entityAdded e q start_heap)))) /\
  NoDup (_entities (snd (snd (Query.entityRemoved e q start_heap)))) /\
  NoDup (_entities (snd (snd (Query.validateEntity e q start_heap)))) /\
  (forall fuel item rc,
     match Query.entityComponentAdded fuel e item rc q start_heap with
     | Ok _ (_, q') => NoDup (_entities q')
     | Throw _ (_, q') => NoDup (_entities q')
     | OutOfFuel => True
     end) /\
  (forall fuel item rc,
     match Query.entityComponentRemoved fuel e item rc q start_heap with
     | Ok _ (_, q') => NoDup (_entities q')
     | Throw _ (_, q') => NoDup (_entities q')
     | OutOfFuel => True
     end).
Proof.
  apply query_lists_entity_once. simpl. repeat constructor; set_solver.
Defined.

(** ** The query builder *)

Lemma ids_kept_getComponentId K b h : ids_kept h (snd (ComponentId.getComponentId K b h)).
Proof. intros n j. apply getComponentId_keeps. Qed.

Lemma getComponentId_builders K b h :
  builders (snd (ComponentId.getComponentId K b h)) = builders h.
Proof.
  unfold ComponentId.getComponentId.
  destruct (componentIds h !! class_name K); [done|]. by destruct b.
Qed.

Lemma builder_at_set r b h : builder_at r (set_builder r b h) = b.
Proof. unfold builder_at. simpl. by rewrite lookup_insert_eq. Qed.

Lemma collected_step ks r h k :
  collected ks (builder_at r h) h ->
  collected (ks ++ [k]) (builder_at r (QueryBuilder.contains_one r h k))
            (QueryBuilder.contains_one r h k) /\
  ids_kept h (QueryBuilder.contains_one r h k).
Proof.
  intros [Hids Htags Hknown]. destruct k as [t|K]; cbn [QueryBuilder.contains_one].
  - rewrite builder_at_set. split; [|by intros n j]. split; simpl.
    + intros i. rewrite Hids. split; intros (K & HK & Hi); exists K.
      * split; [|done]. apply elem_of_app. by left.
      * split; [|done]. apply elem_of_app in HK as [HK|HK]; [done|].
        by apply list_elem_of_singleton in HK.
    + intros u. rewrite elem_of_union, elem_of_singleton, Htags, elem_of_app,
        list_elem_of_singleton. split; intros [H|H]; auto; [by subst; right|].
      left. congruence.
    + intros K HK. apply Hknown. apply elem_of_app in HK as [HK|HK]; [done|].
      by apply list_elem_of_singleton in HK.
  - destruct (getComponentId_create K h) as (i & h' & Hrun & _ & Hi & _).
    pose proof (ids_kept_getComponentId K true h) as Hkept.
    pose proof (getComponentId_builders K true h) as Hb.
    rewrite Hrun in *. simpl in Hkept, Hb.
    assert (Hat : builder_at r h' = builder_at r h) by (unfold builder_at; by rewrite Hb).
    rewrite builder_at_set, Hat. split; [|exact Hkept]. split; simpl.
    + intros j. rewrite elem_of_union, elem_of_singleton, Hids. split.
      * intros [->|(K' & HK' & Hj)].
        -- exists K. split; [|done]. apply elem_of_app. right. by apply list_elem_of_singleton.
        -- exists K'. split; [apply elem_of_app; by left|]. by apply Hkept.
      * intros (K' & HK' & Hj). apply elem_of_app in HK' as [HK'|HK'].
        -- right. exists K'. split; [done|]. destruct (Hknown K' HK') as [j' Hj'].
           pose proof (Hkept _ _ Hj') as Hj2. congruence.
        -- apply list_elem_of_singleton in HK'. injection HK' as ->. left. congruence.
    + intros u. rewrite Htags, elem_of_app, list_elem_of_singleton. split; [by left|].
      by intros [H|H].
    + intros K' HK'. apply elem_of_app in HK' as [HK'|HK'].
      * destruct (Hknown K' HK') as [j' Hj']. exists j'. by apply Hkept.
      * apply list_elem_of_singleton in HK'. injection HK' as ->. by exists i.
Qed.

Lemma collected_fold r : forall ks ks0 h,
  collected ks0 (builder_at r h) h ->
  collected (ks0 ++ ks) (builder_at r (fold_left (QueryBuilder.contains_one r) ks h))
            (fold_left (QueryBuilder.contains_one r) ks h) /\
  ids_kept h (fold_left (QueryBuilder.contains_one r) ks h).
Proof.
  induction ks as [|k ks IH]; intros ks0 h Hc.
  - rewrite app_nil_r. split; [done|apply ids_kept_refl].
  - cbn [fold_left]. destruct (collected_step ks0 r h k Hc) as [Hc1 Hk1].
    destruct (IH (ks0 ++ [k]) _ Hc1) as [Hc2 Hk2].
    rewrite <- app_assoc in Hc2. split; [done|].
    by apply (ids_kept_trans h (QueryBuilder.contains_one r h k)).
Qed.

(** What [new QueryBuilder().contains(...ks)] leaves: the builder holds the
    ids of the classes and the tags of [ks]. *)
Lemma collected_new ks h :
  let r := fst (QueryBuilder.new h) in
  let h1 := snd (QueryBuilder.contains ks r (snd (QueryBuilder.new h))) in
  collected ks (builder_at r h1) h1 /\ ids_kept h h1.
Proof.
  intros r h1.
  destruct (collected_fold r ks [] (snd (QueryBuilder.new h))) as [Hc Hk].
  { unfold r, QueryBuilder.new, alloc_builder, builder_at. simpl.
    rewrite lookup_insert_eq. split; simpl.
    - intros i. split; [set_solver|]. intros (K & HK & _). by apply elem_of_nil in HK.
    - intros t. split; [set_solver|]. intros HK. by apply elem_of_nil in HK.
    - intros K HK. by apply elem_of_nil in HK. }
  rewrite app_nil_l in Hc. split; [exact Hc|].
  apply (ids_kept_trans h (snd (QueryBuilder.new h))); [by intros n j|exact Hk].
Qed.

Lemma collected_hasAll ks b h h2 e :
  collected ks b h -> ids_kept h h2 ->
  Query.hasAll e (builder_components b) (builder_tags b) = Entity.hasAll h2 e ks.
Proof.
  intros [Hids Htags Hknown] Hkept. apply eq_true_iff_eq.
  unfold Query.hasAll, Entity.hasAll.
  rewrite andb_true_iff, !forallb_forall. split.
  - intros [Hc Ht] k Hk. apply list_elem_of_In in Hk. destruct k as [t|K]; simpl.
    + apply Ht. apply list_elem_of_In, elem_of_elements. by apply Htags.
    + destruct (Hknown K Hk) as [i Hi]. unfold Entity.hasComponent.
      rewrite getComponentId_read. simpl. rewrite (Hkept _ _ Hi).
      apply Hc. apply list_elem_of_In, elem_of_elements. apply Hids. by exists K.
  - intros Hall. split.
    + intros i Hi. apply list_elem_of_In, elem_of_elements, Hids in Hi as (K & HK & Hi).
      apply list_elem_of_In in HK. specialize (Hall _ HK). simpl in Hall.
      unfold Entity.hasComponent in Hall. rewrite getComponentId_read in Hall.
      simpl in Hall. by rewrite (Hkept _ _ Hi) in Hall.
    + intros t Ht. apply list_elem_of_In, elem_of_elements, Htags in Ht.
      apply list_elem_of_In in Ht. exact (Hall _ Ht).
Qed.

(** X18: a query built by [new QueryBuilder().contains(...ks).build()]
    registers an id for every class of [ks] that had none, changes no id that
    was assigned, and from then on its predicate is [entity.hasAll(...ks)]:
    on every registry that keeps the assigned ids and on every entity the two
    agree, the builder being as [build()] found it (after the chained
    expression nothing refers to the builder). *)
Theorem built_query_is_hasAll (ks : list Key) (h : Heap) :
  let builder := fst (QueryBuilder.new h) in
  let h1 := snd (QueryBuilder.contains ks builder (snd (QueryBuilder.new h))) in
  ids_kept h h1 /\
  (forall K, KClass K ∈ ks -> is_Some (componentIds h1 !! class_name K)) /\
  forall h2 e, ids_kept h1 h2 -> builder_at builder h2 = builder_at builder h1 ->
    _predicate (QueryBuilder.build builder) h2 e = Entity.hasAll h2 e ks.
Proof.
  intros builder h1.
  destruct (collected_new ks h) as [Hc Hk]. fold builder in Hc. fold h1 in Hc, Hk.
  split; [done|]. split; [by destruct Hc|].
  intros h2 e Hk2 Hb. simpl. rewrite Hb. by apply (collected_hasAll ks _ h1).
Qed.

Lemma built_query_is_hasAll_witness :
  let ks := [KClass Position; KTag alive] in
  let builder := fst (QueryBuilder.new empty_heap) in
  let h1 := snd (QueryBuilder.contains ks builder (snd (QueryBuilder.new empty_heap))) in
  let e := set_tags {[alive]} (new_entity 1) in
  _predicate (QueryBuilder.build builder) h1 e = Entity.hasAll h1 e ks.
Proof.
  intros ks builder h1 e.
  destruct (built_query_is_hasAll ks empty_heap) as (_ & _ & H).
  apply H; [by intros n j|reflexivity].
Defined.

(** * Queries made from patterns *)

Lemma hasAll_on_sets h e ks :
  typed h e ->
  Entity.hasAll h e ks = forallb (fun k => holds_on (CHas k) (names (_components e)) (_tags e)) ks.
Proof.
  intros Hty. unfold Entity.hasAll. induction ks as [|k ks IH]; [done|].
  cbn [forallb]. by rewrite IH, (has_on_sets h e k Hty).
Qed.

Lemma hasAny_on_sets h e ks :
  typed h e ->
  Entity.hasAny h e ks = existsb (fun k => holds_on (CHas k) (names (_components e)) (_tags e)) ks.
Proof.
  intros Hty. unfold Entity.hasAny. induction ks as [|k ks IH]; [done|].
  cbn [existsb]. by rewrite IH, (has_on_sets h e k Hty).
Qed.

(** X19: the predicate of a query that [makeQuery] makes from [all], [any]
    and [not] patterns looks only at which component types and which tags the
    entity has, and the new query lists no entity: it is a query of the kind
    that an engine keeps in step. *)
Theorem makeQuery_presence_query (ps : list Pattern) :
  presence_query (Query.makeQuery (map pattern ps)).
Proof.
  split; [|apply NoDup_nil_2].
  exists (fun ns ts =>
            forallb (fun p =>
                       match p with
                       | PAll ks => forallb (fun k => holds_on (CHas k) ns ts) ks
                       | PAny ks => existsb (fun k => holds_on (CHas k) ns ts) ks
                       | PNot ks => negb (existsb (fun k => holds_on (CHas k) ns ts) ks)
                       end) ps).
  intros h e Hty. cbn [Query.makeQuery _predicate].
  induction ps as [|p ps IH]; [done|].
  cbn [map forallb]. rewrite IH. f_equal.
  destruct p as [ks|ks|ks]; cbn [pattern]; unfold Query.all, Query.any, Query.not.
  - by apply hasAll_on_sets.
  - by apply hasAny_on_sets.
  - f_equal. by apply hasAny_on_sets.
Qed.

(** * The systems of the engine *)

Lemma findIndex_None {A} (f : A -> bool) l :
  findIndex f l = None -> Forall (fun x => f x = false) l.
Proof.
  induction l as [|x r IH]; [constructor|]. simpl.
  destruct (f x) eqn:Hx; [done|].
  destruct (findIndex f r); [done|]. intros _. constructor; [done|]. by apply IH.
Qed.

Lemma findIndex_Some {A} (f : A -> bool) l i :
  findIndex f l = Some i ->
  exists l1 x l2, l = l1 ++ x :: l2 /\ length l1 = i /\
    Forall (fun y => f y = false) l1 /\ f x = true.
Proof.
  revert i. induction l as [|x r IH]; intros i; [done|]. simpl.
  destruct (f x) eqn:Hx.
  - intros [= <-]. by exists [], x, r.
  - destruct (findIndex f r) as [j|]; [|done]. intros [= <-].
    destruct (IH j eq_refl) as (l1 & y & l2 & -> & Hlen & Hall & Hy).
    exists (x :: l1), y, l2. split; [done|]. split; [by rewrite <- Hlen|].
    split; [by constructor|done].
Qed.

Lemma findIndex_first (system : nat) l :
  system ∉ l -> findIndex (fun value => bool_decide (value = system)) l = None.
Proof.
  induction l as [|x r IH]; [done|]. intros Hn. simpl.
  rewrite bool_decide_eq_false_2 by (intros ->; apply Hn, elem_of_cons; by left).
  rewrite IH; [done|]. intros H. apply Hn, elem_of_cons. by right.
Qed.

Lemma findIndex_at (system : nat) l1 l2 :
  system ∉ l1 ->
  findIndex (fun value => bool_decide (value = system)) (l1 ++ system :: l2) = Some (length l1).
Proof.
  induction l1 as [|x r IH]; intros Hn; simpl.
  - by rewrite bool_decide_eq_true_2.
  - rewrite bool_decide_eq_false_2 by (intros ->; apply Hn, elem_of_cons; by left).
    rewrite IH; [done|]. intros H. apply Hn, elem_of_cons. by right.
Qed.

(** Where [addSystem] puts the system: behind the systems of the prefix,
    none of which has a higher priority, and before a system that has. *)
Lemma addSystem_systems system p st :
  exists l1 l2,
    _systems st = l1 ++ l2 /\
    _systems (EngineSystems.addSystem system p st) = l1 ++ system :: l2 /\
    Forall (fun v => (System.priority (System.setPriority system p st) v <= p)%Z) l1 /\
    match l2 with
    | [] => True
    | x :: _ => (p < System.priority (System.setPriority system p st) x)%Z
    end.
Proof.
  unfold EngineSystems.addSystem. cbn [System.setPriority _systems].
  destruct (_systems st) as [|y r] eqn:Hl.
  - exists [], []. by repeat split.
  - rewrite <- Hl.
    destruct (findIndex _ (_systems st)) as [i|] eqn:Hf.
    + apply findIndex_Some in Hf as (l1 & x & l2 & Heq & Hlen & Hall & Hx).
      exists l1, (x :: l2). split; [done|]. split.
      * simpl. rewrite Heq, <- Hlen. by rewrite take_app_length, drop_app_length.
      * split; [|by apply Z.ltb_lt in Hx].
        eapply Forall_impl; [exact Hall|]. intros v Hv. simpl in Hv.
        by apply Z.ltb_ge in Hv.
    + apply findIndex_None in Hf. exists (_systems st), []. split; [by rewrite app_nil_r|].
      split; [done|]. split; [|done].
      eapply Forall_impl; [exact Hf|]. intros v Hv. simpl in Hv. by apply Z.ltb_ge in Hv.
Qed.

Lemma addSystem_priority system p st v :
  System.priority (EngineSystems.addSystem system p st) v =
  if decide (v = system) then p else System.priority st v.
Proof.
  assert (H : _priority (EngineSystems.addSystem system p st) = <[system := p]> (_priority st)).
  { unfold EngineSystems.addSystem. cbn [System.setPriority _systems].
    destruct (_systems st) as [|y r]; [done|]. by destruct (findIndex _ (y :: r)). }
  unfold System.priority. rewrite H. destruct (decide (v = system)) as [->|Hne].
  - by rewrite lookup_insert_eq.
  - by rewrite lookup_insert_ne.
Qed.

Lemma addSystem_calls system p st :
  system_calls (EngineSystems.addSystem system p st) =
  system_calls st ++ [SignalOnAddedToEngine system; OnAddedToEngine system] /\
  _engine (EngineSystems.addSystem system p st) = {[system]} ∪ _engine st.
Proof.
  unfold EngineSystems.addSystem. cbn [System.setPriority _systems].
  destruct (_systems st) as [|y r]; [simpl; by rewrite <- app_assoc|].
  destruct (findIndex _ (y :: r)); simpl; by rewrite <- app_assoc.
Qed.

(** X20: [addSystem] keeps the systems in update order. When the systems of
    the engine are in ascending order of priority and the system is not among
    them, afterwards they are again, with the system behind every system
    whose priority is not higher than its own (so behind those of equal
    priority) and before every system of higher priority; the other systems
    keep their order and their priorities. *)
Theorem addSystem_in_priority_order (system : nat) (p : Z) (st : Systems) :
  system ∉ _systems st ->
  StronglySorted (fun a b => (System.priority st a <= System.priority st b)%Z) (_systems st) ->
  let st' := EngineSystems.addSystem system p st in
  (exists l1 l2,
     _systems st = l1 ++ l2 /\ _systems st' = l1 ++ system :: l2 /\
     Forall (fun v => (System.priority st v <= p)%Z) l1 /\
     Forall (fun v => (p < System.priority st v)%Z) l2) /\
  StronglySorted (fun a b => (System.priority st' a <= System.priority st' b)%Z) (_systems st') /\
  System.priority st' system = p /\
  (forall v, v <> system -> System.priority st' v = System.priority st v).
Proof.
  intros Hnew Hsorted st'.
  assert (Hother : forall v, v ∈ _systems st ->
            System.priority (System.setPriority system p st) v = System.priority st v).
  { intros v Hv. unfold System.priority, System.setPriority. simpl.
    rewrite lookup_insert_ne; [done|]. intros <-. by apply Hnew. }
  destruct (addSystem_systems system p st) as (l1 & l2 & Heq & Heq' & Hl1 & Hl2).
  fold st' in Heq'.
  assert (H1 : Forall (fun v => (System.priority st v <= p)%Z) l1).
  { apply Forall_forall. intros v Hv. rewrite <- Hother.
    - by apply (proj1 (Forall_forall _ _) Hl1).
    - rewrite Heq. apply elem_of_app. by left. }
  assert (H2 : Forall (fun v => (p < System.priority st v)%Z) l2).
  { destruct l2 as [|x l2]; [constructor|].
    rewrite Hother in Hl2 by (rewrite Heq; apply elem_of_app; right; apply elem_of_cons; by left).
    rewrite Heq in Hsorted. apply StronglySorted_app in Hsorted as (_ & _ & Hs2).
    apply StronglySorted_cons in Hs2 as [Hx _].
    constructor; [done|]. eapply Forall_impl; [exact Hx|]. intros v Hv. simpl in Hv. lia. }
  split; [by exists l1, l2|].
  assert (Hp : forall v, System.priority st' v = if decide (v = system) then p
                                                  else System.priority st v)
    by apply addSystem_priority.
  assert (Hp' : forall v, v ∈ _systems st -> System.priority st' v = System.priority st v).
  { intros v Hv. rewrite Hp. destruct (decide (v = system)) as [->|]; [by destruct Hnew|done]. }
  split; [|split].
  - rewrite Heq'. rewrite Heq in Hsorted, Hp'.
    apply StronglySorted_app in Hsorted as (H12 & Hs1 & Hs2).
    assert (Hsys : System.priority st' system = p) by (rewrite Hp; by rewrite decide_True).
    apply StronglySorted_app. split; [|split].
    + intros a b Ha Hb. apply elem_of_cons in Hb as [->|Hb].
      * rewrite Hsys, Hp' by (apply elem_of_app; by left).
        by apply (proj1 (Forall_forall _ _) H1).
      * rewrite !Hp' by (apply elem_of_app; auto). by apply H12.
    + clear -Hs1 Hp'. induction Hs1 as [|a l Hs IH Ha]; [constructor|].
      constructor.
      * apply IH. intros v Hv. apply Hp'. apply elem_of_app in Hv as [Hv|Hv].
        -- apply elem_of_app. left. apply elem_of_cons. by right.
        -- apply elem_of_app. by right.
      * apply Forall_forall. intros b Hb.
        rewrite !Hp'.
        -- by apply (proj1 (Forall_forall _ _) Ha).
        -- apply elem_of_app. left. apply elem_of_cons. by right.
        -- apply elem_of_app. left. apply elem_of_cons. by left.
    + apply StronglySorted_cons. split.
      * apply Forall_forall. intros b Hb. rewrite Hsys, Hp' by (apply elem_of_app; by right).
        pose proof (proj1 (Forall_forall _ _) H2 b Hb). simpl in *. lia.
      * clear -Hs2 Hp'. induction Hs2 as [|a l Hs IH Ha]; [constructor|].
        constructor.
        -- apply IH. intros v Hv. apply Hp'. apply elem_of_app in Hv as [Hv|Hv].
           ++ apply elem_of_app. by left.
           ++ apply elem_of_app. right. apply elem_of_cons. by right.
        -- apply Forall_forall. intros b Hb.
           rewrite !Hp'.
           ++ by apply (proj1 (Forall_forall _ _) Ha).
           ++ apply elem_of_app. right. apply elem_of_cons. by right.
           ++ apply elem_of_app. right. apply elem_of_cons. by left.
  - rewrite Hp. by rewrite decide_True.
  - intros v Hv. rewrite Hp. by rewrite decide_False.
Qed.

Lemma addSystem_in_priority_order_witness :
  let st := EngineSystems.addSystem 3 5
              (EngineSystems.addSystem 2 1
                 (EngineSystems.addSystem 1 5 (mkSystems [] ∅ ∅ []))) in
  let st' := EngineSystems.addSystem 4 1 st in
  (exists l1 l2,
     _systems st = l1 ++ l2 /\ _systems st' = l1 ++ 4 :: l2 /\
     Forall (fun v => (System.priority st v <= 1)%Z) l1 /\
     Forall (fun v => (1 < System.priority st v)%Z) l2) /\
  StronglySorted (fun a b => (System.priority st' a <= System.priority st' b)%Z) (_systems st') /\
  System.priority st' 4 = 1%Z /\
  (forall v, v <> 4 -> System.priority st' v = System.priority st v).
Proof.
  apply addSystem_in_priority_order.
  - vm_compute. set_solver.
  - change (StronglySorted
              (fun a b => (System.priority
                             (EngineSystems.addSystem 3 5
                                (EngineSystems.addSystem 2 1
                                   (EngineSystems.addSystem 1 5 (mkSystems [] ∅ ∅ [])))) a <=
                           System.priority
                             (EngineSystems.addSystem 3 5
                                (EngineSystems.addSystem 2 1
                                   (EngineSystems.addSystem 1 5 (mkSystems [] ∅ ∅ [])))) b)%Z)
              [2; 1; 3]).
    repeat constructor; vm_compute; discriminate.
Defined.

(** X21: [addSystem] does not look whether the system is among the systems
    already (it is listed once more, whatever the state); [removeSystem] of a
    system that is not listed changes nothing and calls nothing; and for such
    a system [addSystem] followed by [removeSystem] leaves the systems as
    they were, having called the system's added signal and hook and then its
    removed hook and signal, the system keeping the priority it was given. *)
Theorem addSystem_then_removeSystem (system : nat) (p : Z) (st : Systems) :
  system ∉ _systems st ->
  let st' := EngineSystems.removeSystem system (EngineSystems.addSystem system p st) in
  EngineSystems.removeSystem system st = st /\
  _systems (EngineSystems.addSystem system p st) ≡ₚ system :: _systems st /\
  _systems st' = _systems st /\
  system_calls st' =
    system_calls st ++ [SignalOnAddedToEngine system; OnAddedToEngine system;
                        OnRemovedFromEngine system; SignalOnRemovedFromEngine system] /\
  _engine st' = ({[system]} ∪ _engine st) ∖ {[system]} /\
  System.priority st' system = p.
Proof.
  intros Hnew st'.
  destruct (addSystem_systems system p st) as (l1 & l2 & Heq & Heq' & _).
  destruct (addSystem_calls system p st) as [Hcalls Heng].
  pose proof (addSystem_priority system p st system) as Hp. rewrite decide_True in Hp by done.
  split.
  { unfold EngineSystems.removeSystem. by rewrite findIndex_first. }
  split.
  { rewrite Heq', Heq. by rewrite Permutation_middle. }
  assert (Hn1 : system ∉ l1).
  { intros H. apply Hnew. rewrite Heq. apply elem_of_app. by left. }
  subst st'. unfold EngineSystems.removeSystem.
  rewrite Heq', (findIndex_at system l1 l2 Hn1). cbv beta iota.
  unfold System.setEngine, System.onRemovedFromEngine, EngineSystems.set_systems,
    System.priority.
  cbn [negb _systems _priority _engine system_calls].
  rewrite delete_middle, Hcalls, Heng, <- Heq, <- !app_assoc.
  repeat split; done.
Qed.

Lemma addSystem_then_removeSystem_witness :
  let st := EngineSystems.addSystem 2 1 (EngineSystems.addSystem 1 5 (mkSystems [] ∅ ∅ [])) in
  let st' := EngineSystems.removeSystem 3 (EngineSystems.addSystem 3 2 st) in
  EngineSystems.removeSystem 3 st = st /\
  _systems (EngineSystems.addSystem 3 2 st) ≡ₚ 3 :: _systems st /\
  _systems st' = _systems st /\
  system_calls st' =
    system_calls st ++ [SignalOnAddedToEngine 3; OnAddedToEngine 3;
                        OnRemovedFromEngine 3; SignalOnRemovedFromEngine 3] /\
  _engine st' = ({[3]} ∪ _engine st) ∖ {[3]} /\
  System.priority st' 3 = 2%Z.
Proof.
  apply addSystem_then_removeSystem. vm_compute. set_solver.
Defined.

(** * The subscriptions of the engine *)

Lemma equals_handler s mt f :
  Subscription.equals s mt (Some f) = bool_decide (s = mkSubscription mt f).
Proof.
  unfold Subscription.equals. destruct s as [mt' f']. simpl.
  repeat case_bool_decide; simpl; congruence.
Qed.

Lemma find_subscription mt f subs :
  List.find (fun s => Subscription.equals s mt (Some f)) subs =
  if bool_decide (mkSubscription mt f ∈ subs) then Some (mkSubscription mt f) else None.
Proof.
  induction subs as [|s r IH]; [done|]. cbn [List.find].
  rewrite equals_handler.
  destruct (decide (s = mkSubscription mt f)) as [->|Hs].
  - rewrite !bool_decide_eq_true_2; [done| |done]. apply elem_of_cons. by left.
  - rewrite (bool_decide_eq_false_2 _ Hs), IH.
    destruct (decide (mkSubscription mt f ∈ r)) as [Hr|Hr].
    + rewrite !bool_decide_eq_true_2; [done| |done]. apply elem_of_cons. by right.
    + rewrite !bool_decide_eq_false_2; [done| |done]. rewrite elem_of_cons. naive_solver.
Qed.

(** X22: [addSubscription] never subscribes a handler twice to a message
    type. When no subscription occurs twice, none does afterwards; the
    subscription returned is the one for the message type and the handler, it
    is among the subscriptions, those that were there keep their places, and
    subscribing once more changes nothing. *)
Theorem addSubscription_once (mt : Key) (f : nat) (subs : list Subscription) :
  NoDup subs ->
  let r := EngineSubscriptions.addSubscription mt f subs in
  fst r = mkSubscription mt f /\
  NoDup (snd r) /\
  mkSubscription mt f ∈ snd r /\
  (snd r = subs \/ ((mkSubscription mt f ∉ subs) /\ snd r = subs ++ [mkSubscription mt f])) /\
  EngineSubscriptions.addSubscription mt f (snd r) = r.
Proof.
  intros Hnd. unfold EngineSubscriptions.addSubscription.
  rewrite find_subscription. case_bool_decide as Hin; cbn [fst snd].
  - split; [done|]. split; [done|]. split; [done|]. split; [by left|].
    rewrite find_subscription. by rewrite bool_decide_eq_true_2.
  - assert (Hin' : mkSubscription mt f ∈ subs ++ [mkSubscription mt f]).
    { apply elem_of_app. right. by apply list_elem_of_singleton. }
    split; [done|]. split.
    { apply NoDup_app. split; [done|]. split; [|apply NoDup_singleton].
      intros x Hx Hx'. apply list_elem_of_singleton in Hx'. by subst x. }
    split; [done|]. split; [by right|].
    rewrite find_subscription. by rewrite bool_decide_eq_true_2.
Qed.

Lemma addSubscription_once_witness :
  let subs := [mkSubscription (KTag (TagStr "round")) 1;
               mkSubscription (KClass Damage) 1] in
  let r := EngineSubscriptions.addSubscription (KClass Damage) 2 subs in
  fst r = mkSubscription (KClass Damage) 2 /\
  NoDup (snd r) /\
  mkSubscription (KClass Damage) 2 ∈ snd r /\
  (snd r = subs \/
   ((mkSubscription (KClass Damage) 2 ∉ subs) /\
    snd r = subs ++ [mkSubscription (KClass Damage) 2])) /\
  EngineSubscriptions.addSubscription (KClass Damage) 2 (snd r) = r.
Proof.
  apply addSubscription_once.
  apply NoDup_cons. split; [|apply NoDup_singleton].
  intros H. apply list_elem_of_singleton in H. discriminate H.
Defined.

Lemma removeSubscription_all mt : forall i subs,
  i <= length subs ->
  EngineSubscriptions.removeSubscription_loop i mt None subs =
  List.filter (fun s => negb (bool_decide (messageType s = mt))) (take i subs) ++ drop i subs.
Proof.
  induction i as [|i IH]; intros subs Hi; [by rewrite take_0, drop_0|].
  cbn [EngineSubscriptions.removeSubscription_loop].
  destruct (lookup_lt_is_Some_2 subs i) as [s Hs]; [lia|]. rewrite Hs.
  rewrite (take_S_r _ _ _ Hs), List.filter_app. cbn [List.filter].
  unfold Subscription.equals. rewrite andb_true_r.
  case_bool_decide as Hm; cbn [negb].
  - rewrite IH by (rewrite length_delete by eauto; lia).
    rewrite delete_take_drop, app_nil_r.
    rewrite take_app_le, take_take by (rewrite length_take; lia).
    rewrite Nat.min_id. f_equal.
    rewrite drop_app_ge by (rewrite length_take; lia).
    rewrite length_take, drop_drop. f_equal. lia.
  - rewrite IH by lia. rewrite <- app_assoc. f_equal. by rewrite (drop_S _ _ _ Hs).
Qed.

Lemma removeSubscription_skip mt f : forall i subs,
  i <= length subs -> mkSubscription mt f ∉ take i subs ->
  EngineSubscriptions.removeSubscription_loop i mt (Some f) subs = subs.
Proof.
  induction i as [|i IH]; intros subs Hi Hn; [done|].
  cbn [EngineSubscriptions.removeSubscription_loop].
  destruct (lookup_lt_is_Some_2 subs i) as [s Hs]; [lia|]. rewrite Hs.
  rewrite (take_S_r _ _ _ Hs) in Hn. rewrite equals_handler.
  rewrite bool_decide_eq_false_2.
  - apply IH; [lia|]. intros H. apply Hn, elem_of_app. by left.
  - intros ->. apply Hn, elem_of_app. right. by apply list_elem_of_singleton.
Qed.

Lemma removeSubscription_last mt f l1 l2 :
  mkSubscription mt f ∉ l2 ->
  EngineSubscriptions.removeSubscription mt (Some f) (l1 ++ mkSubscription mt f :: l2) =
  l1 ++ l2.
Proof.
  unfold EngineSubscriptions.removeSubscription.
  set (t := mkSubscription mt f). intros Hn.
  assert (H : forall k l2a l2b, l2 = l2a ++ l2b -> length l2a = k ->
            EngineSubscriptions.removeSubscription_loop (S (length l1) + k) mt (Some f)
              (l1 ++ t :: l2) = l1 ++ l2).
  { induction k as [|k IH]; intros l2a l2b Hl Hk.
    - rewrite Nat.add_0_r. cbn [EngineSubscriptions.removeSubscription_loop].
      rewrite list_lookup_middle by done. rewrite equals_handler.
      rewrite bool_decide_eq_true_2 by done. by rewrite delete_middle.
    - replace (S (length l1) + S k) with (S (S (length l1) + k)) by lia.
      cbn [EngineSubscriptions.removeSubscription_loop].
      destruct (lookup_lt_is_Some_2 l2a k) as [s Hs]; [lia|].
      assert (Hlook : (l1 ++ t :: l2) !! (S (length l1) + k) = Some s).
      { rewrite lookup_app_r by lia.
        replace (S (length l1) + k - length l1) with (S k) by lia. simpl.
        rewrite Hl. by apply lookup_app_l_Some. }
      cbn [Nat.add] in Hlook |- *. rewrite Hlook, equals_handler.
      rewrite bool_decide_eq_false_2.
      + apply (IH (take k l2a) (drop k l2a ++ l2b)).
        * by rewrite app_assoc, take_drop.
        * rewrite length_take. lia.
      + intros ->. apply Hn. rewrite Hl. apply elem_of_app. left.
        by apply (list_elem_of_lookup_2 _ k). }
  rewrite length_app. cbn [length].
  replace (length l1 + S (length l2)) with (S (length l1) + length l2) by lia.
  apply (H (length l2) l2 []); [by rewrite app_nil_r|done].
Qed.

(** X23: [removeSubscription]. With a handler it takes out the last
    subscription of the handler to the message type and no other, and
    changes nothing when there is none; without a handler it takes out every
    subscription to the message type. The subscriptions that stay keep their
    order. *)
Theorem removeSubscription_drops (mt : Key) (f : nat) (l1 l2 : list Subscription) :
  mkSubscription mt f ∉ l2 ->
  EngineSubscriptions.removeSubscription mt (Some f) (l1 ++ mkSubscription mt f :: l2) =
    l1 ++ l2 /\
  EngineSubscriptions.removeSubscription mt (Some f) l2 = l2 /\
  EngineSubscriptions.removeSubscription mt None (l1 ++ mkSubscription mt f :: l2) =
    List.filter (fun s => negb (bool_decide (messageType s = mt))) (l1 ++ l2).
Proof.
  intros Hn. split; [by apply removeSubscription_last|]. split.
  - unfold EngineSubscriptions.removeSubscription.
    apply removeSubscription_skip; [done|]. by rewrite firstn_all.
  - unfold EngineSubscriptions.removeSubscription.
    rewrite removeSubscription_all by done.
    rewrite firstn_all, drop_all, app_nil_r, !List.filter_app. cbn [List.filter].
    by rewrite bool_decide_eq_true_2.
Qed.

Lemma removeSubscription_drops_witness :
  let a := mkSubscription (KClass Damage) 1 in
  let b := mkSubscription (KClass Damage) 2 in
  let c := mkSubscription (KTag (TagStr "round")) 1 in
  EngineSubscriptions.removeSubscription (KClass Damage) (Some 1) ([c] ++ a :: [b; c]) =
    [c] ++ [b; c] /\
  EngineSubscriptions.removeSubscription (KClass Damage) (Some 1) [b; c] = [b; c] /\
  EngineSubscriptions.removeSubscription (KClass Damage) None ([c] ++ a :: [b; c]) =
    List.filter (fun s => negb (bool_decide (messageType s = KClass Damage))) ([c] ++ [b; c]).
Proof.
  apply (removeSubscription_drops (KClass Damage) 1
           [mkSubscription (KTag (TagStr "round")) 1]
           [mkSubscription (KClass Damage) 2; mkSubscription (KTag (TagStr "round")) 1]).
  intros H. apply elem_of_cons in H as [H|H]; [discriminate H|].
  apply list_elem_of_singleton in H. discriminate H.
Defined.

(** X24: subscribing a handler that is not subscribed to the message type
    and unsubscribing it again leaves the subscriptions as they were. *)
Theorem subscribe_unsubscribe (mt : Key) (f : nat) (subs : list Subscription) :
  mkSubscription mt f ∉ subs ->
  EngineSubscriptions.removeSubscription mt (Some f)
    (snd (EngineSubscriptions.addSubscription mt f subs)) = subs.
Proof.
  intros Hn.
  unfold EngineSubscriptions.addSubscription. rewrite find_subscription.
  rewrite bool_decide_eq_false_2 by done. cbn [snd].
  rewrite (removeSubscription_last mt f subs []); [by rewrite app_nil_r|].
  apply not_elem_of_nil.
Qed.

Lemma subscribe_unsubscribe_witness :
  let subs := [mkSubscription (KClass Damage) 1; mkSubscription (KTag (TagStr "round")) 2] in
  EngineSubscriptions.removeSubscription (KClass Damage) (Some 2)
    (snd (EngineSubscriptions.addSubscription (KClass Damage) 2 subs)) = subs.
Proof.
  apply subscribe_unsubscribe.
  intros H. apply elem_of_cons in H as [H|H]; [discriminate H|].
  apply list_elem_of_singleton in H. discriminate H.
Defined.

(** * A list that closes on itself *)

Lemma chain_next_in h o l x :
  chain h o l -> x ∈ l ->
  (exists y, next_of h x = Some y /\ y ∈ l) \/ last l = Some x.
Proof.
  induction 1 as [|c l Hc IH]; intros Hx; [by apply elem_of_nil in Hx|].
  apply elem_of_cons in Hx as [->|Hx].
  - destruct l as [|y l]; [by right|]. left. exists y.
    pose proof (chain_head _ _ _ Hc) as Hh. simpl in Hh. split; [done|].
    apply elem_of_cons. right. apply elem_of_cons. by left.
  - destruct (IH Hx) as [(y & Hy & Hin)|Hl].
    + left. exists y. split; [done|]. apply elem_of_cons. by right.
    + right. destruct l; [by apply elem_of_nil in Hx|]. by rewrite last_cons, Hl.
Qed.

Lemma nodes_from_closed h (S : list Component) :
  (forall x, x ∈ S -> exists y, next_of h x = Some y /\ y ∈ S) ->
  forall n x, x ∈ S -> LinkedComponentList.nodes_from n (Some x) h = None.
Proof.
  intros Hclosed. induction n as [|n IH]; intros x Hx; [done|].
  cbn [LinkedComponentList.nodes_from].
  destruct (Hclosed x Hx) as (y & -> & Hy). by rewrite (IH y Hy).
Qed.

(** X25: [remove] leaves the [next] of the instance it takes out, and [add]
    does not reset it: when an instance that is not the last of its list is
    removed and then added again, both calls return, and the list closes on
    itself: [nodes], on which [iterate], [lengthOf] and [getAll] of the
    entity are built, does not come to an end, whatever the number of
    steps. *)
Theorem readded_instance_closes_list (h : Heap) (L : nat) (c d : Component)
  (l1 l2 : list Component) (fuel : nat) :
  chain h (list_head h !! L) (l1 ++ c :: d :: l2) ->
  length (l1 ++ c :: d :: l2) <= fuel ->
  exists h1 h2,
    LinkedComponentList.remove fuel L c h = Ok true h1 /\
    LinkedComponentList.add fuel L c h1 = Ok tt h2 /\
    forall n, LinkedComponentList.nodes n L h2 = None.
Proof.
  intros Hch Hf. pose proof (chain_NoDup _ _ _ Hch) as Hnd.
  rewrite length_app in Hf. cbn [length] in Hf.
  destruct (list_remove_present h L c l1 (d :: l2) fuel Hch) as (Hrm & Hch1 & Hnext); [lia|].
  set (h1 := unlink h L (last l1) c) in *.
  assert (Hcd : next_of h1 c = Some d).
  { rewrite Hnext.
    pose proof (chain_suffix _ _ _ Hch c l1 (d :: l2) eq_refl) as Hs.
    by apply chain_tail in Hs as [Hs _]. }
  assert (Hc : c ∉ l1 ++ d :: l2).
  { apply NoDup_app in Hnd as (_ & Hd & Hnd). apply NoDup_cons in Hnd as [Hc2 _].
    intros Hin. apply elem_of_app in Hin as [Hin|Hin]; [|done].
    apply (Hd c Hin). apply elem_of_cons. by left. }
  pose proof (list_add_absent h1 L c (l1 ++ d :: l2) fuel Hch1 Hc) as Hadd.
  rewrite length_app in Hadd. cbn [length] in Hadd. specialize (Hadd ltac:(lia)).
  destruct (last (l1 ++ d :: l2)) as [p|] eqn:Hlast;
    [|apply last_None in Hlast; by destruct l1].
  exists h1, (set_next p (Some c) h1). split; [done|]. split; [done|].
  intros n. unfold LinkedComponentList.nodes, LinkedComponentList.head.
  change (list_head (set_next p (Some c) h1)) with (list_head h1).
  pose proof (chain_head _ _ _ Hch1) as Hhead.
  destruct (l1 ++ d :: l2) as [|x0 rest] eqn:Hl; [by destruct l1|].
  simpl in Hhead. rewrite <- Hhead.
  apply (nodes_from_closed _ (c :: x0 :: rest)); [|apply elem_of_cons; right; apply elem_of_cons; by left].
  assert (Hd : d ∈ x0 :: rest).
  { rewrite <- Hl. apply elem_of_app. right. apply elem_of_cons. by left. }
  intros x Hx. apply elem_of_cons in Hx as [->|Hx].
  - exists d. split; [|apply elem_of_cons; by right].
    rewrite next_of_set_next_ne; [done|]. intros ->. apply Hc.
    apply (list_elem_of_lookup_2 _ (pred (length (x0 :: rest)))).
    by rewrite <- last_lookup.
  - destruct (decide (x = p)) as [->|Hne].
    + exists c. split; [apply next_of_set_next_eq|apply elem_of_cons; by left].
    + destruct (chain_next_in _ _ _ x Hch1 Hx) as [(y & Hy & Hin)|Hl'].
      * exists y. split; [by rewrite next_of_set_next_ne|apply elem_of_cons; by right].
      * congruence.
Qed.

Lemma readded_instance_closes_list_witness :
  exists h1 h2,
    LinkedComponentList.remove 10 0 damage_a (heap three_damage) = Ok true h1 /\
    LinkedComponentList.add 10 0 damage_a h1 = Ok tt h2 /\
    forall n, LinkedComponentList.nodes n 0 h2 = None.
Proof.
  apply (readded_instance_closes_list (heap three_damage) 0 damage_a damage_b [] [damage_c] 10).
  - exact (hl_chain _ _ _ _ _ _ three_damage_holds).
  - simpl. lia.
Defined.

(** * Scenarios of the statements above *)

(** The query of a builder is a query over presence from the store that
    [contains] leaves on, for as long as the builders are as they are in
    that store. *)
Lemma built_engine_query ks h :
  let builder := fst (QueryBuilder.new h) in
  engine_query (snd (QueryBuilder.contains ks builder (snd (QueryBuilder.new h))))
               (QueryBuilder.build builder).
Proof.
  intros builder. split; [|apply NoDup_nil_2].
  exists (fun ns ts => forallb (fun k => holds_on (CHas k) ns ts) ks).
  intros h2 e [Hk Hb] Hty.
  destruct (collected_new ks h) as [Hc _]. fold builder in Hc.
  cbn [QueryBuilder.build _predicate].
  assert (Hat : builder_at builder h2 =
                builder_at builder
                  (snd (QueryBuilder.contains ks builder (snd (QueryBuilder.new h)))))
    by (unfold builder_at; by rewrite Hb).
  rewrite Hat.
  rewrite (collected_hasAll ks _ _ h2 e Hc Hk). by apply hasAll_on_sets.
Qed.

(** The predicate of a built query reads the builder as it is: a
    [contains] on the builder after [build()] changes what the query
    accepts. *)
Lemma built_query_follows_builder :
  let builder := fst (QueryBuilder.new start_heap) in
  let h1 := snd (QueryBuilder.contains [KTag alive] builder (snd (QueryBuilder.new start_heap))) in
  let q := QueryBuilder.build builder in
  let h2 := snd (QueryBuilder.contains [KTag burning] builder h1) in
  let e := set_tags {[alive]} (new_entity 1) in
  _predicate q h1 e = true /\ _predicate q h2 e = false.
Proof. vm_compute. split; reflexivity. Qed.

Lemma built_world_next c : next_of (heap built_world) c = None.
Proof. exact (start_heap_next c). Qed.

Lemma presence_queries_stay_in_step_witness :
  exists s',
    Engine.perform_all 10 presence_ops built_world = Some s' /\
    Forall2 same_query (_queries (ext built_world)) (_queries (ext s')) /\
    Forall (fun q => Query.has q (this s') = _predicate q (heap s') (this s'))
           (_queries (ext s')) /\
    wf_store (heap s') (this s') /\
    Engine.connected (this s').
Proof.
  destruct (Engine.perform_all 10 presence_ops built_world) as [s'|] eqn:E.
  - exists s'. split; [reflexivity|].
    apply (presence_queries_stay_in_step 10 built_world s' presence_ops).
    + apply wf_store_new.
      * intros a b H. by rewrite built_world_next in H.
      * intros n j. change (componentIds (heap built_world)) with (<[class_name Damage := 1]> (∅ : gmap string nat)).
        intros [[_ <-]|[_ H]]%lookup_insert_Some; [|done].
        change (componentClassId (heap built_world)) with 2. lia.
      * intros n m j. change (componentIds (heap built_world)) with (<[class_name Damage := 1]> (∅ : gmap string nat)).
        intros [[<- _]|[_ H]]%lookup_insert_Some; [|done].
        by intros [[<- _]|[_ H]]%lookup_insert_Some.
    + by apply connected_connectEntity.
    + constructor; [apply presence_query_from, holds_presence_based|].
      constructor; [apply presence_query_from, holds_presence_based|].
      constructor; [|constructor].
      exact (built_engine_query [KClass Damage; KTag alive] start_heap).
    + repeat constructor.
    + repeat constructor; vm_compute; reflexivity.
    + exact E.
  - exfalso.
    assert (X : match Engine.perform_all 10 presence_ops built_world with
                | Some _ => true
                | None => false
                end = true) by (vm_compute; reflexivity).
    rewrite E in X. discriminate X.
Defined.

Lemma remove_hangs_on_plain_tail_witness :
  next_prop start_heap !! hit100 = None /\
  next_prop start_heap !! hit5 = None /\
  Entity.remove record 1000 (KClass Damage)
    (mkSt (heap readme_hero) (this readme_hero) (ext readme_hero)) = OutOfFuel.
Proof.
  split; [reflexivity|]. split; [reflexivity|].
  apply (remove_hangs_on_plain_tail 1000 (heap readme_hero) (this readme_hero)
           (ext readme_hero) Damage 1 0 hit100 hit5); vm_compute; reflexivity.
Defined.

